(** * Auto Mode Service: a shallow embedding of the orchestration core

    The definitions below follow [apps/server/src/services/auto-mode-service.ts]
    (the feature execution orchestrator): the plan parser, the quality gate
    runner, the dependency-aware task scheduler, the plan approval table, the
    plan-spec store and the failure circuit breaker.

    Conventions.
    - A JS [Map<string, V>] is a [gmap string V]; an array is a [list].
    - [Date.now()] is an argument ([now : Z], milliseconds).
    - An awaited external call (a shell command, an agent call, the judge) is
      an argument giving its outcome; a thrown exception is a value of a sum
      or option type.
    - JS numbers used as counters are [Z]. *)

From Stdlib Require Import ZArith Lia Bool Ascii String Sorted.
From stdpp Require Import base option list gmap strings.

Open Scope string_scope.
Open Scope list_scope.

(** JS truthiness of a string: the empty string is falsy. *)
Definition truthy (s : string) : bool :=
  match s with EmptyString => false | _ => true end.

(** [a || b] on optional strings ([undefined] and [""] are falsy). *)
Definition js_or (a b : option string) : option string :=
  match a with
  | Some s => if truthy s then a else b
  | None => b
  end.

(** * Quality gate runner *)
Module QualityGate.

Inductive GateStatus := pass | fail | skipped.

#[global] Instance GateStatus_eq_dec : EqDecision GateStatus.
Proof. solve_decision. Defined.

(** [QualityGateResult]; [durationMs] is wall-clock time and is left out. *)
Record QualityGateResult := {
  name : string;
  status : GateStatus;
  output : option string;
}.

Record QualityCheckOutcome := {
  passed : bool;
  results : list QualityGateResult;
  (** the commands handed to [execAsync], in order *)
  executed : list string;
}.

(** What [await execAsync(cmd, ...)] does: it resolves with the two output
    streams or rejects with an error carrying optional fields. *)
Inductive ExecOutcome :=
| Resolved (stdout stderr : string)
| Rejected (stdout stderr message : option string).

Definition exec_ok (o : ExecOutcome) : bool :=
  match o with Resolved _ _ => true | Rejected _ _ _ => false end.

Record Check := { cmd : string; cname : string }.

Definition verificationChecks : list Check :=
  [ {| cmd := "npm run lint"; cname := "Lint" |};
    {| cmd := "npm run typecheck"; cname := "Type check" |};
    {| cmd := "npm test"; cname := "Tests" |};
    {| cmd := "npm run build"; cname := "Build" |} ].

(** [value.slice(-n)]: the last [n] characters. *)
Definition slice_last (n : nat) (s : string) : string :=
  String.substring (String.length s - n) n s.

Definition clampOutput (value : string) : string :=
  if Nat.ltb 4000 (String.length value) then slice_last 4000 value else value.

Definition pass_result (c : Check) (stdout stderr : string) : QualityGateResult :=
  {| name := cname c; status := pass;
     output := if truthy stdout then Some (clampOutput stdout)
               else if truthy stderr then Some (clampOutput stderr)
               else None |}.

Definition fail_result (c : Check) (stdout stderr message : option string)
  : QualityGateResult :=
  {| name := cname c; status := fail;
     output := Some (clampOutput
                 (default "Unknown error" (js_or (js_or stdout stderr) message))) |}.

Definition skipped_result (c : Check) : QualityGateResult :=
  {| name := cname c; status := skipped; output := None |}.

Section Run.
(** The shell, as seen by one run of the gate. *)
Variable execAsync : string -> ExecOutcome.

(** The [for] loop over [verificationChecks] from position [index] on:
      [checks] is what is left, [acc] holds [results] and the commands run.
      A rejection pushes the failure, marks the remaining checks skipped and
      breaks with [allPassed = false]. *)
Fixpoint check_loop (checks : list Check)
      (acc : list QualityGateResult) (ran : list string) : QualityCheckOutcome :=
    match checks with
    | [] => {| passed := true; results := acc; executed := ran |}
    | c :: remaining =>
        match execAsync (cmd c) with
        | Resolved stdout stderr =>
            check_loop remaining (acc ++ [pass_result c stdout stderr]) (ran ++ [cmd c])
        | Rejected stdout stderr message =>
            {| passed := false;
               results := (acc ++ [fail_result c stdout stderr message])
                            ++ map skipped_result remaining;
               executed := ran ++ [cmd c] |}
        end
    end.

Definition runQualityChecks : QualityCheckOutcome :=
  check_loop verificationChecks [] [].
End Run.

End QualityGate.

(** * Plan tasks and the persisted plan spec *)
Module Task.

Inductive PlanTaskStatus := pending | in_progress | completed | blocked | failed.

#[global] Instance PlanTaskStatus_eq_dec : EqDecision PlanTaskStatus.
Proof. solve_decision. Defined.

Inductive PlanTaskComplexity := low | medium | high.

#[global] Instance PlanTaskComplexity_eq_dec : EqDecision PlanTaskComplexity.
Proof. solve_decision. Defined.

(** [ParsedTask]: a [PlanTask] whose status is always set. *)
Record ParsedTask := {
  id : string;
  description : string;
  filePath : option string;
  phase : option string;
  dependsOn : option (list string);
  complexity : option PlanTaskComplexity;
  status : PlanTaskStatus;
}.

#[global] Instance ParsedTask_eq_dec : EqDecision ParsedTask.
Proof. solve_decision. Defined.

Definition with_status (t : ParsedTask) (s : PlanTaskStatus) : ParsedTask :=
  {| id := id t; description := description t; filePath := filePath t;
     phase := phase t; dependsOn := dependsOn t; complexity := complexity t;
     status := s |}.

End Task.

Module Plan.

Inductive PlanStatus := pending | generating | generated | approved | rejected.

#[global] Instance PlanStatus_eq_dec : EqDecision PlanStatus.
Proof. solve_decision. Defined.

Record PlanSpec := {
  status : PlanStatus;
  content : option string;
  version : Z;
  generatedAt : option string;
  approvedAt : option string;
  reviewedByUser : bool;
  tasksCompleted : option Z;
  tasksTotal : option Z;
  currentTaskId : option string;
  currentTaskIds : option (list string);
  tasks : option (list Task.ParsedTask);
  taskStateVersion : option Z;
  qualityIssues : option (list string);
}.

(** [nextPlanSpec.taskStateVersion = v]. *)
Definition set_taskStateVersion (p : PlanSpec) (v : option Z) : PlanSpec :=
  {| status := status p; content := content p; version := version p;
     generatedAt := generatedAt p; approvedAt := approvedAt p;
     reviewedByUser := reviewedByUser p; tasksCompleted := tasksCompleted p;
     tasksTotal := tasksTotal p; currentTaskId := currentTaskId p;
     currentTaskIds := currentTaskIds p; tasks := tasks p;
     taskStateVersion := v; qualityIssues := qualityIssues p |}.

Definition set_version (p : PlanSpec) (v : Z) : PlanSpec :=
  {| status := status p; content := content p; version := v;
     generatedAt := generatedAt p; approvedAt := approvedAt p;
     reviewedByUser := reviewedByUser p; tasksCompleted := tasksCompleted p;
     tasksTotal := tasksTotal p; currentTaskId := currentTaskId p;
     currentTaskIds := currentTaskIds p; tasks := tasks p;
     taskStateVersion := taskStateVersion p; qualityIssues := qualityIssues p |}.

(** The literal the two writers install when [feature.planSpec] is missing;
    [updatePlanSpecWithRetry] adds [taskStateVersion: 0] to it. *)
Definition initial (tsv : option Z) : PlanSpec :=
  {| status := pending; content := None; version := 1; generatedAt := None;
     approvedAt := None; reviewedByUser := false; tasksCompleted := None;
     tasksTotal := None; currentTaskId := None; currentTaskIds := None;
     tasks := None; taskStateVersion := tsv; qualityIssues := None |}.

(** [Partial<PlanSpec>] as passed to [updateFeaturePlanSpec]. A key may be
    absent ([None]); a key of an optional field may be present with the value
    [undefined] ([Some None]), which [Object.assign] copies like any other. *)
Record Updates := {
  u_status : option PlanStatus;
  u_content : option (option string);
  u_version : option Z;
  u_generatedAt : option (option string);
  u_approvedAt : option (option string);
  u_reviewedByUser : option bool;
  u_tasksCompleted : option (option Z);
  u_tasksTotal : option (option Z);
  u_currentTaskId : option (option string);
  u_currentTaskIds : option (option (list string));
  u_tasks : option (option (list Task.ParsedTask));
  u_taskStateVersion : option (option Z);
  u_qualityIssues : option (option (list string));
}.

Definition no_updates : Updates :=
  {| u_status := None; u_content := None; u_version := None;
     u_generatedAt := None; u_approvedAt := None; u_reviewedByUser := None;
     u_tasksCompleted := None; u_tasksTotal := None; u_currentTaskId := None;
     u_currentTaskIds := None; u_tasks := None; u_taskStateVersion := None;
     u_qualityIssues := None |}.

(** [Object.assign(planSpec, updates)]. *)
Definition assign (p : PlanSpec) (u : Updates) : PlanSpec :=
  {| status := default (status p) (u_status u);
     content := default (content p) (u_content u);
     version := default (version p) (u_version u);
     generatedAt := default (generatedAt p) (u_generatedAt u);
     approvedAt := default (approvedAt p) (u_approvedAt u);
     reviewedByUser := default (reviewedByUser p) (u_reviewedByUser u);
     tasksCompleted := default (tasksCompleted p) (u_tasksCompleted u);
     tasksTotal := default (tasksTotal p) (u_tasksTotal u);
     currentTaskId := default (currentTaskId p) (u_currentTaskId u);
     currentTaskIds := default (currentTaskIds p) (u_currentTaskIds u);
     tasks := default (tasks p) (u_tasks u);
     taskStateVersion := default (taskStateVersion p) (u_taskStateVersion u);
     qualityIssues := default (qualityIssues p) (u_qualityIssues u) |}.

(** [updates.k !== undefined]. *)
Definition defined {A} (o : option (option A)) : bool :=
  match o with Some (Some _) => true | _ => false end.

End Plan.

(** * The feature files and the two plan-spec writers *)
Module Store.

(** The part of [feature.json] the orchestrator reads and writes. *)
Record Feature := {
  id : string;
  status : string;
  skipTests : bool;
  branchName : option string;
  planSpec : option Plan.PlanSpec;
  updatedAt : option string;
  justFinishedAt : option string;
}.

Definition with_planSpec (f : Feature) (p : Plan.PlanSpec) (now : string) : Feature :=
  {| id := id f; status := status f; skipTests := skipTests f;
     branchName := branchName f; planSpec := Some p; updatedAt := Some now;
     justFinishedAt := justFinishedAt f |}.

(** The parsed content of every [feature.json], keyed by project path and
    feature id. A missing key is a file that cannot be read or parsed. *)
Abbreviation Files := (gmap (string * string) Feature).

Definition loadFeature (fs : Files) (projectPath featureId : string) : option Feature :=
  fs !! (projectPath, featureId).

(** [updateFeatureStatus]: a failed read is swallowed. *)
Definition updateFeatureStatus (fs : Files) (projectPath featureId : string)
    (st : string) (now : string) : Files :=
  match fs !! (projectPath, featureId) with
  | None => fs
  | Some f =>
      <[(projectPath, featureId) :=
          {| id := id f; status := st; skipTests := skipTests f;
             branchName := branchName f; planSpec := planSpec f;
             updatedAt := Some now;
             justFinishedAt :=
               if decide (st = "waiting_approval") then Some now else None |}]> fs
  end.

(** [x || 0] on an optional counter. *)
Definition or0 (v : option Z) : Z := default 0%Z v.

(** [updateFeaturePlanSpec]. The content comparison reads the plan spec after
    [Object.assign] has run. *)
Definition updateFeaturePlanSpec (fs : Files) (projectPath featureId : string)
    (updates : Plan.Updates) (now : string) : Files :=
  match fs !! (projectPath, featureId) with
  | None => fs
  | Some f =>
      let p0 := default (Plan.initial None) (planSpec f) in
      let p1 := match Plan.taskStateVersion p0 with
                | None => Plan.set_taskStateVersion p0 (Some 0%Z)
                | Some _ => p0
                end in
      let p2 := Plan.assign p1 updates in
      let p3 := match Plan.u_content updates with
                | Some (Some c) =>
                    if truthy c && negb (bool_decide (Some c = Plan.content p2))
                    then Plan.set_version p2 (Plan.version p2 + 1)%Z
                    else p2
                | _ => p2
                end in
      let p4 := if Plan.defined (Plan.u_tasks updates)
                   || Plan.defined (Plan.u_currentTaskId updates)
                   || Plan.defined (Plan.u_currentTaskIds updates)
                   || Plan.defined (Plan.u_tasksCompleted updates)
                   || Plan.defined (Plan.u_tasksTotal updates)
                then Plan.set_taskStateVersion p3
                       (Some (or0 (Plan.taskStateVersion p3) + 1)%Z)
                else p3 in
      <[(projectPath, featureId) := with_planSpec f p4 now]> fs
  end.

(** ** [updatePlanSpecWithRetry]

    Every [await] of the helper is a point where other writers of the same
    file may run. [World] gives, for attempt [a], what they do to the store
    before the read ([before_read a]), between the read and the write
    ([before_write a]) and between the write and the verifying read
    ([before_verify a]), and whether [writeFile] succeeds. *)
Record World := {
  before_read : nat -> Files -> Files;
  before_write : nat -> Files -> Files;
  before_verify : nat -> Files -> Files;
  write_ok : nat -> bool;
}.

(** No other writer, a disk that accepts every write. *)
Definition quiet : World :=
  {| before_read := fun _ fs => fs; before_write := fun _ fs => fs;
     before_verify := fun _ fs => fs; write_ok := fun _ => true |}.

(** One pass through the body of the [for] loop. *)
Inductive AttemptResult :=
| Returned (nextPlanSpec : Plan.PlanSpec) (currentTaskVersion : Z) (fs : Files)
| Retry (fs : Files).

Section Retry.
Variable w : World.
(** The callback; [None] is a callback that throws. *)
Variable updater : Plan.PlanSpec -> option Plan.PlanSpec.
Variables projectPath featureId now : string.

Definition attempt_body (attempt : nat) (fs : Files) : AttemptResult :=
  let fs1 := before_read w attempt fs in
  match fs1 !! (projectPath, featureId) with
  | None => Retry fs1
  | Some feature =>
      let planSpec0 := default (Plan.initial (Some 0%Z)) (planSpec feature) in
      let currentTaskVersion := or0 (Plan.taskStateVersion planSpec0) in
      match updater planSpec0 with
      | None => Retry fs1
      | Some updated =>
          let nextPlanSpec :=
            Plan.set_taskStateVersion updated (Some (currentTaskVersion + 1)%Z) in
          let fs2 := before_write w attempt fs1 in
          if write_ok w attempt then
            let fs3 := <[(projectPath, featureId) :=
                           with_planSpec feature nextPlanSpec now]> fs2 in
            let fs4 := before_verify w attempt fs3 in
            match fs4 !! (projectPath, featureId) with
            | None => Retry fs4
            | Some verified =>
                if decide ((p ← planSpec verified; Plan.taskStateVersion p)
                           = Some (currentTaskVersion + 1)%Z)
                then Returned nextPlanSpec currentTaskVersion fs4
                else Retry fs4
            end
          else Retry fs2
      end
  end.

(** [for (let attempt = 0; attempt < maxRetries; attempt++)], with [left]
    = [maxRetries - attempt]. Running out of attempts returns [null]. *)
Fixpoint retry_loop (left attempt : nat) (fs : Files)
    : option (Plan.PlanSpec * Z) * Files :=
  match left with
  | O => (None, fs)
  | S left' =>
      match attempt_body attempt fs with
      | Returned p v fs' => (Some (p, v), fs')
      | Retry fs' => retry_loop left' (S attempt) fs'
      end
  end.

Definition updatePlanSpecWithRetry (maxRetries : nat) (fs : Files)
    : option Plan.PlanSpec * Files :=
  let '(r, fs') := retry_loop maxRetries 0 fs in (fst <$> r, fs').

End Retry.

(** The stored counter of a feature, read the way the helper reads it. *)
Definition stored_version (fs : Files) (projectPath featureId : string) : Z :=
  or0 (f ← fs !! (projectPath, featureId); p ← planSpec f; Plan.taskStateVersion p).

(** A run of helper calls one after the other, each with its own callback,
    with no other writer: the stored counter after every call that returned a
    plan spec. *)
Fixpoint sequential_updates (projectPath featureId now : string)
    (updaters : list (Plan.PlanSpec -> option Plan.PlanSpec)) (fs : Files) : list Z :=
  match updaters with
  | [] => []
  | u :: rest =>
      let '(r, fs') := updatePlanSpecWithRetry quiet u projectPath featureId now 5 fs in
      match r with
      | Some _ => stored_version fs' projectPath featureId
                    :: sequential_updates projectPath featureId now rest fs'
      | None => sequential_updates projectPath featureId now rest fs'
      end
  end.

End Store.

(** * The service: registries, circuit breaker, approvals, feature execution *)
Module Service.

Record RunningFeature := {
  featureId : string;
  projectPath : string;
  worktreePath : option string;
  branchName : option string;
  (** the [AbortController] object, by identity *)
  abortController : nat;
  isAutoMode : bool;
  startTime : Z;
  model : option string;
  provider : option string;
  metricsRunId : option string;
}.

(** The promise returned by [waitForPlanApproval]. *)
Inductive Approval :=
| Waiting
| Answered (approved : bool) (editedPlan feedback : option string)
| Failed (message : string).

(** A table entry: [resolve] and [reject] settle promise [promise] and clear
    its timeout. *)
Record PendingApproval := {
  promise : nat;
  pa_featureId : string;
  pa_projectPath : string;
}.

Record FailureRecord := { timestamp : Z; error : string }.

(** What [classifyError] returns, as far as the service reads it. *)
Record ErrorInfo := {
  type : string;
  message : string;
  isAbort : bool;
  isCancellation : bool;
}.

Record AutoModeConfig := {
  maxConcurrency : Z;
  useWorktrees : bool;
  cfg_projectPath : string;
}.

(** The events the modelled methods emit. Interpolated message texts are
    represented by the values they are built from. *)
Inductive Event :=
| auto_mode_paused_failures (failureCount : nat) (errorType originalError : string)
    (cfgProjectPath : option string)
| auto_mode_stopped (cfgProjectPath : option string)
| auto_mode_feature_start (fid : string)
| auto_mode_quality_metrics (fid : string) (passed : bool) (attempt : nat)
    (checks : list QualityGate.QualityGateResult)
| auto_mode_feature_complete (fid : string) (passes : bool) (note : string)
| auto_mode_error (fid : string) (err errorType : string)
| plan_rejected (fid path : string) (feedback : option string).

(** An [executeFeature] started by the service itself and not awaited. *)
Record Launch := {
  l_projectPath : string;
  l_featureId : string;
  l_useWorktrees : bool;
  l_isAutoMode : bool;
  l_continuationPrompt : option string;
}.

Record State := {
  runningFeatures : gmap string RunningFeature;
  pendingApprovals : gmap string PendingApproval;
  consecutiveFailures : list FailureRecord;
  pausedDueToFailures : bool;
  autoLoopRunning : bool;
  autoLoopAbortController : option nat;
  config : option AutoModeConfig;
  (** every promise made by [waitForPlanApproval], by identity *)
  approvals : list Approval;
  (** armed approval timeouts: promise identity to feature id *)
  timers : gmap nat string;
  (** [AbortController]s created so far, and those aborted *)
  controllers : nat;
  abortedControllers : gset nat;
  files : Store.Files;
  events : list Event;
  launches : list Launch;
}.

Definition empty_state : State :=
  {| runningFeatures := ∅; pendingApprovals := ∅; consecutiveFailures := [];
     pausedDueToFailures := false; autoLoopRunning := false;
     autoLoopAbortController := None; config := None; approvals := [];
     timers := ∅; controllers := 0; abortedControllers := ∅; files := ∅;
     events := []; launches := [] |}.

Definition set_runningFeatures (s : State) (m : gmap string RunningFeature) : State :=
  {| runningFeatures := m; pendingApprovals := pendingApprovals s;
     consecutiveFailures := consecutiveFailures s;
     pausedDueToFailures := pausedDueToFailures s;
     autoLoopRunning := autoLoopRunning s;
     autoLoopAbortController := autoLoopAbortController s; config := config s;
     approvals := approvals s; timers := timers s; controllers := controllers s;
     abortedControllers := abortedControllers s; files := files s;
     events := events s; launches := launches s |}.

Definition set_files (s : State) (fs : Store.Files) : State :=
  {| runningFeatures := runningFeatures s; pendingApprovals := pendingApprovals s;
     consecutiveFailures := consecutiveFailures s;
     pausedDueToFailures := pausedDueToFailures s;
     autoLoopRunning := autoLoopRunning s;
     autoLoopAbortController := autoLoopAbortController s; config := config s;
     approvals := approvals s; timers := timers s; controllers := controllers s;
     abortedControllers := abortedControllers s; files := fs;
     events := events s; launches := launches s |}.

Definition emit (s : State) (e : Event) : State :=
  {| runningFeatures := runningFeatures s; pendingApprovals := pendingApprovals s;
     consecutiveFailures := consecutiveFailures s;
     pausedDueToFailures := pausedDueToFailures s;
     autoLoopRunning := autoLoopRunning s;
     autoLoopAbortController := autoLoopAbortController s; config := config s;
     approvals := approvals s; timers := timers s; controllers := controllers s;
     abortedControllers := abortedControllers s; files := files s;
     events := events s ++ [e]; launches := launches s |}.

Definition set_consecutiveFailures (s : State) (l : list FailureRecord) : State :=
  {| runningFeatures := runningFeatures s; pendingApprovals := pendingApprovals s;
     consecutiveFailures := l;
     pausedDueToFailures := pausedDueToFailures s;
     autoLoopRunning := autoLoopRunning s;
     autoLoopAbortController := autoLoopAbortController s; config := config s;
     approvals := approvals s; timers := timers s; controllers := controllers s;
     abortedControllers := abortedControllers s; files := files s;
     events := events s; launches := launches s |}.

Definition set_pausedDueToFailures (s : State) (b : bool) : State :=
  {| runningFeatures := runningFeatures s; pendingApprovals := pendingApprovals s;
     consecutiveFailures := consecutiveFailures s;
     pausedDueToFailures := b;
     autoLoopRunning := autoLoopRunning s;
     autoLoopAbortController := autoLoopAbortController s; config := config s;
     approvals := approvals s; timers := timers s; controllers := controllers s;
     abortedControllers := abortedControllers s; files := files s;
     events := events s; launches := launches s |}.

Definition abort (s : State) (c : nat) : State :=
  {| runningFeatures := runningFeatures s; pendingApprovals := pendingApprovals s;
     consecutiveFailures := consecutiveFailures s;
     pausedDueToFailures := pausedDueToFailures s;
     autoLoopRunning := autoLoopRunning s;
     autoLoopAbortController := autoLoopAbortController s; config := config s;
     approvals := approvals s; timers := timers s; controllers := controllers s;
     abortedControllers := {[c]} ∪ abortedControllers s; files := files s;
     events := events s; launches := launches s |}.

(** [new AbortController()]: the next fresh identity. *)
Definition new_controller (s : State) : nat * State :=
  (controllers s,
   {| runningFeatures := runningFeatures s; pendingApprovals := pendingApprovals s;
      consecutiveFailures := consecutiveFailures s;
      pausedDueToFailures := pausedDueToFailures s;
      autoLoopRunning := autoLoopRunning s;
      autoLoopAbortController := autoLoopAbortController s; config := config s;
      approvals := approvals s; timers := timers s; controllers := S (controllers s);
      abortedControllers := abortedControllers s; files := files s;
      events := events s; launches := launches s |}).

Definition set_approvals (s : State) (m : gmap string PendingApproval)
    (ps : list Approval) (ts : gmap nat string) : State :=
  {| runningFeatures := runningFeatures s; pendingApprovals := m;
     consecutiveFailures := consecutiveFailures s;
     pausedDueToFailures := pausedDueToFailures s;
     autoLoopRunning := autoLoopRunning s;
     autoLoopAbortController := autoLoopAbortController s; config := config s;
     approvals := ps; timers := ts; controllers := controllers s;
     abortedControllers := abortedControllers s; files := files s;
     events := events s; launches := launches s |}.

Definition add_launch (s : State) (l : Launch) : State :=
  {| runningFeatures := runningFeatures s; pendingApprovals := pendingApprovals s;
     consecutiveFailures := consecutiveFailures s;
     pausedDueToFailures := pausedDueToFailures s;
     autoLoopRunning := autoLoopRunning s;
     autoLoopAbortController := autoLoopAbortController s; config := config s;
     approvals := approvals s; timers := timers s; controllers := controllers s;
     abortedControllers := abortedControllers s; files := files s;
     events := events s; launches := launches s ++ [l] |}.

Definition set_autoLoop (s : State) (running : bool) (c : option nat) : State :=
  {| runningFeatures := runningFeatures s; pendingApprovals := pendingApprovals s;
     consecutiveFailures := consecutiveFailures s;
     pausedDueToFailures := pausedDueToFailures s;
     autoLoopRunning := running;
     autoLoopAbortController := c; config := config s;
     approvals := approvals s; timers := timers s; controllers := controllers s;
     abortedControllers := abortedControllers s; files := files s;
     events := events s; launches := launches s |}.

(** ** Failure circuit breaker *)

Definition CONSECUTIVE_FAILURE_THRESHOLD : nat := 3.
Definition FAILURE_WINDOW_MS : Z := 60000.

Definition in_window (now : Z) (f : FailureRecord) : bool :=
  bool_decide (now - timestamp f < FAILURE_WINDOW_MS)%Z.

(** [trackFailureAndCheckPause({type, message})] at time [now]. *)
Definition trackFailureAndCheckPause (now : Z) (ty msg : string) (s : State)
    : bool * State :=
  let pushed := consecutiveFailures s ++ [{| timestamp := now; error := msg |}] in
  let kept := List.filter (in_window now) pushed in
  let s' := set_consecutiveFailures s kept in
  if bool_decide (CONSECUTIVE_FAILURE_THRESHOLD ≤ length kept)%nat then (true, s')
  else if bool_decide (ty = "quota_exhausted") || bool_decide (ty = "rate_limit")
  then (true, s')
  else (false, s').

(** [stopAutoLoop]; the execution-state file it unlinks is not modelled. The
    result is [runningFeatures.size]. *)
Definition stopAutoLoop (s : State) : nat * State :=
  let wasRunning := autoLoopRunning s in
  let projectPath := cfg_projectPath <$> config s in
  let s1 := match autoLoopAbortController s with
            | Some c => set_autoLoop (abort s c) false None
            | None => set_autoLoop s false None
            end in
  let s2 := if wasRunning then emit s1 (auto_mode_stopped projectPath) else s1 in
  (size (runningFeatures s2), s2).

Definition signalShouldPause (ty msg : string) (s : State) : State :=
  if pausedDueToFailures s then s
  else
    let s1 := set_pausedDueToFailures s true in
    let failureCount := length (consecutiveFailures s1) in
    let s2 := emit s1 (auto_mode_paused_failures failureCount ty msg
                         (cfg_projectPath <$> config s1)) in
    snd (stopAutoLoop s2).

Definition resetFailureTracking (s : State) : State :=
  set_pausedDueToFailures (set_consecutiveFailures s []) false.

Definition recordSuccess (s : State) : State :=
  set_consecutiveFailures s [].

(** What every failure path of a feature run does with its error:
    [trackFailureAndCheckPause] and, when it answers true,
    [signalShouldPause]. *)
Definition reportFailure (now : Z) (ty msg : string) (s : State) : State :=
  let '(shouldPause, s1) := trackFailureAndCheckPause now ty msg s in
  if shouldPause then signalShouldPause ty msg s1 else s1.

(** One completed or failed feature run, as the breaker sees it. *)
Inductive RunResult :=
| Success
| Failure (now : Z) (ty msg : string).

Definition observe (s : State) (r : RunResult) : State :=
  match r with
  | Success => recordSuccess s
  | Failure now ty msg => reportFailure now ty msg s
  end.

Definition is_paused_event (e : Event) : bool :=
  match e with auto_mode_paused_failures _ _ _ _ => true | _ => false end.

(** ** Plan approval table *)

(** A promise settles once. *)
Definition settle (ps : list Approval) (p : nat) (v : Approval) : list Approval :=
  match ps !! p with
  | Some Waiting => <[p := v]> ps
  | _ => ps
  end.

(** [waitForPlanApproval]: the executor of the new promise arms the timeout
    and stores the entry. The result is the promise. *)
Definition waitForPlanApproval (s : State) (fid path : string) : nat * State :=
  let p := length (approvals s) in
  (p, set_approvals s
        (<[fid := {| promise := p; pa_featureId := fid; pa_projectPath := path |}]>
           (pendingApprovals s))
        (approvals s ++ [Waiting])
        (<[p := fid]> (timers s))).

(** The timeout callback of promise [p], 30 minutes after it was armed. *)
Definition approvalTimeout (s : State) (p : nat) : State :=
  match timers s !! p with
  | None => s
  | Some fid =>
      match pendingApprovals s !! fid with
      | Some _ =>
          set_approvals s (delete fid (pendingApprovals s))
            (settle (approvals s) p
               (Failed "Plan approval timed out after 30 minutes - feature execution cancelled"))
            (delete p (timers s))
      | None => set_approvals s (pendingApprovals s) (approvals s) (delete p (timers s))
      end
  end.

(** [cancelPlanApproval]. *)
Definition cancelPlanApproval (s : State) (fid : string) : State :=
  match pendingApprovals s !! fid with
  | Some pending =>
      set_approvals s (delete fid (pendingApprovals s))
        (settle (approvals s) (promise pending)
           (Failed "Plan approval cancelled - feature was stopped"))
        (delete (promise pending) (timers s))
  | None => s
  end.

Definition hasPendingApproval (s : State) (fid : string) : bool :=
  bool_decide (is_Some (pendingApprovals s !! fid)).

(** ** Feature execution *)

(** [stopFeature]. *)
Definition stopFeature (s : State) (fid : string) : bool * State :=
  match runningFeatures s !! fid with
  | None => (false, s)
  | Some running =>
      let s1 := cancelPlanApproval s fid in
      let s2 := abort s1 (abortController running) in
      (true, set_runningFeatures s2 (delete fid (runningFeatures s2)))
  end.

(** The synchronous start of [executeFeature], up to its first [await]: the
    guard, the new [AbortController] and the registration. [inl] is the
    thrown error. *)
Definition executeFeature_enter (s : State) (path fid : string)
    (autoMode : bool) (now : Z) : string + State :=
  if bool_decide (is_Some (runningFeatures s !! fid)) then inl "already running"
  else
    let '(c, s1) := new_controller s in
    let tempRunningFeature :=
      {| featureId := fid; projectPath := path; worktreePath := None;
         branchName := None; abortController := c; isAutoMode := autoMode;
         startTime := now; model := None; provider := None;
         metricsRunId := None |} in
    inr (set_runningFeatures s1 (<[fid := tempRunningFeature]> (runningFeatures s1))).

(** The [finally] block of [executeFeature]. *)
Definition executeFeature_finally (s : State) (fid : string) : State :=
  set_runningFeatures s (delete fid (runningFeatures s)).

(** [this.executeFeature(...).catch(log)] without [await]: the synchronous
    start runs at once; a rejection is only logged. *)
Definition launch_executeFeature (s : State) (path fid : string)
    (worktrees autoMode : bool) (prompt : option string) (now : Z) : State :=
  match executeFeature_enter s path fid autoMode now with
  | inl _ => s
  | inr s1 =>
      add_launch s1 {| l_projectPath := path; l_featureId := fid;
                       l_useWorktrees := worktrees; l_isAutoMode := autoMode;
                       l_continuationPrompt := prompt |}
  end.

(** The registrations of the two other entry points, which call
    [runningFeatures.set] after their own awaits. *)
Definition followUpFeature_register (s : State) (path fid : string)
    (wt : option string) (branch : string) (m p : string) (now : Z) : State :=
  let '(c, s1) := new_controller s in
  set_runningFeatures s1
    (<[fid := {| featureId := fid; projectPath := path; worktreePath := wt;
                 branchName := Some branch; abortController := c;
                 isAutoMode := false; startTime := now; model := Some m;
                 provider := Some p; metricsRunId := None |}]> (runningFeatures s1)).

Definition resumeFromPipelineStep_register (s : State) (path fid : string)
    (branch : option string) (now : Z) : State :=
  let '(c, s1) := new_controller s in
  set_runningFeatures s1
    (<[fid := {| featureId := fid; projectPath := path; worktreePath := None;
                 branchName := branch; abortController := c;
                 isAutoMode := false; startTime := now; model := None;
                 provider := None; metricsRunId := None |}]> (runningFeatures s1)).

Inductive Verdict := verdict_pass | verdict_revise | verdict_fail.

#[global] Instance Verdict_eq_dec : EqDecision Verdict.
Proof. solve_decision. Defined.

(** What the awaited collaborators of one [executeFeature] call do. A value
    [Some e] or [inl e] is a call that throws; [e] is the error as
    [classifyError] reads it. *)
Record Env := {
  (** line 866: [validateWorkingDirectory(projectPath)] *)
  validate : option ErrorInfo;
  contextExists : bool;
  (** lines 898-920: worktree lookup and validation of the work directory *)
  setup : option ErrorInfo;
  (** lines 929-1113: prompt building, the agent run, the pipeline steps *)
  implementation : option ErrorInfo;
  (** the shell during the quality run of attempt [k] *)
  shell : nat -> string -> QualityGate.ExecOutcome;
  (** [runRevision] for quality fix [k] and for judge revision [k] *)
  qualityFix : nat -> option ErrorInfo;
  judgeFix : nat -> option ErrorInfo;
  (** [runJudgeEvaluation], call number [k] *)
  judge : nat -> ErrorInfo + Verdict;
  (** [classifyError] on an [Error] the service throws itself *)
  classifyError : string -> ErrorInfo;
  (** [Date.now()] and [new Date().toISOString()] at the end of the run *)
  clock : Z;
  stamp : string;
}.

Definition MAX_QUALITY_FIX_ATTEMPTS : nat := 2.
Definition MAX_JUDGE_REVISIONS : nat := 2.

Definition skippedChecks : list QualityGate.QualityGateResult :=
  [ QualityGate.Build_QualityGateResult "Lint" QualityGate.skipped None;
    QualityGate.Build_QualityGateResult "Type check" QualityGate.skipped None;
    QualityGate.Build_QualityGateResult "Tests" QualityGate.skipped None;
    QualityGate.Build_QualityGateResult "Build" QualityGate.skipped None ].

(** [runQualityChecks] with the event it emits before returning. *)
Definition runQualityChecks (env : Env) (fid : string) (attempt : nat) (s : State)
    : QualityGate.QualityCheckOutcome * State :=
  let out := QualityGate.runQualityChecks (shell env attempt) in
  (out, emit s (auto_mode_quality_metrics fid (QualityGate.passed out) attempt
                  (QualityGate.results out))).

(** [while (!qualityPassed && qualityFixes < MAX_QUALITY_FIX_ATTEMPTS)], with
    [left] = the bound minus [qualityFixes]. *)
Fixpoint quality_fix_loop (env : Env) (fid : string) (left qualityFixes : nat)
    (out : QualityGate.QualityCheckOutcome) (s : State)
    : (ErrorInfo + QualityGate.QualityCheckOutcome) * State :=
  if QualityGate.passed out then (inr out, s)
  else
    match left with
    | O => (inr out, s)
    | S left' =>
        match qualityFix env qualityFixes with
        | Some e => (inl e, s)
        | None =>
            let '(out', s') := runQualityChecks env fid (S qualityFixes) s in
            quality_fix_loop env fid left' (S qualityFixes) out' s'
        end
    end.

(** [while (!judgePassed && judgeRevisions < MAX_JUDGE_REVISIONS)]. *)
Fixpoint judge_loop (env : Env) (left judgeRevisions : nat) (v : Verdict)
    : ErrorInfo + Verdict :=
  if bool_decide (v = verdict_pass) then inr v
  else
    match left with
    | O => inr v
    | S left' =>
        match judgeFix env judgeRevisions with
        | Some e => inl e
        | None =>
            match judge env (S judgeRevisions) with
            | inl e => inl e
            | inr v' => judge_loop env left' (S judgeRevisions) v'
            end
        end
    end.

(** The values of the locals of [executeFeature] when it fixes the final
    status. *)
Record Completion := {
  qualityOutcome : QualityGate.QualityCheckOutcome;
  judgeResult : option Verdict;
  qualityPassed : bool;
  judgePassed : bool;
  passedGates : bool;
  finalStatus : string;
}.

Inductive BodyResult :=
| body_resumed
| body_completed (c : Completion)
| body_threw (e : ErrorInfo).

(** The quality gate phase: skipped for [skipTests], else a first run and the
    fix loop. *)
Definition quality_phase (env : Env) (fid : string) (skip : bool) (s : State)
    : (ErrorInfo + QualityGate.QualityCheckOutcome) * State :=
  if skip then
    (inr {| QualityGate.passed := true; QualityGate.results := skippedChecks;
            QualityGate.executed := [] |},
     emit s (auto_mode_quality_metrics fid true 0 skippedChecks))
  else
    let '(out0, s1) := runQualityChecks env fid 0 s in
    quality_fix_loop env fid MAX_QUALITY_FIX_ATTEMPTS 0 out0 s1.

(** The judge phase; [None] when the judge did not run. *)
Definition judge_phase (env : Env) (qPassed : bool) : ErrorInfo + option Verdict :=
  if qPassed then
    match judge env 0 with
    | inl e => inl e
    | inr v =>
        match judge_loop env MAX_JUDGE_REVISIONS 0 v with
        | inl e => inl e
        | inr v' => inr (Some v')
        end
    end
  else inr None.

(** Lines 1246-1328: the final status, the breaker and the completion event. *)
Definition finalize (env : Env) (path fid : string) (skip : bool)
    (out : QualityGate.QualityCheckOutcome) (jr : option Verdict) (s : State)
    : Completion * State :=
  let qPassed := QualityGate.passed out in
  let jPassed := match jr with
                 | None => true
                 | Some v => bool_decide (v = verdict_pass)
                 end in
  let gates := qPassed && jPassed in
  let final := if gates && negb skip then "verified" else "waiting_approval" in
  let s1 := set_files s (Store.updateFeatureStatus (files s) path fid final (stamp env)) in
  let s2 := if gates then recordSuccess s1
            else reportFailure (clock env) "quality_gate" "Quality gates failed" s1 in
  let note := (if bool_decide (final = "verified") then " - auto-verified" else "")
              +:+ (if gates then "" else " - review required") in
  ({| qualityOutcome := out; judgeResult := jr; qualityPassed := qPassed;
      judgePassed := jPassed; passedGates := gates; finalStatus := final |},
   emit s2 (auto_mode_feature_complete fid gates note)).

(** The [try] block of [executeFeature]. *)
Definition executeFeature_try (env : Env) (s : State) (path fid : string)
    (continuationPrompt : option string) : BodyResult * State :=
  match validate env with
  | Some e => (body_threw e, s)
  | None =>
  if negb (truthy (default "" continuationPrompt)) && contextExists env then
    (body_resumed, set_runningFeatures s (delete fid (runningFeatures s)))
  else
    let s1 := emit s (auto_mode_feature_start fid) in
    match Store.loadFeature (files s1) path fid with
    | None => (body_threw (classifyError env ("Feature " +:+ fid +:+ " not found")), s1)
    | Some feature =>
        match setup env with
        | Some e => (body_threw e, s1)
        | None =>
            let s2 := set_files s1
                        (Store.updateFeatureStatus (files s1) path fid "in_progress"
                           (stamp env)) in
            match implementation env with
            | Some e => (body_threw e, s2)
            | None =>
                let skip := Store.skipTests feature in
                match quality_phase env fid skip s2 with
                | (inl e, s3) => (body_threw e, s3)
                | (inr out, s3) =>
                    match judge_phase env (QualityGate.passed out) with
                    | inl e => (body_threw e, s3)
                    | inr jr =>
                        let '(c, s4) := finalize env path fid skip out jr s3 in
                        (body_completed c, s4)
                    end
                end
            end
        end
    end
  end.

(** The [catch] block. *)
Definition executeFeature_catch (env : Env) (s : State) (path fid : string)
    (e : ErrorInfo) : State :=
  if isAbort e then
    emit s (auto_mode_feature_complete fid false "Feature stopped by user")
  else
    let s1 := set_files s
                (Store.updateFeatureStatus (files s) path fid "backlog" (stamp env)) in
    let s2 := emit s1 (auto_mode_error fid (message e) (type e)) in
    reportFailure (clock env) (type e) (message e) s2.

Inductive Outcome :=
| Resumed
| Completed (c : Completion)
| Stopped
| Errored (e : ErrorInfo).

(** One call of [executeFeature] run to its end; [inl] is the error thrown by
    the entry guard. *)
Definition executeFeature (env : Env) (s : State) (path fid : string)
    (autoMode : bool) (continuationPrompt : option string) (now : Z)
    : (string + Outcome) * State :=
  match executeFeature_enter s path fid autoMode now with
  | inl err => (inl err, s)
  | inr s1 =>
      let '(r, s2) := executeFeature_try env s1 path fid continuationPrompt in
      match r with
      | body_resumed => (inr Resumed, executeFeature_finally s2 fid)
      | body_completed c => (inr (Completed c), executeFeature_finally s2 fid)
      | body_threw e =>
          (inr (if isAbort e then Stopped else Errored e),
           executeFeature_finally (executeFeature_catch env s2 path fid e) fid)
      end
  end.

(** ** Resolving a plan approval *)

Record ApprovalResponse := { success : bool; response_error : option string }.

Definition nl : string := String (ascii_of_nat 10) EmptyString.

Definition continuationPromptFor (planContent : string) (feedback : option string)
    : string :=
  "The plan/specification has been approved. "
  +:+ (if truthy (default "" feedback)
       then nl +:+ nl +:+ "User feedback: " +:+ default "" feedback +:+ nl +:+ nl
       else "")
  +:+ "Now proceed with the implementation as specified in the plan:" +:+ nl +:+ nl
  +:+ planContent +:+ nl +:+ nl +:+ "Implement the feature now.".

Definition no_pending (fid : string) : ApprovalResponse :=
  {| success := false;
     response_error := Some ("No pending approval for feature " +:+ fid) |}.

Definition ok_response : ApprovalResponse :=
  {| success := true; response_error := None |}.

(** The recovery branch, entered when the table has no entry for the
    feature: [None] when recovery is not possible. *)
Definition recover (s : State) (fid : string) (approved : bool)
    (editedPlan feedback projectPathFromClient : option string)
    (now : Z) (stamp : string) : option State :=
  path ← projectPathFromClient;
  if truthy path then
    feature ← Store.loadFeature (files s) path fid;
    ps ← Store.planSpec feature;
    if bool_decide (Plan.status ps = Plan.generated) then
      if approved then
        let upd :=
          {| Plan.u_status := Some Plan.approved;
             Plan.u_content := Some (js_or editedPlan (Plan.content ps));
             Plan.u_version := None; Plan.u_generatedAt := None;
             Plan.u_approvedAt := Some (Some stamp);
             Plan.u_reviewedByUser := Some true;
             Plan.u_tasksCompleted := None; Plan.u_tasksTotal := None;
             Plan.u_currentTaskId := None; Plan.u_currentTaskIds := None;
             Plan.u_tasks := None; Plan.u_taskStateVersion := None;
             Plan.u_qualityIssues := None |} in
        let s1 := set_files s (Store.updateFeaturePlanSpec (files s) path fid upd stamp) in
        let planContent := default "" (js_or editedPlan (Plan.content ps)) in
        Some (launch_executeFeature s1 path fid true false
                (Some (continuationPromptFor planContent feedback)) now)
      else
        let upd :=
          {| Plan.u_status := Some Plan.rejected; Plan.u_content := None;
             Plan.u_version := None; Plan.u_generatedAt := None;
             Plan.u_approvedAt := None; Plan.u_reviewedByUser := Some true;
             Plan.u_tasksCompleted := None; Plan.u_tasksTotal := None;
             Plan.u_currentTaskId := None; Plan.u_currentTaskIds := None;
             Plan.u_tasks := None; Plan.u_taskStateVersion := None;
             Plan.u_qualityIssues := None |} in
        let fs1 := Store.updateFeaturePlanSpec (files s) path fid upd stamp in
        let fs2 := Store.updateFeatureStatus fs1 path fid "backlog" stamp in
        Some (emit (set_files s fs2) (plan_rejected fid path feedback))
    else None
  else None.

Definition resolvePlanApproval (s : State) (fid : string) (approved : bool)
    (editedPlan feedback projectPathFromClient : option string)
    (now : Z) (stamp : string) : ApprovalResponse * State :=
  match pendingApprovals s !! fid with
  | None =>
      match recover s fid approved editedPlan feedback projectPathFromClient now stamp with
      | Some s' => (ok_response, s')
      | None => (no_pending fid, s)
      end
  | Some pending =>
      let path := pa_projectPath pending in
      let upd :=
        {| Plan.u_status := Some (if approved then Plan.approved else Plan.rejected);
           Plan.u_content := Some editedPlan;
           Plan.u_version := None; Plan.u_generatedAt := None;
           Plan.u_approvedAt := Some (if approved then Some stamp else None);
           Plan.u_reviewedByUser := Some true;
           Plan.u_tasksCompleted := None; Plan.u_tasksTotal := None;
           Plan.u_currentTaskId := None; Plan.u_currentTaskIds := None;
           Plan.u_tasks := None; Plan.u_taskStateVersion := None;
           Plan.u_qualityIssues := None |} in
      let s1 := set_files s (Store.updateFeaturePlanSpec (files s) path fid upd stamp) in
      let s2 := if negb approved && truthy (default "" feedback)
                then emit s1 (plan_rejected fid path feedback) else s1 in
      (ok_response,
       set_approvals s2 (delete fid (pendingApprovals s2))
         (settle (approvals s2) (promise pending) (Answered approved editedPlan feedback))
         (delete (promise pending) (timers s2)))
  end.

(** ** [verifyFeature]

    The gate runs with no [attempt] option, so its event carries attempt 0;
    the work directory only decides what the shell does. *)
Definition verifyFeature (env : Env) (fid : string) (s : State) : bool * State :=
  let '(qualityOutcome, s1) := runQualityChecks env fid 0 s in
  let allPassed := QualityGate.passed qualityOutcome in
  let failedName :=
    QualityGate.name
      <$> List.find (fun r => bool_decide (QualityGate.status r = QualityGate.fail))
            (QualityGate.results qualityOutcome) in
  let message :=
    if allPassed then "All verification checks passed"
    else "Verification failed: " +:+ default "Unknown" (js_or failedName None) in
  (allPassed, emit s1 (auto_mode_feature_complete fid allPassed message)).

End Service.

(** * Dependency-aware task scheduler ([executeTasksWithDependencies]) *)
Module Scheduler.
Import Task.

(** [taskMap = new Map(tasks.map(t => [t.id, t]))] holds, for every id, the
    last task of the array with that id. A task object is known by its position
    in [tasks]; its status is mutated in place. *)
Fixpoint taskMap_index (tasks : list ParsedTask) (k : string) : option nat :=
  match tasks with
  | [] => None
  | t :: rest =>
      match taskMap_index rest k with
      | Some i => Some (S i)
      | None => if bool_decide (id t = k) then Some 0 else None
      end
  end.

Definition taskMap_get (tasks : list ParsedTask) (k : string) : option ParsedTask :=
  i ← taskMap_index tasks k; tasks !! i.

Definition taskMap_has (tasks : list ParsedTask) (k : string) : bool :=
  bool_decide (is_Some (taskMap_index tasks k)).

(** [task.status = st] on the task at position [i]. *)
Definition set_status (tasks : list ParsedTask) (i : nat) (st : PlanTaskStatus)
    : list ParsedTask :=
  alter (fun t => with_status t st) i tasks.

(** The first [for] loop: a task with a dependency id that is not a key of
    [taskMap] becomes blocked. *)
Definition has_missing (tasks : list ParsedTask) (t : ParsedTask) : bool :=
  match dependsOn t with
  | Some deps =>
      negb (bool_decide (List.filter (fun d => negb (taskMap_has tasks d)) deps = []))
  | None => false
  end.

Definition mark_missing (tasks : list ParsedTask) : list ParsedTask :=
  map (fun t => if has_missing tasks t then with_status t blocked else t) tasks.

Definition isReady (tasks : list ParsedTask) (task : ParsedTask) : bool :=
  bool_decide (status task = pending)
  && forallb (fun depId =>
                match taskMap_get tasks depId with
                | Some d => bool_decide (status d = completed)
                | None => false
                end)
       (default [] (dependsOn task)).

Inductive Event :=
| auto_mode_task_started (taskId : string) (taskIndex : nat)
| auto_mode_task_complete (taskId : string) (tasksCompleted : nat).

(** One call of [scheduleTask], with [tasks] and the keys of [inFlight] as
    they were when it was called. *)
Record Start := {
  start_index : nat;
  tasks_before : list ParsedTask;
  inFlight_before : gset string;
}.

(** The variables of one run. [inFlight] is the key set of the map of
    promises: the result of a promise carries only its task's id. [clock]
    counts the awaits passed; [starts] is a record of the calls of
    [scheduleTask], kept for the proofs. *)
Record Run := {
  tasks : list ParsedTask;
  inFlight : gset string;
  hadFailure : bool;
  clock : nat;
  events : list Event;
  starts : list Start;
}.

(** What the rest of the process does while the scheduler awaits.
    - [aborted k]: the abort signal as read at the loop head at time [k].
    - [lost k]: in-flight promises that settle while the scheduler awaits
      something else at time [k]. Their [finally] callbacks delete their keys,
      and no later [Promise.race] sees them.
    - [winner k], [outcome k]: which in-flight promise [Promise.race] delivers
      at time [k] (a position among the keys) and whether its task completed
      ([true]) or failed. Every in-flight promise settles some time. *)
Record World := {
  aborted : nat -> bool;
  lost : nat -> gset string;
  winner : nat -> nat;
  outcome : nat -> bool;
}.

(** An [await] on something other than the race. *)
Definition await (w : World) (r : Run) : Run :=
  {| tasks := tasks r; inFlight := inFlight r ∖ lost w (clock r);
     hadFailure := hadFailure r; clock := S (clock r); events := events r;
     starts := starts r |}.

(** [scheduleTask(task)] for the task at position [i]; [syncPlanSpec] only
    writes the plan spec file and is an await here. The promise is stored
    under the task's id, then the caller's [await] returns. *)
Definition scheduleTask (w : World) (r : Run) (i : nat) : Run :=
  let r1 := await w
    {| tasks := set_status (tasks r) i in_progress; inFlight := inFlight r;
       hadFailure := hadFailure r; clock := clock r; events := events r;
       starts := starts r ++ [{| start_index := i; tasks_before := tasks r;
                                 inFlight_before := inFlight r |}] |} in
  let tid := default "" (id <$> tasks r1 !! i) in
  await w
    {| tasks := tasks r1; inFlight := {[tid]} ∪ inFlight r1;
       hadFailure := hadFailure r1; clock := clock r1;
       events := events r1
                 ++ [auto_mode_task_started tid (default 0 (taskMap_index (tasks r1) tid))];
       starts := starts r1 |}.

(** The inner [while]: start queued tasks while there was no failure and the
    cap is not reached. The result is what is left of [readyQueue]. *)
Fixpoint fill_loop (w : World) (cap : nat) (readyQueue : list nat) (r : Run)
    : list nat * Run :=
  match readyQueue with
  | [] => ([], r)
  | nextTask :: rest =>
      if negb (hadFailure r) && bool_decide (size (inFlight r) < cap)%nat
      then fill_loop w cap rest (scheduleTask w r nextTask)
      else (readyQueue, r)
  end.

(** The [for] loop that pushes newly ready tasks: [i] is the position of the
    first task of [rest]. *)
Fixpoint refill (all : list ParsedTask) (flying : gset string) (i : nat)
    (rest : list ParsedTask) (readyQueue : list nat) : list nat :=
  match rest with
  | [] => readyQueue
  | task :: rest' =>
      refill all flying (S i) rest'
        (if isReady all task && negb (bool_decide (i ∈ readyQueue))
            && negb (bool_decide (id task ∈ flying))
         then readyQueue ++ [i] else readyQueue)
  end.

Definition count_completed (ts : list ParsedTask) : nat :=
  length (List.filter (fun t => bool_decide (status t = completed)) ts).

(** The result of [Promise.race] at time [clock r]. *)
Definition race (w : World) (r : Run) : string * bool :=
  let keys := elements (inFlight r) in
  (nth (winner w (clock r) mod length keys) keys "", outcome w (clock r)).

(** How the outer [while (true)] is left. *)
Inductive LoopExit :=
| Aborted (r : Run)
| Break (readyQueue : list nat) (r : Run).

(** The outer loop; [fuel] bounds the number of passes. *)
Fixpoint main_loop (w : World) (cap : nat) (fuel : nat) (readyQueue : list nat)
    (r : Run) : option LoopExit :=
  match fuel with
  | O => None
  | S fuel' =>
      if aborted w (clock r) then Some (Aborted r)
      else
        let '(queue1, r1) := fill_loop w cap readyQueue r in
        if bool_decide (size (inFlight r1) = 0)%nat then Some (Break queue1 r1)
        else
          let '(k, ok) := race w r1 in
          let r2 := {| tasks := tasks r1; inFlight := inFlight r1 ∖ {[k]};
                       hadFailure := hadFailure r1; clock := S (clock r1);
                       events := events r1; starts := starts r1 |} in
          match taskMap_index (tasks r2) k with
          | None => main_loop w cap fuel' queue1 r2
          | Some j =>
              let r3 :=
                if ok then
                  let ts := set_status (tasks r2) j completed in
                  {| tasks := ts; inFlight := inFlight r2;
                     hadFailure := hadFailure r2; clock := clock r2;
                     events := events r2
                               ++ [auto_mode_task_complete k (count_completed ts)];
                     starts := starts r2 |}
                else
                  {| tasks := set_status (tasks r2) j failed;
                     inFlight := inFlight r2; hadFailure := true;
                     clock := clock r2; events := events r2;
                     starts := starts r2 |} in
              let r4 := await w r3 in
              let queue2 := if hadFailure r4 then queue1
                            else refill (tasks r4) (inFlight r4) 0 (tasks r4) queue1 in
              main_loop w cap fuel' queue2 r4
          end
  end.

(** [task.status = 'blocked'] for every pending task. *)
Definition block_pending (ts : list ParsedTask) : list ParsedTask :=
  map (fun t => if bool_decide (status t = pending) then with_status t blocked else t) ts.

Definition set_tasks (r : Run) (ts : list ParsedTask) : Run :=
  {| tasks := ts; inFlight := inFlight r; hadFailure := hadFailure r;
     clock := clock r; events := events r; starts := starts r |}.

Definition has_pending (ts : list ParsedTask) : bool :=
  existsb (fun t => bool_decide (status t = pending)) ts.

Definition ABORTED : string := "Feature execution aborted".
Definition TASKS_FAILED : string :=
  "One or more tasks failed during concurrent execution.".
Definition CYCLE_DETECTED : string :=
  "Task dependency cycle detected - pending tasks are blocked.".

(** The code after the loop: the error thrown, if any, and the final run. *)
Definition after_loop (r : Run) : option string * Run :=
  if hadFailure r then (Some TASKS_FAILED, set_tasks r (block_pending (tasks r)))
  else if has_pending (tasks r)
  then (Some CYCLE_DETECTED, set_tasks r (block_pending (tasks r)))
  else (None, r).

Definition DEFAULT_MAX_TASK_CONCURRENCY : Z := 3.
Definition MAX_TASK_CONCURRENCY_CAP : Z := 8.

Definition maxTaskConcurrency (setting : option Z) : nat :=
  Z.to_nat (Z.max 1 (Z.min (default DEFAULT_MAX_TASK_CONCURRENCY setting)
                       MAX_TASK_CONCURRENCY_CAP)).

Definition ready_at (ts : list ParsedTask) (i : nat) : bool :=
  match ts !! i with
  | Some t => isReady ts t
  | None => false
  end.

(** [tasks.filter((task) => isReady(task))], as positions. *)
Definition initial_queue (ts : list ParsedTask) : list nat :=
  List.filter (ready_at ts) (seq 0 (length ts)).

Definition initial_run (ts : list ParsedTask) : Run :=
  {| tasks := mark_missing ts; inFlight := ∅; hadFailure := false; clock := 0;
     events := []; starts := [] |}.

(** [executeTasksWithDependencies]: [None] only when [fuel] runs out. *)
Definition executeTasksWithDependencies (w : World) (setting : option Z)
    (fuel : nat) (ts : list ParsedTask) : option (option string * Run) :=
  let r0 := initial_run ts in
  match main_loop w (maxTaskConcurrency setting) fuel (initial_queue (tasks r0)) r0 with
  | None => None
  | Some (Aborted r) => Some (Some ABORTED, r)
  | Some (Break _ r) => Some (after_loop r)
  end.

End Scheduler.

(** * Plan parser ([parseTasksFromSpec], [parseTaskLine])

    A JS string is a list of code units; the model covers code units below
    256, so [\s], [trim] and [.] are the classes of that range. Each regular
    expression of the source is a function that finds the match the
    backtracking matcher returns. *)
Module Parser.
Import Task.

Abbreviation text := (list ascii).

Definition lit (s : string) : text := list_ascii_of_string s.
Definition str (t : text) : string := string_of_list_ascii t.

Definition code (c : ascii) : nat := nat_of_ascii c.

(** [\s] and the characters [trim] removes: TAB, LF, VT, FF, CR, space, NBSP. *)
Definition is_space (c : ascii) : bool :=
  let n := code c in
  (Nat.leb 9 n && Nat.leb n 13) || Nat.eqb n 32 || Nat.eqb n 160.

(** The characters [.] does not match: LF and CR. *)
Definition is_terminator (c : ascii) : bool :=
  let n := code c in Nat.eqb n 10 || Nat.eqb n 13.

Definition is_digit (c : ascii) : bool :=
  let n := code c in Nat.leb 48 n && Nat.leb n 57.

Definition to_lower (c : ascii) : ascii :=
  let n := code c in
  if Nat.leb 65 n && Nat.leb n 90 then ascii_of_nat (n + 32) else c.

Definition ascii_eqb (a b : ascii) : bool := Ascii.eqb a b.

Fixpoint drop_while (f : ascii -> bool) (s : text) : text :=
  match s with
  | [] => []
  | c :: r => if f c then drop_while f r else s
  end.

Fixpoint take_while (f : ascii -> bool) (s : text) : text :=
  match s with
  | [] => []
  | c :: r => if f c then c :: take_while f r else []
  end.

(** [s.trim()]. *)
Definition trim (s : text) : text :=
  drop_while is_space (rev (drop_while is_space (rev s))).

(** [s.startsWith(p)]; the result is what follows the prefix. *)
Fixpoint strip_prefix (p s : text) : option text :=
  match p, s with
  | [], _ => Some s
  | a :: p', b :: s' => if ascii_eqb a b then strip_prefix p' s' else None
  | _ :: _, [] => None
  end.

(** The same, ignoring the case of ASCII letters (flag [i]). *)
Fixpoint strip_prefix_ci (p s : text) : option text :=
  match p, s with
  | [], _ => Some s
  | a :: p', b :: s' =>
      if ascii_eqb (to_lower a) (to_lower b) then strip_prefix_ci p' s' else None
  | _ :: _, [] => None
  end.

Definition startsWith (p s : text) : bool :=
  match strip_prefix p s with Some _ => true | None => false end.

(** [s.split(sep)] for a one-character separator. *)
Fixpoint split_on (sep : ascii) (s : text) : list text :=
  match s with
  | [] => [[]]
  | c :: r =>
      if ascii_eqb c sep then [] :: split_on sep r
      else match split_on sep r with
           | x :: xs => (c :: x) :: xs
           | [] => [[c]]
           end
  end.

(** What follows the leftmost occurrence of [p] in [s]. *)
Fixpoint after_first (p s : text) : option text :=
  match strip_prefix p s with
  | Some rest => Some rest
  | None => match s with
            | [] => None
            | _ :: r => after_first p r
            end
  end.

(** What precedes the leftmost occurrence of [p] in [s]. *)
Fixpoint before_first (p s : text) : option text :=
  match strip_prefix p s with
  | Some _ => Some []
  | None => match s with
            | [] => None
            | c :: r => cons c <$> before_first p r
            end
  end.

Definition fence : text := lit "```".
Definition tasks_fence : text := lit "```tasks".

(** [specContent.match(/```tasks\s*([\s\S]*?)```/)]: group 1. The greedy
    [\s*] takes all the white space after the opening fence; the lazy group
    ends at the next fence. *)
Definition match_tasks_block (s : text) : option text :=
  rest ← after_first tasks_fence s;
  before_first fence (drop_while is_space rest).

(** [\s*(.+)$] matched at the start of [s], without flag [m]: group 1. The
    group is not empty and holds no line terminator; the greedy [\s*] gives
    back its last character when nothing else is left for the group. *)
Definition ws_then_rest (s : text) : option text :=
  match s with
  | [] => None
  | _ =>
      let k := Nat.min (length (take_while is_space s)) (length s - 1) in
      let g := drop k s in
      if forallb (fun c => negb (is_terminator c)) g then Some g else None
  end.

(** [T\d{3}] and the colon, matched at the start of [s]: the id and what
    follows the colon. *)
Definition task_id_colon (s : text) : option (text * text) :=
  match s with
  | t :: d1 :: d2 :: d3 :: colon :: rest =>
      if ascii_eqb t "T" && is_digit d1 && is_digit d2 && is_digit d3
         && ascii_eqb colon ":"
      then Some ([t; d1; d2; d3], rest) else None
  | _ => None
  end.

Definition task_head (s : text) : option (text * text) :=
  rest ← strip_prefix (lit "- [ ] ") s; task_id_colon rest.

(** [line.match(/- \[ \] (T\d{3}):\s*(.+)$/)]: groups 1 and 2 of the leftmost
    match. *)
Fixpoint match_task_line (s : text) : option (text * text) :=
  let here := '(tid, rest) ← task_head s; g ← ws_then_rest rest; Some (tid, g) in
  match here with
  | Some m => Some m
  | None => match s with
            | [] => None
            | _ :: r => match_task_line r
            end
  end.

(** [part.match(/^Label\s*(.+)$/i)]: group 1. *)
Definition match_field (label : string) (part : text) : option text :=
  rest ← strip_prefix_ci (lit label) part; ws_then_rest rest.

Definition is_bracket (c : ascii) : bool := ascii_eqb c "[" || ascii_eqb c "]".
Definition is_dep_separator (c : ascii) : bool := ascii_eqb c "," || is_space c.

(** [raw.split(/[,\s]+/).map(trim).filter(Boolean)]: the maximal runs of
    characters that are no separators. [cur] is the run being read, reversed. *)
Fixpoint dep_tokens (s : text) (cur : text) : list text :=
  match s with
  | [] => match cur with [] => [] | _ => [rev cur] end
  | c :: r =>
      if is_dep_separator c
      then match cur with
           | [] => dep_tokens r []
           | _ => rev cur :: dep_tokens r []
           end
      else dep_tokens r (c :: cur)
  end.

Definition parse_deps (g : text) : option (list string) :=
  let raw := List.filter (fun c => negb (is_bracket c)) (trim g) in
  match dep_tokens raw [] with
  | [] => None
  | deps => Some (map str deps)
  end.

(** [normalized.startsWith('l')] and so on, on the lower-cased value. *)
Definition parse_complexity (g : text) : option PlanTaskComplexity :=
  match trim g with
  | c :: _ =>
      if ascii_eqb (to_lower c) "l" then Some low
      else if ascii_eqb (to_lower c) "m" then Some medium
      else if ascii_eqb (to_lower c) "h" then Some high
      else None
  | [] => None
  end.

(** The fields read so far by the [for (const part of parts)] loop. *)
Record Fields := {
  f_filePath : option string;
  f_dependsOn : option (list string);
  f_complexity : option PlanTaskComplexity;
}.

Definition read_part (acc : Fields) (part : text) : Fields :=
  match match_field "File:" part with
  | Some g =>
      {| f_filePath := Some (str (trim g)); f_dependsOn := f_dependsOn acc;
         f_complexity := f_complexity acc |}
  | None =>
      match match_field "DependsOn:" part with
      | Some g =>
          {| f_filePath := f_filePath acc; f_dependsOn := parse_deps g;
             f_complexity := f_complexity acc |}
      | None =>
          match match_field "Complexity:" part with
          | Some g =>
              match parse_complexity g with
              | Some c =>
                  {| f_filePath := f_filePath acc; f_dependsOn := f_dependsOn acc;
                     f_complexity := Some c |}
              | None => acc
              end
          | None => acc
          end
      end
  end.

Definition nonempty (t : text) : bool :=
  match t with [] => false | _ => true end.

Definition parseTaskLine (line : text) (currentPhase : option string)
    : option ParsedTask :=
  '(tid, remainder) ← match_task_line line;
  let parts := List.filter nonempty (map trim (split_on "|" remainder)) in
  match parts with
  | [] => None
  | first :: others =>
      let fields := fold_left read_part others
                      {| f_filePath := None; f_dependsOn := None;
                         f_complexity := None |} in
      Some {| id := str tid; description := str (trim first);
              filePath := f_filePath fields; phase := currentPhase;
              dependsOn := f_dependsOn fields; complexity := f_complexity fields;
              status := pending |}
  end.

Definition LF : ascii := "010"%char.

(** [trimmedLine.match(/^##\s*(.+)$/)]: group 1. *)
Definition match_phase_header (trimmedLine : text) : option text :=
  rest ← strip_prefix (lit "##") trimmedLine; ws_then_rest rest.

(** The [for (const line of lines)] loop of the fenced block. *)
Fixpoint parse_lines (lines : list text) (currentPhase : option string)
    : list ParsedTask :=
  match lines with
  | [] => []
  | line :: rest =>
      let trimmedLine := trim line in
      match match_phase_header trimmedLine with
      | Some g => parse_lines rest (Some (str (trim g)))
      | None =>
          if startsWith (lit "- [ ]") trimmedLine then
            match parseTaskLine trimmedLine currentPhase with
            | Some parsed => parsed :: parse_lines rest currentPhase
            | None => parse_lines rest currentPhase
            end
          else parse_lines rest currentPhase
      end
  end.

(** [specContent.match(/- \[ \] T\d{3}:.*$/gm)]: every match runs from a
    task head to the end of its line; the search goes on after the match.
    [skip] counts the characters of the last match still to pass. *)
Fixpoint fallback_lines (s : text) (skip : nat) : list text :=
  match s with
  | [] => []
  | _ :: r =>
      match skip with
      | S k => fallback_lines r k
      | O =>
          match task_head s with
          | Some _ =>
              let line := take_while (fun c => negb (is_terminator c)) s in
              line :: fallback_lines r (length line - 1)
          | None => fallback_lines r 0
          end
      end
  end.

Definition parseTasksFromSpec (specContent : text) : list ParsedTask :=
  match match_tasks_block specContent with
  | None =>
      omap (fun line => parseTaskLine line None) (fallback_lines specContent 0)
  | Some tasksContent => parse_lines (split_on LF tasksContent) None
  end.

(** ** Writing tasks back as task lines *)

Definition complexity_name (c : PlanTaskComplexity) : string :=
  match c with low => "low" | medium => "medium" | high => "high" end.

Fixpoint join_ids (ids : list string) : text :=
  match ids with
  | [] => []
  | [d] => lit d
  | d :: rest => lit d ++ lit ", " ++ join_ids rest
  end.

(** Modelled from the spec: [Label: value], one field of a task line. *)
Definition labelled (label : string) (value : text) : text :=
  lit label ++ " "%char :: value.

(** Modelled from the spec: the fields of the line of a record, the
    description first; a field the record does not have is left out. *)
Definition line_parts (t : ParsedTask) : list text :=
  [lit (description t)]
  ++ match filePath t with
     | Some p => [labelled "File:" (lit p)]
     | None => []
     end
  ++ match dependsOn t with
     | Some ds => [labelled "DependsOn:" (join_ids ds)]
     | None => []
     end
  ++ match complexity t with
     | Some c => [labelled "Complexity:" (lit (complexity_name c))]
     | None => []
     end.

(** Modelled from the spec: the fields joined by [ | ]. *)
Fixpoint join_bar (parts : list text) : text :=
  match parts with
  | [] => []
  | [x] => x
  | x :: rest => x ++ lit " | " ++ join_bar rest
  end.

(** Modelled from the spec: the repository has no function that writes a task
    back as text; this one follows the task block format of the spec,
    [- [ ] T###: <description> | File: <path> | DependsOn: <ids> | Complexity: <low|medium|high>],
    leaving out the fields a record does not have. *)
Definition serialize_line (t : ParsedTask) : text :=
  lit "- [ ] " ++ lit (id t) ++ lit ": " ++ join_bar (line_parts t).

(** Modelled from the spec: a fenced tasks block, one task line per record. *)
Definition serialize_block (ts : list ParsedTask) : text :=
  tasks_fence ++ [LF] ++ concat (map (fun t => serialize_line t ++ [LF]) ts) ++ fence.

(** ** Well-formed task lines *)

(** A field value as it stands between the bars of a task line: not empty,
    no white space at either end, and none of the characters that end a
    field, a line or the block. *)
Definition field_char (c : ascii) : bool :=
  negb (ascii_eqb c "|") && negb (is_terminator c) && negb (ascii_eqb c "`").

(** A character of a line inside a block: no line terminator, no backtick. *)
Definition line_char (c : ascii) : bool :=
  negb (is_terminator c) && negb (ascii_eqb c "`").

(** A part of a line as [split('|')] and [trim] give it back: not empty, no
    bar, no white space at either end. *)
Definition clean_part (x : text) : Prop :=
  x <> [] /\ forallb (fun c => negb (ascii_eqb c "|")) x = true
  /\ (forall c, head x = Some c -> is_space c = false)
  /\ (forall c, last x = Some c -> is_space c = false).

Definition wf_field (s : string) : Prop :=
  let t := lit s in
  t <> [] /\ forallb field_char t = true
  /\ (forall c, head t = Some c -> is_space c = false)
  /\ (forall c, last t = Some c -> is_space c = false).

(** A dependency id: not empty, no separator, bracket or field character. *)
Definition dep_char (c : ascii) : bool :=
  negb (is_dep_separator c) && negb (is_bracket c) && field_char c.

Definition wf_dep (s : string) : Prop :=
  lit s <> [] /\ forallb dep_char (lit s) = true.

Definition wf_id (s : string) : Prop :=
  exists d1 d2 d3, s = str ["T"%char; d1; d2; d3]
    /\ is_digit d1 = true /\ is_digit d2 = true /\ is_digit d3 = true.

(** The record of a well-formed task line
    [- [ ] T###: <description> | File: <path> | DependsOn: <ids> | Complexity: <c>]
    outside any phase group. *)
Definition wf_task (t : ParsedTask) : Prop :=
  wf_id (id t) /\ wf_field (description t)
  /\ (exists p, filePath t = Some p /\ wf_field p)
  /\ (exists ds, dependsOn t = Some ds /\ ds <> [] /\ Forall wf_dep ds)
  /\ (exists c, complexity t = Some c)
  /\ phase t = None /\ status t = pending.

End Parser.

(** * Plan complexity, task refinement and titles *)
Module Planning.
Import Task.

Definition weights (c : PlanTaskComplexity) : nat :=
  match c with low => 1 | medium => 2 | high => 3 end.

(** [weights[task.complexity || 'medium']]. *)
Definition task_weight (task : ParsedTask) : nat :=
  weights (default medium (complexity task)).

(** [tasks.reduce((sum, task) => sum + weights[task.complexity || 'medium'], 0)]. *)
Definition complexity_total (tasks : list ParsedTask) : nat :=
  fold_left (fun sum task => sum + task_weight task) tasks 0.

(** [feature.planSpec?.tasks]. *)
Definition planTasks (feature : Store.Feature) : option (list ParsedTask) :=
  p ← Store.planSpec feature; Plan.tasks p.

(** [getFeatureComplexity]. [average] is the double nearest to
    [total / tasks.length]. An array holds fewer than 2^32 tasks, so a
    quotient above 1.5 or above 2.3 exceeds it by at least 1/(10 * 2^32),
    far more than the spacing 2^-51 of the doubles between 2 and 4: the
    rounded quotient is at most 1.5 exactly when [2 * total <= 3 * length],
    and at most the double nearest to 2.3 exactly when
    [10 * total <= 23 * length]. *)
Definition getFeatureComplexity (feature : Store.Feature) : option PlanTaskComplexity :=
  match planTasks feature with
  | None | Some [] => None
  | Some tasks =>
      let total := complexity_total tasks in
      if Nat.leb (2 * total) (3 * length tasks) then Some low
      else if Nat.leb (10 * total) (23 * length tasks) then Some medium
      else Some high
  end.

Definition MAX_SUBPLANNING_PASSES : nat := 1.
Definition TASK_REFINEMENT_COUNT_THRESHOLD : nat := 8.
Definition TASK_REFINEMENT_SCORE_THRESHOLD : nat := 14.

(** [tasks.filter((task) => task.complexity === 'high').length]. *)
Definition highCount (tasks : list ParsedTask) : nat :=
  length (List.filter (fun task => bool_decide (complexity task = Some high)) tasks).

Definition shouldRefineTasks (tasks : list ParsedTask) (pass : nat) : bool :=
  if Nat.leb MAX_SUBPLANNING_PASSES pass then false
  else Nat.leb TASK_REFINEMENT_COUNT_THRESHOLD (length tasks)
       || Nat.leb TASK_REFINEMENT_SCORE_THRESHOLD (complexity_total tasks)
       || Nat.leb 2 (highCount tasks).

(** The end of [refineTasksWithSubPlanner]: the tasks parsed from the
    response of the sub-planner, or [null] when there are none. *)
Definition refineTasksWithSubPlanner (responseText : Parser.text)
    : option (list ParsedTask) :=
  match Parser.parseTasksFromSpec responseText with
  | [] => None
  | refinedTasks => Some refinedTasks
  end.

(** The update stored after an accepted refinement (lines 4229-4235);
    [currentTaskId] is present with the value [undefined]. *)
Definition refinement_update (tasks : list ParsedTask) : Plan.Updates :=
  {| Plan.u_status := None; Plan.u_content := None; Plan.u_version := None;
     Plan.u_generatedAt := None; Plan.u_approvedAt := None;
     Plan.u_reviewedByUser := None;
     Plan.u_tasksCompleted := Some (Some 0%Z);
     Plan.u_tasksTotal := Some (Some (Z.of_nat (length tasks)));
     Plan.u_currentTaskId := Some None;
     Plan.u_currentTaskIds := Some (Some []);
     Plan.u_tasks := Some (Some tasks);
     Plan.u_taskStateVersion := None; Plan.u_qualityIssues := None |}.

(** The variables of the refinement loop (lines 4195-4236): the task list,
    the pass counter, the feature files, and the pass numbers announced by
    the progress events, one for every call of the sub-planner. *)
Record Refinement := {
  parsedTasks : list ParsedTask;
  refinementPass : nat;
  files : Store.Files;
  announced : list nat;
}.

Inductive LoopEnd :=
| Left            (** the [while] condition failed or a [break] was taken *)
| Threw.          (** the sub-planner threw; the error leaves the loop *)

Section Refine.
(** The response text of the sub-planner when called in pass [k] with the
    given tasks; [None] is a call that throws. *)
Variable subPlanner : nat -> list ParsedTask -> option Parser.text.
Variables projectPath featureId : string.
(** [new Date().toISOString()] inside [updateFeaturePlanSpec], by pass. *)
Variable now : nat -> string.

(** [while (this.shouldRefineTasks(parsedTasks, refinementPass)) ...]. *)
Fixpoint refine_loop (fuel : nat) (st : Refinement) : option (LoopEnd * Refinement) :=
  match fuel with
  | O => None
  | S fuel' =>
      if shouldRefineTasks (parsedTasks st) (refinementPass st) then
        let st1 := {| parsedTasks := parsedTasks st;
                      refinementPass := refinementPass st; files := files st;
                      announced := announced st ++ [refinementPass st + 1] |} in
        match subPlanner (refinementPass st) (parsedTasks st) with
        | None => Some (Threw, st1)
        | Some responseText =>
            match refineTasksWithSubPlanner responseText with
            | None => Some (Left, st1)
            | Some refinedTasks =>
                if Nat.leb (length refinedTasks) (length (parsedTasks st)) then Some (Left, st1)
                else
                  refine_loop fuel'
                    {| parsedTasks := refinedTasks;
                       refinementPass := refinementPass st + 1;
                       files := Store.updateFeaturePlanSpec (files st) projectPath
                                  featureId (refinement_update refinedTasks)
                                  (now (refinementPass st));
                       announced := announced st1 |}
            end
        end
      else Some (Left, st)
  end.

(** [let refinementPass = 0; while ...]. *)
Definition refineTasks (fuel : nat) (tasks : list ParsedTask) (fs : Store.Files)
    : option (LoopEnd * Refinement) :=
  refine_loop fuel {| parsedTasks := tasks; refinementPass := 0; files := fs;
                      announced := [] |}.

End Refine.

(** [extractTitleFromDescription]. *)
Definition extractTitleFromDescription (description : Parser.text) : Parser.text :=
  match Parser.trim description with
  | [] => Parser.lit "Untitled Feature"
  | _ =>
      let firstLine := Parser.trim (hd [] (Parser.split_on Parser.LF description)) in
      if Nat.leb (length firstLine) 60 then firstLine
      else take 57 firstLine ++ Parser.lit "..."
  end.

End Planning.

(** * The metrics store of a project *)
Module Metrics.

Definition MAX_METRICS_HISTORY : nat := 200.
Definition METRICS_STORE_VERSION : Z := 1.

Section Store.
(** [AutoModeFeatureRunMetrics] is declared outside this file; the store
    itself reads only [runId]. *)
Context {Run : Type} (runId : Run -> string).

Record AutoModeMetricsStore := {
  version : Z;
  updatedAt : string;
  runs : list Run;
}.

(** What [JSON.parse] gives for the metrics file: any key may be missing. *)
Record Parsed := {
  p_version : option Z;
  p_updatedAt : option string;
  p_runs : option (list Run);
}.

(** The cache [metricsByProject], the metrics files (a missing key is a file
    that cannot be read or parsed) and the [auto_mode_metrics_updated] events
    with their project path and [latestRun]; the summary of the event is left
    out. *)
Record State := {
  metricsByProject : gmap string AutoModeMetricsStore;
  disk : gmap string Parsed;
  emitted : list (string * option Run);
}.

Definition createDefaultMetricsStore (now : string) : AutoModeMetricsStore :=
  {| version := METRICS_STORE_VERSION; updatedAt := now; runs := [] |}.

Definition set_cache (s : State) (projectPath : string) (store : AutoModeMetricsStore)
    : State :=
  {| metricsByProject := <[projectPath := store]> (metricsByProject s);
     disk := disk s; emitted := emitted s |}.

Definition loadMetricsStore (now projectPath : string) (s : State)
    : AutoModeMetricsStore * State :=
  match metricsByProject s !! projectPath with
  | Some cached => (cached, s)
  | None =>
      let store :=
        match disk s !! projectPath with
        | Some parsed =>
            {| version := default METRICS_STORE_VERSION (p_version parsed);
               updatedAt := default now (p_updatedAt parsed);
               runs := default [] (p_runs parsed) |}
        | None => createDefaultMetricsStore now
        end in
      (store, set_cache s projectPath store)
  end.

(** [runs.slice(-n)]: the last [n] runs. *)
Definition slice_last (n : nat) (l : list Run) : list Run :=
  drop (length l - n) l.

(** The synchronous start of [saveMetricsStore]. *)
Definition stamp_and_trim (now : string) (store : AutoModeMetricsStore)
    : AutoModeMetricsStore :=
  {| version := version store; updatedAt := now;
     runs := if Nat.ltb MAX_METRICS_HISTORY (length (runs store))
             then slice_last MAX_METRICS_HISTORY (runs store)
             else runs store |}.

(** [JSON.stringify(store)] as it is parsed back. *)
Definition written (store : AutoModeMetricsStore) : Parsed :=
  {| p_version := Some (version store); p_updatedAt := Some (updatedAt store);
     p_runs := Some (runs store) |}.

(** [updateMetricsStore] up to the first [await] of [saveMetricsStore]: the
    load, the updater on a copy of the store and of its [runs] array, the new
    stamp and the trimmed history. [on_copy] is what the updater does to the
    copied array; [in_place] is what it does to the run objects, which the
    copy shares with the store that was loaded. *)
Definition prepare (now0 now1 projectPath : string)
    (on_copy in_place : list Run -> list Run) (s : State)
    : AutoModeMetricsStore * State :=
  let '(current, s1) := loadMetricsStore now0 projectPath s in
  let shared := {| version := version current; updatedAt := updatedAt current;
                   runs := in_place (runs current) |} in
  (stamp_and_trim now1
     {| version := version current; updatedAt := updatedAt current;
        runs := on_copy (runs current) |},
   set_cache s1 projectPath shared).

(** [writeFile] has succeeded. *)
Definition write (projectPath : string) (store : AutoModeMetricsStore) (s : State)
    : State :=
  {| metricsByProject := metricsByProject s;
     disk := <[projectPath := written store]> (disk s); emitted := emitted s |}.

(** What follows [await this.saveMetricsStore(...)]: the cache entry and the
    event. *)
Definition finish (projectPath : string) (store : AutoModeMetricsStore) (s : State)
    : State :=
  {| metricsByProject := <[projectPath := store]> (metricsByProject s);
     disk := disk s;
     emitted := emitted s ++ [(projectPath, last (runs store))] |}.

(** One call with nothing else running in between; [None] is a call that
    throws because the file could not be written. *)
Definition updateMetricsStore (now0 now1 : string) (write_ok : bool)
    (projectPath : string) (on_copy in_place : list Run -> list Run) (s : State)
    : option AutoModeMetricsStore * State :=
  let '(updated, s1) := prepare now0 now1 projectPath on_copy in_place s in
  if write_ok then (Some updated, finish projectPath updated (write projectPath updated s1))
  else (None, s1).

(** [startMetricsRun]; [run] is the object literal of lines 640-652, pushed
    on the copied array. *)
Definition startMetricsRun (now0 now1 : string) (write_ok : bool)
    (projectPath : string) (run : Run) (s : State) : option string * State :=
  let '(r, s') := updateMetricsStore now0 now1 write_ok projectPath
                    (fun l => l ++ [run]) (fun l => l) s in
  (match r with Some _ => Some (runId run) | None => None end, s').

(** [store.runs.find((entry) => entry.runId === runId)] followed by
    [updater(run)] on the run found. *)
Fixpoint update_first (rid : string) (updater : Run -> Run) (l : list Run) : list Run :=
  match l with
  | [] => []
  | r :: rest =>
      if decide (runId r = rid) then updater r :: rest
      else r :: update_first rid updater rest
  end.

Definition updateMetricsRun (now0 now1 : string) (write_ok : bool)
    (projectPath rid : string) (updater : Run -> Run) (s : State)
    : option unit * State :=
  let '(r, s') := updateMetricsStore now0 now1 write_ok projectPath
                    (update_first rid updater) (update_first rid updater) s in
  (match r with Some _ => Some tt | None => None end, s').

End Store.

Arguments AutoModeMetricsStore Run : clear implicits.
Arguments Parsed Run : clear implicits.
Arguments State Run : clear implicits.

End Metrics.

(** * The auto loop ([runAutoLoop]) *)
Module AutoLoop.
Import Service.

(** How one pass through the body of the [while] loop ends. The
    [auto_mode_idle] event of the idle branch is not among [Service.Event];
    the turn [Idle] stands for it. *)
Inductive Turn :=
| AtCapacity                (** [sleep(5000)], nothing loaded *)
| Idle                      (** no pending feature: the idle event, [sleep(10000)] *)
| Started (fid : string)    (** [executeFeature] launched, [sleep(2000)] *)
| NothingNew                (** every pending feature is running, [sleep(2000)] *)
| Caught.                   (** the [catch] of the iteration, [sleep(5000)] *)

(** What surrounds one pass: the ids [loadPendingFeatures] resolves with (it
    never throws), what the rest of the program does to the service while the
    loop awaits that call and while it sleeps, and [Date.now()] at the
    launch. *)
Record World := {
  pendingFeatures : list string;
  during_load : State -> State;
  during_sleep : State -> State;
  now : Z;
}.

(** [this.config?.maxConcurrency || 3]. *)
Definition capacity (s : State) : Z :=
  match config s with
  | Some c => if bool_decide (maxConcurrency c = 0%Z) then 3%Z else maxConcurrency c
  | None => 3%Z
  end.

(** The [try] block of one pass. [this.config!] on a missing config throws
    and the [catch] of the pass takes over. *)
Definition loop_body (w : World) (s : State) : Turn * State :=
  if bool_decide (capacity s ≤ Z.of_nat (size (runningFeatures s)))%Z
  then (AtCapacity, s)
  else
    match config s with
    | None => (Caught, s)
    | Some _ =>
        let s1 := during_load w s in
        match pendingFeatures w with
        | [] =>
            match config s1 with
            | None => (Caught, s1)
            | Some _ => (Idle, s1)
            end
        | _ =>
            match List.find (fun f => negb (bool_decide (is_Some (runningFeatures s1 !! f))))
                    (pendingFeatures w) with
            | Some nextFeature =>
                match config s1 with
                | None => (Caught, s1)
                | Some c =>
                    (Started nextFeature,
                     launch_executeFeature s1 (cfg_projectPath c) nextFeature
                       (useWorktrees c) true None (now w))
                end
            | None => (NothingNew, s1)
            end
        end
    end.

(** The condition of the [while] loop. *)
Definition keeps_running (s : State) : bool :=
  autoLoopRunning s
  && match autoLoopAbortController s with
     | Some c => negb (bool_decide (c ∈ abortedControllers s))
     | None => false
     end.

(** [runAutoLoop] along a schedule: the turns taken, the state, and whether
    the loop has ended (then [autoLoopRunning] has been cleared) or is still
    going when the schedule is used up. *)
Fixpoint runAutoLoop (ws : list World) (s : State) : list Turn * State * bool :=
  if keeps_running s then
    match ws with
    | [] => ([], s, false)
    | w :: rest =>
        let '(turn, s1) := loop_body w s in
        let '(turns, s2, ended) := runAutoLoop rest (during_sleep w s1) in
        (turn :: turns, s2, ended)
    end
  else ([], set_autoLoop s false (autoLoopAbortController s), true).

End AutoLoop.

(** * Specification-side notions used by the theorems *)

(** The position of the first check whose command is rejected. *)
Fixpoint first_failure (execAsync : string -> QualityGate.ExecOutcome)
    (checks : list QualityGate.Check) : option nat :=
  match checks with
  | [] => None
  | c :: rest =>
      if QualityGate.exec_ok (execAsync (QualityGate.cmd c)) then
        S <$> first_failure execAsync rest
      else Some 0
  end.



(** A sequence of feature runs, seen by the breaker one after the other. *)
Definition observe_all (s : Service.State) (rs : list Service.RunResult)
    : Service.State :=
  fold_left Service.observe rs s.

Definition fatal_type (ty : string) : Prop :=
  ty = "quota_exhausted" \/ ty = "rate_limit".

(** The failures counted after one more failure at [now]: those of the window,
    and the new one. *)
Definition counted (now : Z) (msg : string) (s : Service.State)
    : list Service.FailureRecord :=
  List.filter (Service.in_window now) (Service.consecutiveFailures s)
  ++ [{| Service.timestamp := now; Service.error := msg |}].

(** ** The operations that touch the running-feature registry *)

(** One step of any caller of the service, as far as [runningFeatures] is
    concerned: the synchronous start of [executeFeature], its hand-over to
    the resume path (the [delete] before [resumeFeature]), its [finally]
    block, [stopFeature], and the registrations of [followUpFeature] and of
    the pipeline resume. *)
Inductive RegistryOp :=
| op_start (path fid : string) (autoMode : bool) (now : Z)
| op_hand_over (fid : string)
| op_finally (fid : string)
| op_stop (fid : string)
| op_follow_up (path fid : string) (wt : option string) (branch m p : string) (now : Z)
| op_pipeline_resume (path fid : string) (branch : option string) (now : Z).

Definition registry_step (s : Service.State) (o : RegistryOp) : Service.State :=
  match o with
  | op_start path fid autoMode now =>
      match Service.executeFeature_enter s path fid autoMode now with
      | inl _ => s
      | inr s' => s'
      end
  | op_hand_over fid =>
      Service.set_runningFeatures s (delete fid (Service.runningFeatures s))
  | op_finally fid => Service.executeFeature_finally s fid
  | op_stop fid => snd (Service.stopFeature s fid)
  | op_follow_up path fid wt branch m p now =>
      Service.followUpFeature_register s path fid wt branch m p now
  | op_pipeline_resume path fid branch now =>
      Service.resumeFromPipelineStep_register s path fid branch now
  end.

(** The state after any interleaving of such steps, from a fresh service. *)
Definition after_ops (ops : list RegistryOp) : Service.State :=
  fold_left registry_step ops Service.empty_state.

(** The registry entries that belong to feature [fid]. *)
Definition entries_for (s : Service.State) (fid : string)
    : list (string * Service.RunningFeature) :=
  List.filter (fun kv => bool_decide (Service.featureId (snd kv) = fid))
    (map_to_list (Service.runningFeatures s)).

(** Every registry entry is stored under its own feature id. *)
Definition keyed (m : gmap string Service.RunningFeature) : Prop :=
  forall k rf, m !! k = Some rf -> Service.featureId rf = k.

(** The waiters stored for feature [fid]. *)
Definition waiters_for (s : Service.State) (fid : string)
    : list (string * Service.PendingApproval) :=
  List.filter (fun kv => bool_decide (fst kv = fid))
    (map_to_list (Service.pendingApprovals s)).

(** ** Scheduler: what the theorems speak about *)

(** The task at position [i] was pending and each of its dependency ids named
    a completed task when [scheduleTask] was called for it. *)
Definition started_ready (st : Scheduler.Start) : Prop :=
  exists t,
    Scheduler.tasks_before st !! Scheduler.start_index st = Some t
    /\ Task.status t = Task.pending
    /\ forall d, d ∈ default [] (Task.dependsOn t) ->
         exists dt, Scheduler.taskMap_get (Scheduler.tasks_before st) d = Some dt
                    /\ Task.status dt = Task.completed.

(** [ts'] is [ts] with other statuses: the scheduler writes no other field
    of a task. *)
Definition same_tasks (ts ts' : list Task.ParsedTask) : Prop :=
  map (fun t => Task.with_status t Task.pending) ts'
  = map (fun t => Task.with_status t Task.pending) ts.

(** A start, read against the task list [ts] the scheduler was given: the
    task started was pending, and every id in its [dependsOn] is the id of a
    task that was completed. *)
Definition started_when_ready (ts : list Task.ParsedTask) (st : Scheduler.Start)
    : Prop :=
  exists t,
    ts !! Scheduler.start_index st = Some t
    /\ Task.status <$> Scheduler.tasks_before st !! Scheduler.start_index st
       = Some Task.pending
    /\ forall d, d ∈ default [] (Task.dependsOn t) ->
         exists j tj, ts !! j = Some tj /\ Task.id tj = d
                      /\ Task.status <$> Scheduler.tasks_before st !! j
                         = Some Task.completed.

(** The tasks of a run, and of every start recorded, are those given. *)
Definition shape_inv (ts : list Task.ParsedTask) (r : Scheduler.Run) : Prop :=
  same_tasks ts (Scheduler.tasks r)
  /\ Forall (fun st => same_tasks ts (Scheduler.tasks_before st)) (Scheduler.starts r).

Definition exit_run (e : Scheduler.LoopExit) : Scheduler.Run :=
  match e with
  | Scheduler.Aborted r => r
  | Scheduler.Break _ r => r
  end.

(** The invariant of the scheduler loops, for task lists with distinct ids:
    while nothing has failed every queued task is ready, a task is queued once,
    every in-flight key is the id of a task in progress, and every start so
    far was a start of a ready task. *)
Record sched_inv (queue : list nat) (r : Scheduler.Run) : Prop := {
  inv_ids : NoDup (map Task.id (Scheduler.tasks r));
  inv_queue : Scheduler.hadFailure r = false ->
              Forall (fun i => Scheduler.ready_at (Scheduler.tasks r) i = true) queue;
  inv_nodup : NoDup queue;
  inv_flight : forall k, k ∈ Scheduler.inFlight r ->
               exists j t, Scheduler.taskMap_index (Scheduler.tasks r) k = Some j
                           /\ Scheduler.tasks r !! j = Some t
                           /\ Task.status t = Task.in_progress;
  inv_starts : Forall started_ready (Scheduler.starts r);
}.

(** The positions of the pending tasks that are not queued. *)
Definition pending_outside (ts : list Task.ParsedTask) (queue : list nat) : list nat :=
  List.filter
    (fun i => match ts !! i with
              | Some t => bool_decide (Task.status t = Task.pending)
                          && negb (bool_decide (i ∈ queue))
              | None => false
              end)
    (seq 0 (length ts)).

(** The number of passes the outer loop can still make. *)
Definition passes_left (queue : list nat) (r : Scheduler.Run) : nat :=
  length queue + length (pending_outside (Scheduler.tasks r) queue)
  + size (Scheduler.inFlight r).

(** [C] is a set of positions of tasks that are pending when the loop starts
    and each depend on a task of [C]: a dependency cycle, or tasks leading
    into one. *)
Definition cycle_among_pending (ts : list Task.ParsedTask) (C : list nat) : Prop :=
  C <> []
  /\ forall i, i ∈ C ->
       exists t, Scheduler.mark_missing ts !! i = Some t
         /\ Task.status t = Task.pending
         /\ exists d j tj, d ∈ default [] (Task.dependsOn t) /\ j ∈ C
                          /\ ts !! j = Some tj /\ Task.id tj = d.

(** What the loops keep true of such a set: its tasks stay pending and are
    never queued. *)
Definition cycle_inv (C : list nat) (queue : list nat) (r : Scheduler.Run) : Prop :=
  forall i, i ∈ C ->
    (i ∉ queue)
    /\ exists t, Scheduler.tasks r !! i = Some t
         /\ Task.status t = Task.pending
         /\ exists d j tj, d ∈ default [] (Task.dependsOn t) /\ j ∈ C
                          /\ Scheduler.tasks r !! j = Some tj /\ Task.id tj = d.

(** What holds when the outer loop is left. *)
Definition exit_ok (C : list nat) (e : Scheduler.LoopExit) : Prop :=
  match e with
  | Scheduler.Aborted r =>
      Forall started_ready (Scheduler.starts r) /\ exists queue, cycle_inv C queue r
  | Scheduler.Break queue r =>
      sched_inv queue r /\ cycle_inv C queue r /\ Scheduler.inFlight r = ∅
      /\ (Scheduler.hadFailure r = false -> queue = [])
  end.

(** When the recovery branch of [resolvePlanApproval] applies: the caller gave
    a project path, the feature file loads and its plan spec is 'generated'. *)
Definition recoverable (s : Service.State) (fid : string)
    (projectPathFromClient : option string)
    : option (string * Store.Feature * Plan.PlanSpec) :=
  path ← projectPathFromClient;
  feature ← Store.loadFeature (Service.files s) path fid;
  ps ← Store.planSpec feature;
  if truthy path && bool_decide (Plan.status ps = Plan.generated)
  then Some (path, feature, ps) else None.

(** ** Scheduler: one pass of the outer loop

    The body of [while (true)] cut in two, for the proofs of what every pass
    keeps true: [settle_winner] is the part from [Promise.race] to the end of
    the body, [pass] the whole body. *)
Definition settle_winner (w : Scheduler.World) (queue1 : list nat)
    (r1 : Scheduler.Run) : list nat * Scheduler.Run :=
  let '(k, ok) := Scheduler.race w r1 in
  let r2 := {| Scheduler.tasks := Scheduler.tasks r1;
               Scheduler.inFlight := Scheduler.inFlight r1 ∖ {[k]};
               Scheduler.hadFailure := Scheduler.hadFailure r1;
               Scheduler.clock := S (Scheduler.clock r1);
               Scheduler.events := Scheduler.events r1;
               Scheduler.starts := Scheduler.starts r1 |} in
  match Scheduler.taskMap_index (Scheduler.tasks r2) k with
  | None => (queue1, r2)
  | Some j =>
      let r3 :=
        if ok then
          let ts := Scheduler.set_status (Scheduler.tasks r2) j Task.completed in
          {| Scheduler.tasks := ts; Scheduler.inFlight := Scheduler.inFlight r2;
             Scheduler.hadFailure := Scheduler.hadFailure r2;
             Scheduler.clock := Scheduler.clock r2;
             Scheduler.events :=
               Scheduler.events r2
               ++ [Scheduler.auto_mode_task_complete k (Scheduler.count_completed ts)];
             Scheduler.starts := Scheduler.starts r2 |}
        else
          {| Scheduler.tasks := Scheduler.set_status (Scheduler.tasks r2) j Task.failed;
             Scheduler.inFlight := Scheduler.inFlight r2;
             Scheduler.hadFailure := true;
             Scheduler.clock := Scheduler.clock r2;
             Scheduler.events := Scheduler.events r2;
             Scheduler.starts := Scheduler.starts r2 |} in
      let r4 := Scheduler.await w r3 in
      (if Scheduler.hadFailure r4 then queue1
       else Scheduler.refill (Scheduler.tasks r4) (Scheduler.inFlight r4) 0
              (Scheduler.tasks r4) queue1,
       r4)
  end.

Definition pass (w : Scheduler.World) (cap : nat) (queue : list nat)
    (r : Scheduler.Run) : Scheduler.LoopExit + list nat * Scheduler.Run :=
  if Scheduler.aborted w (Scheduler.clock r) then inl (Scheduler.Aborted r)
  else
    let '(queue1, r1) := Scheduler.fill_loop w cap queue r in
    if bool_decide (size (Scheduler.inFlight r1) = 0)%nat
    then inl (Scheduler.Break queue1 r1)
    else inr (settle_winner w queue1 r1).

(** What an invariant [I] of the passes gives when the loop is left. *)
Definition exit_with (I : list nat -> Scheduler.Run -> Prop)
    (e : Scheduler.LoopExit) : Prop :=
  match e with
  | Scheduler.Aborted r => exists queue, I queue r
  | Scheduler.Break queue r => I queue r /\ Scheduler.inFlight r = ∅
  end.

(** The promise map never holds more than [cap] promises, and a task is only
    started while it holds fewer. *)
Definition cap_inv (cap : nat) (r : Scheduler.Run) : Prop :=
  (size (Scheduler.inFlight r) <= cap)%nat
  /\ Forall (fun st => (size (Scheduler.inFlight_before st) < cap)%nat)
       (Scheduler.starts r).

(** No task was failed at any start so far, and none is as long as
    [hadFailure] is not set. *)
Definition no_failed (ts : list Task.ParsedTask) : Prop :=
  Forall (fun t => Task.status t <> Task.failed) ts.

Definition failfast_inv (r : Scheduler.Run) : Prop :=
  (Scheduler.hadFailure r = false -> no_failed (Scheduler.tasks r))
  /\ Forall (fun st => no_failed (Scheduler.tasks_before st)) (Scheduler.starts r).

(** The task at position [i] is blocked and has not been started. *)
Definition blocked_inv (i : nat) (r : Scheduler.Run) : Prop :=
  Task.status <$> Scheduler.tasks r !! i = Some Task.blocked
  /\ Forall (fun st => Scheduler.start_index st <> i) (Scheduler.starts r).

(** Every task is pending, and every id in a [dependsOn] is the id of a task
    earlier in the list. *)
Definition dependencies_earlier (ts : list Task.ParsedTask) : Prop :=
  forall i t, ts !! i = Some t ->
    Task.status t = Task.pending
    /\ forall d, d ∈ default [] (Task.dependsOn t) ->
         exists j tj, (j < i)%nat /\ ts !! j = Some tj /\ Task.id tj = d.

(** No abort, every task succeeds, and no promise settles while the scheduler
    awaits something else. *)
Definition all_goes_well (w : Scheduler.World) : Prop :=
  forall k, Scheduler.aborted w k = false /\ Scheduler.outcome w k = true
            /\ Scheduler.lost w k = ∅.

(** What the passes keep true when all goes well: nothing has failed, every
    ready task is queued, every task in progress is in flight, and no task is
    blocked or failed. *)
Definition progress_inv (queue : list nat) (r : Scheduler.Run) : Prop :=
  Scheduler.hadFailure r = false
  /\ (forall i, Scheduler.ready_at (Scheduler.tasks r) i = true -> i ∈ queue)
  /\ (forall i t, Scheduler.tasks r !! i = Some t ->
        Task.status t = Task.in_progress -> Task.id t ∈ Scheduler.inFlight r)
  /\ Forall (fun t => Task.status t = Task.pending \/ Task.status t = Task.in_progress
                      \/ Task.status t = Task.completed) (Scheduler.tasks r).

(** ** The retrying writer and one other writer

    A world in which another writer stores [other] as the feature file between
    the helper's first write and its verifying read, and nothing else
    happens. *)
Definition overwriting (projectPath featureId : string) (other : Store.Feature)
    : Store.World :=
  {| Store.before_read := fun _ fs => fs;
     Store.before_write := fun _ fs => fs;
     Store.before_verify := fun a fs =>
       if bool_decide (a = 0%nat) then <[(projectPath, featureId) := other]> fs else fs;
     Store.write_ok := fun _ => true |}.

(** ** Parser: what every parsed record satisfies *)

(** A character of a dependency id as the parser returns it: no comma, no
    white space, no bracket, no bar. *)
Definition id_char (c : ascii) : bool :=
  negb (Parser.is_dep_separator c) && negb (Parser.is_bracket c)
  && negb (Parser.ascii_eqb c "|").

Definition id_token (x : Parser.text) : Prop :=
  x <> [] /\ forallb id_char x = true.

Definition no_terminator (x : Parser.text) : Prop :=
  forallb (fun c => negb (Parser.is_terminator c)) x = true.

(** A description or file path as the parser returns it: not empty, no bar,
    no white space at either end, no line terminator. *)
Definition parsed_field (s : string) : Prop :=
  Parser.clean_part (Parser.lit s) /\ no_terminator (Parser.lit s).

(** A dependency list as the parser returns it: not empty, every id a
    non-empty run of id characters. *)
Definition parsed_deps (ds : list string) : Prop :=
  ds <> [] /\ Forall (fun d => id_token (Parser.lit d)) ds.

Definition parsed_fields (acc : Parser.Fields) : Prop :=
  (forall p, Parser.f_filePath acc = Some p -> parsed_field p)
  /\ (forall ds, Parser.f_dependsOn acc = Some ds -> parsed_deps ds).

Definition parsed_record (t : Task.ParsedTask) : Prop :=
  Task.status t = Task.pending
  /\ Parser.wf_id (Task.id t)
  /\ parsed_field (Task.description t)
  /\ (forall p, Task.filePath t = Some p -> parsed_field p)
  /\ (forall ds, Task.dependsOn t = Some ds -> parsed_deps ds).

(** ** Quality gate: the output a result carries

    A result with an output holds at most 4000 characters of it and is not a
    skipped check; a result without output is not a failed check. *)
Definition clamped (r : QualityGate.QualityGateResult) : Prop :=
  match QualityGate.output r with
  | Some o => (String.length o <= 4000)%nat
              /\ QualityGate.status r <> QualityGate.skipped
  | None => QualityGate.status r <> QualityGate.fail
  end.

(** ** Plan complexity: low below medium below high, no complexity lowest *)
Definition complexity_rank (c : option Task.PlanTaskComplexity) : nat :=
  match c with None => 0 | Some c => Planning.weights c end.

(** ** Metrics: runs started one after the other

    Each run comes with the time stamp of its call; every write succeeds. *)
Fixpoint start_runs {Run : Type} (runId : Run -> string) (projectPath : string)
    (rs : list (string * Run)) (s : Metrics.State Run) : Metrics.State Run :=
  match rs with
  | [] => s
  | (now, run) :: rest =>
      start_runs runId projectPath rest
        (snd (Metrics.startMetricsRun runId now now true projectPath run s))
  end.

(** The runs [loadMetricsStore] finds for a project. *)
Definition known_runs {Run : Type} (projectPath : string) (s : Metrics.State Run)
    : list Run :=
  Metrics.runs (fst (Metrics.loadMetricsStore "" projectPath s)).

(** ** Auto loop: a world that registers no feature and keeps the config

    While the loop waits, features may end or be stopped, but nothing else
    starts one. *)
Definition registers_nothing (f : Service.State -> Service.State) : Prop :=
  forall s, dom (Service.runningFeatures (f s)) ⊆ dom (Service.runningFeatures s)
            /\ Service.config (f s) = Service.config s.

Definition calm_world (w : AutoLoop.World) : Prop :=
  registers_nothing (AutoLoop.during_load w)
  /\ registers_nothing (AutoLoop.during_sleep w).

(** ** Feature execution: the events of one run *)

Definition is_quality_metrics (e : Service.Event) : bool :=
  match e with Service.auto_mode_quality_metrics _ _ _ _ => true | _ => false end.

(** [emitAutoModeEvent] for every event of [l], in order. *)
Definition emit_all (s : Service.State) (l : list Service.Event) : Service.State :=
  fold_left Service.emit l s.

(** * Concrete inputs used by the witnesses and counterexamples *)
Module Examples.

Definition plain_error (ty msg : string) : Service.ErrorInfo :=
  {| Service.type := ty; Service.message := msg; Service.isAbort := false;
     Service.isCancellation := false |}.

(** A world in which every collaborator succeeds at once. *)
Definition calm : Service.Env :=
  {| Service.validate := None; Service.contextExists := false;
     Service.setup := None; Service.implementation := None;
     Service.shell := fun _ _ => QualityGate.Resolved "ok" "";
     Service.qualityFix := fun _ => None; Service.judgeFix := fun _ => None;
     Service.judge := fun _ => inr Service.verdict_pass;
     Service.classifyError := plain_error "unknown";
     Service.clock := 1000; Service.stamp := "2026-01-01T00:00:00.000Z" |}.

Definition feature1 : Store.Feature :=
  {| Store.id := "f1"; Store.status := "backlog"; Store.skipTests := false;
     Store.branchName := None; Store.planSpec := None; Store.updatedAt := None;
     Store.justFinishedAt := None |}.

Definition one_feature : Service.State :=
  Service.set_files Service.empty_state {[ ("/p", "f1") := feature1 ]}.

(** The auto-loop running for project [/p], nothing else going on. *)
Definition looping : Service.State :=
  {| Service.runningFeatures := ∅; Service.pendingApprovals := ∅;
     Service.consecutiveFailures := []; Service.pausedDueToFailures := false;
     Service.autoLoopRunning := true; Service.autoLoopAbortController := Some 0;
     Service.config := Some {| Service.maxConcurrency := 3;
                               Service.useWorktrees := true;
                               Service.cfg_projectPath := "/p" |};
     Service.approvals := []; Service.timers := ∅; Service.controllers := 1;
     Service.abortedControllers := ∅; Service.files := ∅; Service.events := [];
     Service.launches := [] |}.

(** A first approval waiter for feature [f1] is outstanding. *)
Definition waiting_once : Service.State :=
  snd (Service.waitForPlanApproval one_feature "f1" "/p").

Definition generated_plan : Plan.PlanSpec :=
  {| Plan.status := Plan.generated; Plan.content := Some "the plan";
     Plan.version := 1; Plan.generatedAt := None; Plan.approvedAt := None;
     Plan.reviewedByUser := false; Plan.tasksCompleted := None;
     Plan.tasksTotal := None; Plan.currentTaskId := None;
     Plan.currentTaskIds := None; Plan.tasks := None;
     Plan.taskStateVersion := Some 4%Z; Plan.qualityIssues := None |}.

Definition feature_with_plan : Store.Feature :=
  {| Store.id := "f1"; Store.status := "in_progress"; Store.skipTests := false;
     Store.branchName := None; Store.planSpec := Some generated_plan;
     Store.updatedAt := None; Store.justFinishedAt := None |}.

(** Feature [f1] has a generated plan on disk and no waiter; it is not
    running. *)
Definition plan_on_disk : Service.State :=
  Service.set_files Service.empty_state {[ ("/p", "f1") := feature_with_plan ]}.

(** The same, with [f1] registered as running. *)
Definition plan_on_disk_running : Service.State :=
  registry_step plan_on_disk (op_start "/p" "f1" false 0).

(** A callback that tries to lower the counter. *)
Definition lowering (p : Plan.PlanSpec) : option Plan.PlanSpec :=
  Some (Plan.set_taskStateVersion p (Some (-7)%Z)).

(** A pending task with the given id and dependencies. *)
Definition task (tid : string) (deps : option (list string)) : Task.ParsedTask :=
  {| Task.id := tid; Task.description := "work"; Task.filePath := None;
     Task.phase := None; Task.dependsOn := deps; Task.complexity := None;
     Task.status := Task.pending |}.

(** [A, B(deps:[A]), C(deps:[A])]. *)
Definition fan_out : list Task.ParsedTask :=
  [task "A" None; task "B" (Some ["A"]); task "C" (Some ["A"])].

(** [A(deps:[B]), B(deps:[A])]. *)
Definition two_cycle : list Task.ParsedTask :=
  [task "A" (Some ["B"]); task "B" (Some ["A"])].

(** A task [X] without dependencies next to the cycle of [A] and [B]. *)
Definition cycle_and_more : list Task.ParsedTask :=
  [task "X" None; task "A" (Some ["B"]); task "B" (Some ["A"])].

(** No abort, no promise settles unobserved, the race delivers the first
    in-flight promise; every task ends as [ok] says. *)
Definition steady (ok : bool) : Scheduler.World :=
  {| Scheduler.aborted := fun _ => false; Scheduler.lost := fun _ => ∅;
     Scheduler.winner := fun _ => 0; Scheduler.outcome := fun _ => ok |}.

(** The records of two well-formed task lines. *)
Definition schema_task : Task.ParsedTask :=
  {| Task.id := "T001"; Task.description := "Create the schema";
     Task.filePath := Some "src/db/schema.ts"; Task.phase := None;
     Task.dependsOn := Some ["T000"]; Task.complexity := Some Task.low;
     Task.status := Task.pending |}.

Definition routes_task : Task.ParsedTask :=
  {| Task.id := "T002"; Task.description := "Add the API routes";
     Task.filePath := Some "src/api/routes.ts"; Task.phase := None;
     Task.dependsOn := Some ["T001"; "T000"]; Task.complexity := Some Task.medium;
     Task.status := Task.pending |}.

(** [B] depends on an id no task has. *)
Definition orphan : list Task.ParsedTask :=
  [task "A" None; task "B" (Some ["Z"])].

(** A chain and a diamond: every dependency is an earlier task. *)
Definition diamond : list Task.ParsedTask :=
  [task "A" None; task "B" (Some ["A"]); task "C" (Some ["A"]);
   task "D" (Some ["B"; "C"])].

(** The agent run throws a plain error; the agent run is aborted. *)
Definition failing : Service.Env :=
  {| Service.validate := None; Service.contextExists := false;
     Service.setup := None;
     Service.implementation := Some (plain_error "execution" "agent crashed");
     Service.shell := fun _ _ => QualityGate.Resolved "ok" "";
     Service.qualityFix := fun _ => None; Service.judgeFix := fun _ => None;
     Service.judge := fun _ => inr Service.verdict_pass;
     Service.classifyError := plain_error "unknown";
     Service.clock := 1000; Service.stamp := "2026-01-01T00:00:00.000Z" |}.

Definition aborting : Service.Env :=
  {| Service.validate := None; Service.contextExists := false;
     Service.setup := None;
     Service.implementation :=
       Some {| Service.type := "abort"; Service.message := "Aborted";
               Service.isAbort := true; Service.isCancellation := false |};
     Service.shell := fun _ _ => QualityGate.Resolved "ok" "";
     Service.qualityFix := fun _ => None; Service.judgeFix := fun _ => None;
     Service.judge := fun _ => inr Service.verdict_pass;
     Service.classifyError := plain_error "unknown";
     Service.clock := 1000; Service.stamp := "2026-01-01T00:00:00.000Z" |}.

(** Feature [f1] with the given tasks in its plan spec. *)
Definition feature_with_tasks (ts : list Task.ParsedTask) : Store.Feature :=
  Store.with_planSpec feature1
    (Plan.assign generated_plan (Planning.refinement_update ts)) "t".

(** A metrics store where a run is a bare run id; nothing cached, no file. *)
Definition no_metrics : Metrics.State string :=
  {| Metrics.metricsByProject := ∅; Metrics.disk := ∅; Metrics.emitted := [] |}.

(** Project [/p] has one run in its cached history. *)
Definition one_run : Metrics.State string :=
  start_runs (fun r => r) "/p" [("t0", "f1-r0")] no_metrics.

(** Two features are pending; nothing else happens while the loop waits. *)
Definition two_pending : AutoLoop.World :=
  {| AutoLoop.pendingFeatures := ["f1"; "f2"];
     AutoLoop.during_load := fun s => s; AutoLoop.during_sleep := fun s => s;
     AutoLoop.now := 0 |}.

(** The same, but [stopAutoLoop] is called while the loop loads the pending
    features. *)
Definition stopped_while_loading : AutoLoop.World :=
  {| AutoLoop.pendingFeatures := ["f1"; "f2"];
     AutoLoop.during_load := fun s => snd (Service.stopAutoLoop s);
     AutoLoop.during_sleep := fun s => s; AutoLoop.now := 0 |}.

End Examples.

(** * Theorems *)

(** ** Quality gate *)

Lemma check_loop_names execAsync checks acc ran :
  map QualityGate.name
    (QualityGate.results (QualityGate.check_loop execAsync checks acc ran))
  = map QualityGate.name acc ++ map QualityGate.cname checks.
Proof.
  revert acc ran. induction checks as [|c rest IH]; intros acc ran; simpl.
  - by rewrite app_nil_r.
  - destruct (execAsync (QualityGate.cmd c)); simpl.
    + rewrite IH, map_app. simpl. by rewrite <- app_assoc.
    + rewrite !map_app, map_map. simpl. by rewrite <- app_assoc.
Qed.

Lemma check_loop_shape execAsync checks acc ran :
  let out := QualityGate.check_loop execAsync checks acc ran in
  match first_failure execAsync checks with
  | None =>
      QualityGate.passed out = true
      /\ map QualityGate.status (QualityGate.results out)
         = map QualityGate.status acc ++ replicate (length checks) QualityGate.pass
      /\ QualityGate.executed out = ran ++ map QualityGate.cmd checks
  | Some k =>
      QualityGate.passed out = false
      /\ map QualityGate.status (QualityGate.results out)
         = map QualityGate.status acc ++ replicate k QualityGate.pass
           ++ QualityGate.fail :: replicate (length checks - S k) QualityGate.skipped
      /\ QualityGate.executed out = ran ++ take (S k) (map QualityGate.cmd checks)
  end.
Proof.
  revert acc ran. induction checks as [|c rest IH]; intros acc ran; simpl.
  - by rewrite !app_nil_r.
  - destruct (execAsync (QualityGate.cmd c)) as [so se|so se m] eqn:E; simpl.
    + specialize (IH (acc ++ [QualityGate.pass_result c so se]) (ran ++ [QualityGate.cmd c])).
      simpl in IH. destruct (first_failure execAsync rest) as [k|]; simpl.
      * destruct IH as (Hp & Hs & He). split_and!; [done | |].
        -- rewrite Hs, map_app. simpl. by rewrite <- app_assoc.
        -- rewrite He. by rewrite <- app_assoc.
      * destruct IH as (Hp & Hs & He). split_and!; [done | |].
        -- rewrite Hs, map_app. simpl. by rewrite <- app_assoc.
        -- rewrite He. by rewrite <- app_assoc.
    + split_and!; [done | |].
      * rewrite !map_app, map_map. simpl. rewrite Nat.sub_0_r, <- app_assoc. simpl.
        do 2 f_equal. generalize rest. intros l. induction l; simpl; [done | by f_equal].
      * by rewrite take_0.
Qed.

(** C4. The gate reports the four checks Lint, Type check, Tests, Build in
    that order whatever the commands do; it runs the commands up to and
    including the first one that fails and no further, reports that check as
    [fail] and every later one as [skipped]; [passed] is true exactly when
    every reported check passed. With lint passing and typecheck failing the
    statuses are pass, fail, skipped, skipped and [passed] is false. *)
Theorem quality_gate_stops_at_first_failure
    (execAsync : string -> QualityGate.ExecOutcome) :
  let out := QualityGate.runQualityChecks execAsync in
  map QualityGate.name (QualityGate.results out)
    = ["Lint"; "Type check"; "Tests"; "Build"]
  /\ match first_failure execAsync QualityGate.verificationChecks with
     | None =>
         QualityGate.passed out = true
         /\ map QualityGate.status (QualityGate.results out)
            = replicate 4 QualityGate.pass
         /\ QualityGate.executed out
            = ["npm run lint"; "npm run typecheck"; "npm test"; "npm run build"]
     | Some k =>
         QualityGate.passed out = false
         /\ map QualityGate.status (QualityGate.results out)
            = replicate k QualityGate.pass
              ++ QualityGate.fail :: replicate (3 - k) QualityGate.skipped
         /\ QualityGate.executed out
            = take (S k)
                ["npm run lint"; "npm run typecheck"; "npm test"; "npm run build"]
     end
  /\ (QualityGate.passed out = true
      <-> Forall (fun r => QualityGate.status r = QualityGate.pass)
            (QualityGate.results out))
  /\ (QualityGate.exec_ok (execAsync "npm run lint") = true ->
      QualityGate.exec_ok (execAsync "npm run typecheck") = false ->
      map (fun r => (QualityGate.name r, QualityGate.status r)) (QualityGate.results out)
        = [("Lint", QualityGate.pass); ("Type check", QualityGate.fail);
           ("Tests", QualityGate.skipped); ("Build", QualityGate.skipped)]
      /\ QualityGate.passed out = false
      /\ QualityGate.executed out = ["npm run lint"; "npm run typecheck"]).
Proof.
  intros out.
  pose proof (check_loop_names execAsync QualityGate.verificationChecks [] []) as Hn.
  pose proof (check_loop_shape execAsync QualityGate.verificationChecks [] []) as Hs.
  fold (QualityGate.runQualityChecks execAsync) in Hn, Hs. fold out in Hn, Hs.
  simpl in Hn, Hs. split_and!.
  - exact Hn.
  - destruct (first_failure execAsync QualityGate.verificationChecks) as [k|] eqn:Ek;
      simpl in *; rewrite Ek in Hs; exact Hs.
  - assert (Hst : forall l, Forall (fun r => QualityGate.status r = QualityGate.pass) l
                        <-> Forall (fun s => s = QualityGate.pass) (map QualityGate.status l)).
    { intros l. by rewrite Forall_fmap. }
    rewrite Hst.
    destruct (first_failure execAsync QualityGate.verificationChecks) as [k|] eqn:Ek;
      simpl in *; rewrite Ek in Hs; destruct Hs as (Hp & Hs & _); rewrite Hp, Hs.
    + split; [done|]. intros HF. exfalso.
      apply Forall_app in HF as [_ HF]. by inversion HF.
    + split; [|done]. intros _. by repeat constructor.
  - intros H1 H2. subst out. unfold QualityGate.runQualityChecks. simpl.
    destruct (execAsync "npm run lint"); [|done].
    destruct (execAsync "npm run typecheck"); [done|]. by simpl.
Qed.

(** ** Feature execution: what each step leaves alone *)

Lemma reportFailure_files now ty msg s :
  Service.files (Service.reportFailure now ty msg s) = Service.files s.
Proof.
  unfold Service.reportFailure, Service.trackFailureAndCheckPause,
    Service.signalShouldPause, Service.stopAutoLoop.
  repeat (case_match; simplify_eq/=); reflexivity.
Qed.

Lemma reportFailure_runningFeatures now ty msg s :
  Service.runningFeatures (Service.reportFailure now ty msg s)
  = Service.runningFeatures s.
Proof.
  unfold Service.reportFailure, Service.trackFailureAndCheckPause,
    Service.signalShouldPause, Service.stopAutoLoop.
  repeat (case_match; simplify_eq/=); reflexivity.
Qed.

Lemma updateFeatureStatus_lookup fs path fid st now :
  Store.status <$> Store.updateFeatureStatus fs path fid st now !! (path, fid)
  = (fun _ => st) <$> fs !! (path, fid).
Proof.
  unfold Store.updateFeatureStatus.
  destruct (fs !! (path, fid)) as [f|] eqn:E; simpl.
  - by rewrite lookup_insert_eq.
  - by rewrite E.
Qed.

Lemma updateFeatureStatus_is_Some fs path fid st now k :
  is_Some (fs !! k) -> is_Some (Store.updateFeatureStatus fs path fid st now !! k).
Proof.
  unfold Store.updateFeatureStatus. intros Hk.
  destruct (fs !! (path, fid)) as [f|] eqn:E; [|done].
  destruct (decide (k = (path, fid))) as [->|Hne].
  - rewrite lookup_insert_eq. eauto.
  - by rewrite lookup_insert_ne.
Qed.

Lemma quality_fix_loop_files env fid left n out s r s' :
  Service.quality_fix_loop env fid left n out s = (r, s') ->
  Service.files s' = Service.files s.
Proof.
  revert n out s. induction left as [|left IH]; intros n out s; simpl.
  - destruct (QualityGate.passed out); intros [= <- <-]; reflexivity.
  - destruct (QualityGate.passed out); [intros [= <- <-]; reflexivity|].
    destruct (Service.qualityFix env n); [intros [= <- <-]; reflexivity|].
    destruct (Service.runQualityChecks env fid (S n) s) as [out1 s1] eqn:E.
    intros H. apply IH in H. rewrite H.
    unfold Service.runQualityChecks in E. by simplify_eq.
Qed.

Lemma quality_phase_files env fid skip s r s' :
  Service.quality_phase env fid skip s = (r, s') ->
  Service.files s' = Service.files s.
Proof.
  unfold Service.quality_phase. destruct skip.
  - intros [= <- <-]. reflexivity.
  - destruct (Service.runQualityChecks env fid 0 s) as [out0 s1] eqn:E.
    intros H. apply quality_fix_loop_files in H. rewrite H.
    unfold Service.runQualityChecks in E. by simplify_eq.
Qed.



(** ** Failure circuit breaker *)

Lemma trackFailure_spec now ty msg s :
  let '(b, s1) := Service.trackFailureAndCheckPause now ty msg s in
  Service.consecutiveFailures s1
    = List.filter (Service.in_window now) (Service.consecutiveFailures s)
      ++ [{| Service.timestamp := now; Service.error := msg |}]
  /\ (b = true <-> (3 <= length (Service.consecutiveFailures s1))%nat \/ fatal_type ty)
  /\ Service.pausedDueToFailures s1 = Service.pausedDueToFailures s
  /\ Service.autoLoopRunning s1 = Service.autoLoopRunning s
  /\ Service.events s1 = Service.events s.
Proof.
  unfold Service.trackFailureAndCheckPause, fatal_type.
  assert (Hf : List.filter (Service.in_window now)
                 (Service.consecutiveFailures s
                  ++ [{| Service.timestamp := now; Service.error := msg |}])
               = List.filter (Service.in_window now) (Service.consecutiveFailures s)
                 ++ [{| Service.timestamp := now; Service.error := msg |}]).
  { rewrite List.filter_app. simpl. unfold Service.in_window at 2. simpl.
    rewrite bool_decide_true; [done|]. unfold Service.FAILURE_WINDOW_MS. lia. }
  rewrite Hf.
  repeat case_bool_decide; simpl; split_and!; try done; unfold Service.CONSECUTIVE_FAILURE_THRESHOLD in *;
    try (split; [auto|done]); try (split; [done|]; intros [?|[?|?]]; done).
Qed.

Lemma reportFailure_quiet now ty msg s :
  ~ fatal_type ty -> (length (counted now msg s) < 3)%nat ->
  Service.reportFailure now ty msg s
  = Service.set_consecutiveFailures s (counted now msg s).
Proof.
  intros Hty Hlen. unfold Service.reportFailure.
  unfold Service.trackFailureAndCheckPause.
  assert (Hf : List.filter (Service.in_window now)
                 (Service.consecutiveFailures s
                  ++ [{| Service.timestamp := now; Service.error := msg |}])
               = counted now msg s).
  { unfold counted. rewrite List.filter_app. simpl. unfold Service.in_window at 2.
    simpl. rewrite bool_decide_true; [done|]. unfold Service.FAILURE_WINDOW_MS. lia. }
  rewrite Hf. unfold Service.CONSECUTIVE_FAILURE_THRESHOLD.
  rewrite bool_decide_false by lia.
  rewrite (bool_decide_false (ty = "quota_exhausted")) by (intros ->; apply Hty; by left).
  rewrite (bool_decide_false (ty = "rate_limit")) by (intros ->; apply Hty; by right).
  reflexivity.
Qed.

Lemma reportFailure_trips now ty msg s :
  Service.pausedDueToFailures s = false ->
  (3 <= length (counted now msg s))%nat \/ fatal_type ty ->
  Service.reportFailure now ty msg s
  = snd (Service.stopAutoLoop
           (Service.emit
              (Service.set_pausedDueToFailures
                 (Service.set_consecutiveFailures s (counted now msg s)) true)
              (Service.auto_mode_paused_failures (length (counted now msg s)) ty msg
                 (Service.cfg_projectPath <$> Service.config s)))).
Proof.
  intros Hp Htrip. unfold Service.reportFailure, Service.trackFailureAndCheckPause.
  assert (Hf : List.filter (Service.in_window now)
                 (Service.consecutiveFailures s
                  ++ [{| Service.timestamp := now; Service.error := msg |}])
               = counted now msg s).
  { unfold counted. rewrite List.filter_app. simpl. unfold Service.in_window at 2.
    simpl. rewrite bool_decide_true; [done|]. unfold Service.FAILURE_WINDOW_MS. lia. }
  rewrite Hf. unfold Service.CONSECUTIVE_FAILURE_THRESHOLD, Service.signalShouldPause.
  case_bool_decide as H3; simpl.
  - by rewrite Hp.
  - destruct Htrip as [?|[-> | ->]]; [lia| |]; simpl; by rewrite Hp.
Qed.

Ltac window_step :=
  match goal with
  | |- context [bool_decide (?a - ?b < ?c)%Z] =>
      first [ rewrite (bool_decide_true (a - b < c)%Z) by lia
            | rewrite (bool_decide_false (a - b < c)%Z) by lia ]
  end.

Ltac count_window :=
  unfold counted, Service.in_window, Service.FAILURE_WINDOW_MS; simpl;
  try (match goal with H : Service.consecutiveFailures _ = _ |- _ => rewrite H end);
  simpl; repeat window_step; simpl.

(** Rewrite the failure reported at [now] on state [st], which does not trip. *)
Ltac quiet_step now st :=
  match goal with
  | |- context [Service.reportFailure now ?ty ?msg st] =>
      rewrite (reportFailure_quiet now ty msg st);
        [ | assumption | count_window; repeat case_bool_decide; simpl; lia ];
      count_window
  end.

Ltac trip_step now st :=
  match goal with
  | |- context [Service.reportFailure now ?ty ?msg st] =>
      rewrite (reportFailure_trips now ty msg st);
        [ | done | first [ left; count_window; lia | right; assumption ] ];
      count_window
  end.

Lemma observe_three_in_window s ty msg t1 t2 t3 :
  Service.consecutiveFailures s = [] ->
  Service.pausedDueToFailures s = false ->
  ~ fatal_type ty ->
  (t2 - t1 < 60000)%Z -> (t3 - t1 < 60000)%Z -> (t3 - t2 < 60000)%Z ->
  let s2 := observe_all s [Service.Failure t1 ty msg; Service.Failure t2 ty msg] in
  let s3 := Service.observe s2 (Service.Failure t3 ty msg) in
  Service.pausedDueToFailures s2 = false
  /\ Service.events s2 = Service.events s
  /\ Service.pausedDueToFailures s3 = true
  /\ Service.autoLoopRunning s3 = false
  /\ Service.events s3
     = Service.events s
       ++ Service.auto_mode_paused_failures 3 ty msg
            (Service.cfg_projectPath <$> Service.config s)
          :: (if Service.autoLoopRunning s
              then [Service.auto_mode_stopped
                      (Service.cfg_projectPath <$> Service.config s)]
              else []).
Proof.
  intros Hempty Hpaused Hty H21 H31 H32. simpl.
  quiet_step t1 s.
  match goal with |- context [Service.reportFailure t2 ty msg ?st] => quiet_step t2 st end.
  split_and!; [done | done | ..];
    (match goal with
     | |- context [Service.reportFailure t3 ty msg ?st] => trip_step t3 st
     end);
    unfold Service.stopAutoLoop; simpl;
    destruct (Service.autoLoopAbortController s), (Service.autoLoopRunning s);
    simpl; rewrite <- ?app_assoc; done.
Qed.

Lemma observe_window_expired s ty msg t1 t2 t3 :
  Service.consecutiveFailures s = [] ->
  Service.pausedDueToFailures s = false ->
  ~ fatal_type ty ->
  (60000 <= t3 - t1)%Z ->
  let s3 := observe_all s [Service.Failure t1 ty msg; Service.Failure t2 ty msg;
                           Service.Failure t3 ty msg] in
  Service.pausedDueToFailures s3 = false /\ Service.events s3 = Service.events s.
Proof.
  intros Hempty Hpaused Hty H31. simpl.
  quiet_step t1 s.
  match goal with |- context [Service.reportFailure t2 ty msg ?st] => quiet_step t2 st end.
  destruct (decide (t2 - t1 < 60000)%Z);
    window_step; simpl;
    (match goal with
     | |- context [Service.reportFailure t3 ty msg ?st] => quiet_step t3 st
     end); done.
Qed.

Lemma observe_fatal s fatal msg t1 :
  Service.consecutiveFailures s = [] ->
  Service.pausedDueToFailures s = false ->
  fatal_type fatal ->
  let s1 := Service.observe s (Service.Failure t1 fatal msg) in
  Service.pausedDueToFailures s1 = true
  /\ Service.autoLoopRunning s1 = false
  /\ Service.events s1
     = Service.events s
       ++ Service.auto_mode_paused_failures 1 fatal msg
            (Service.cfg_projectPath <$> Service.config s)
          :: (if Service.autoLoopRunning s
              then [Service.auto_mode_stopped
                      (Service.cfg_projectPath <$> Service.config s)]
              else []).
Proof.
  intros Hempty Hpaused Hfatal. simpl.
  split_and!; trip_step t1 s; unfold Service.stopAutoLoop; simpl;
    destruct (Service.autoLoopAbortController s), (Service.autoLoopRunning s);
    simpl; rewrite <- ?app_assoc; done.
Qed.

Lemma observe_two_success_two s ty msg u1 u2 u3 u4 :
  Service.consecutiveFailures s = [] ->
  Service.pausedDueToFailures s = false ->
  ~ fatal_type ty ->
  let s' := observe_all s [Service.Failure u1 ty msg; Service.Failure u2 ty msg;
                           Service.Success;
                           Service.Failure u3 ty msg; Service.Failure u4 ty msg] in
  Service.pausedDueToFailures s' = false
  /\ Service.autoLoopRunning s' = Service.autoLoopRunning s
  /\ Service.events s' = Service.events s
  /\ (length (Service.consecutiveFailures s') <= 2)%nat.
Proof.
  intros Hempty Hpaused Hty. simpl.
  quiet_step u1 s.
  match goal with |- context [Service.reportFailure u2 ty msg ?st] => quiet_step u2 st end.
  unfold Service.recordSuccess. simpl.
  match goal with |- context [Service.reportFailure u3 ty msg ?st] => quiet_step u3 st end.
  match goal with |- context [Service.reportFailure u4 ty msg ?st] => quiet_step u4 st end.
  split_and!; try done. case_bool_decide; simpl; lia.
Qed.



(** ** Running-feature registry *)

Lemma keyed_insert m k rf :
  keyed m -> Service.featureId rf = k -> keyed (<[k := rf]> m).
Proof.
  intros Hm Hk k' rf'. destruct (decide (k = k')) as [->|Hne].
  - rewrite lookup_insert_eq. by intros [= <-].
  - rewrite lookup_insert_ne by done. apply Hm.
Qed.

Lemma keyed_delete m k : keyed m -> keyed (delete k m).
Proof.
  intros Hm k' rf'. destruct (decide (k = k')) as [->|Hne].
  - by rewrite lookup_delete_eq.
  - rewrite lookup_delete_ne by done. apply Hm.
Qed.

Lemma cancelPlanApproval_runningFeatures s fid :
  Service.runningFeatures (Service.cancelPlanApproval s fid) = Service.runningFeatures s.
Proof. unfold Service.cancelPlanApproval. by destruct (_ !! _). Qed.

Lemma registry_step_keyed s o :
  keyed (Service.runningFeatures s) ->
  keyed (Service.runningFeatures (registry_step s o)).
Proof.
  intros Hs. destruct o; simpl.
  - unfold Service.executeFeature_enter. case_bool_decide; [done|]. simpl.
    by apply keyed_insert.
  - by apply keyed_delete.
  - by apply keyed_delete.
  - unfold Service.stopFeature. destruct (_ !! _); [|done]. simpl.
    rewrite cancelPlanApproval_runningFeatures. by apply keyed_delete.
  - by apply keyed_insert.
  - by apply keyed_insert.
Qed.

Lemma after_ops_keyed ops : keyed (Service.runningFeatures (after_ops ops)).
Proof.
  unfold after_ops.
  assert (H : forall s, keyed (Service.runningFeatures s) ->
                   keyed (Service.runningFeatures (fold_left registry_step ops s))).
  { induction ops as [|o ops IH]; intros s Hs; simpl; [done|].
    apply IH. by apply registry_step_keyed. }
  apply H. intros k rf. simpl. by rewrite lookup_empty.
Qed.

Lemma keyed_entries_le_1 s fid :
  keyed (Service.runningFeatures s) -> (length (entries_for s fid) <= 1)%nat.
Proof.
  intros Hk. unfold entries_for.
  pose proof (NoDup_map_to_list (Service.runningFeatures s)) as Hnd.
  assert (Hall : forall kv, kv ∈ List.filter
                    (fun kv => bool_decide (Service.featureId (snd kv) = fid))
                    (map_to_list (Service.runningFeatures s)) ->
                  Service.runningFeatures s !! fid = Some (snd kv) /\ fst kv = fid).
  { intros [k rf] Hin. apply list_elem_of_In, List.filter_In in Hin as [Hin Hf].
    apply bool_decide_eq_true in Hf. simpl in *.
    apply list_elem_of_In, elem_of_map_to_list in Hin.
    pose proof (Hk _ _ Hin) as Hkey. simpl. split; congruence. }
  assert (Hnd' : NoDup (List.filter
                    (fun kv => bool_decide (Service.featureId (snd kv) = fid))
                    (map_to_list (Service.runningFeatures s)))).
  { apply NoDup_ListNoDup, List.NoDup_filter, NoDup_ListNoDup, Hnd. }
  destruct (List.filter _ _) as [|a [|b l]]; simpl; [lia | lia |].
  exfalso. destruct (Hall a) as [Ha1 Ha2]; [left|].
  destruct (Hall b) as [Hb1 Hb2]; [right; left|].
  apply NoDup_cons in Hnd' as [Hnotin _]. apply Hnotin. 
  assert (a = b) as ->. { destruct a, b; simpl in *; congruence. }
  left.
Qed.

Lemma quality_fix_loop_runningFeatures env fid left n out s r s' :
  Service.quality_fix_loop env fid left n out s = (r, s') ->
  Service.runningFeatures s' = Service.runningFeatures s.
Proof.
  revert n out s. induction left as [|left IH]; intros n out s; simpl.
  - destruct (QualityGate.passed out); intros [= <- <-]; reflexivity.
  - destruct (QualityGate.passed out); [intros [= <- <-]; reflexivity|].
    destruct (Service.qualityFix env n); [intros [= <- <-]; reflexivity|].
    destruct (Service.runQualityChecks env fid (S n) s) as [out1 s1] eqn:E.
    intros H. apply IH in H. rewrite H.
    unfold Service.runQualityChecks in E. by simplify_eq.
Qed.

Lemma quality_phase_runningFeatures env fid skip s r s' :
  Service.quality_phase env fid skip s = (r, s') ->
  Service.runningFeatures s' = Service.runningFeatures s.
Proof.
  unfold Service.quality_phase. destruct skip.
  - intros [= <- <-]. reflexivity.
  - destruct (Service.runQualityChecks env fid 0 s) as [out0 s1] eqn:E.
    intros H. apply quality_fix_loop_runningFeatures in H. rewrite H.
    unfold Service.runQualityChecks in E. by simplify_eq.
Qed.

Lemma executeFeature_try_runningFeatures env s path fid prompt r s' :
  Service.executeFeature_try env s path fid prompt = (r, s') ->
  Service.runningFeatures s' = Service.runningFeatures s
  \/ Service.runningFeatures s' = delete fid (Service.runningFeatures s).
Proof.
  unfold Service.executeFeature_try.
  destruct (Service.validate env); [intros [= <- <-]; by left|].
  destruct (negb _ && _); [intros [= <- <-]; simpl; by right|].
  simpl. destruct (Store.loadFeature _ _ _); [|intros [= <- <-]; by left].
  destruct (Service.setup env); [intros [= <- <-]; by left|].
  destruct (Service.implementation env); [intros [= <- <-]; by left|].
  destruct (Service.quality_phase _ _ _ _) as [[e|out] s3] eqn:Hq;
    apply quality_phase_runningFeatures in Hq; simpl in Hq.
  - intros [= <- <-]. by left.
  - destruct (Service.judge_phase _ _); [intros [= <- <-]; by left|].
    unfold Service.finalize. simpl. intros [= <- <-]. simpl. left.
    destruct (QualityGate.passed out && _); simpl;
      rewrite ?reportFailure_runningFeatures; simpl; done.
Qed.

Lemma executeFeature_catch_runningFeatures env s path fid e :
  Service.runningFeatures (Service.executeFeature_catch env s path fid e)
  = Service.runningFeatures s.
Proof.
  unfold Service.executeFeature_catch. destruct (Service.isAbort e); [done|].
  by rewrite reportFailure_runningFeatures.
Qed.

(** C1. In every state the service can reach, the registry holds at most one
    entry for a feature id. [executeFeature] on an id that is registered throws
    'already running' and leaves the state as it was; on an id that is not, its
    synchronous start registers the id and touches nothing else (no file, no
    event, no launch: no awaited work has begun). When that execution ends,
    however it ends, and when the feature is stopped, the id is no longer
    registered. *)
Theorem running_feature_registry
    (ops : list RegistryOp) (path fid : string) (autoMode : bool) (now : Z) :
  let s := after_ops ops in
  (length (entries_for s fid) <= 1)%nat
  /\ (is_Some (Service.runningFeatures s !! fid) ->
      Service.executeFeature_enter s path fid autoMode now = inl "already running"
      /\ forall env prompt,
           Service.executeFeature env s path fid autoMode prompt now
           = (inl "already running", s))
  /\ (Service.runningFeatures s !! fid = None ->
      exists s1 rf,
        Service.executeFeature_enter s path fid autoMode now = inr s1
        /\ Service.runningFeatures s1 = <[fid := rf]> (Service.runningFeatures s)
        /\ Service.featureId rf = fid
        /\ length (entries_for s1 fid) = 1%nat
        /\ Service.files s1 = Service.files s
        /\ Service.events s1 = Service.events s
        /\ Service.launches s1 = Service.launches s
        /\ Service.pendingApprovals s1 = Service.pendingApprovals s)
  /\ (forall env prompt,
        Service.runningFeatures s !! fid = None ->
        Service.runningFeatures
          (snd (Service.executeFeature env s path fid autoMode prompt now)) !! fid = None)
  /\ Service.runningFeatures (snd (Service.stopFeature s fid)) !! fid = None.
Proof.
  intros s. pose proof (after_ops_keyed ops) as Hkeyed. fold s in Hkeyed.
  split_and!.
  - by apply keyed_entries_le_1.
  - intros Hreg. unfold Service.executeFeature, Service.executeFeature_enter.
    rewrite bool_decide_true by done. done.
  - intros Hnone. unfold Service.executeFeature_enter.
    rewrite bool_decide_false by (rewrite Hnone; by intros [? ?]). simpl.
    eexists _, _. split; [reflexivity|]. simpl. split_and!; try done.
    match goal with |- length (entries_for ?s1 fid) = 1%nat =>
      assert (Hk1 : keyed (Service.runningFeatures s1))
        by (simpl; by apply keyed_insert);
      pose proof (keyed_entries_le_1 s1 fid Hk1) as Hle;
      assert (Hin : (fid, {| Service.featureId := fid; Service.projectPath := path;
                             Service.worktreePath := None; Service.branchName := None;
                             Service.abortController := Service.controllers s;
                             Service.isAutoMode := autoMode; Service.startTime := now;
                             Service.model := None; Service.provider := None;
                             Service.metricsRunId := None |}) ∈ entries_for s1 fid)
    end.
    { unfold entries_for. apply list_elem_of_In, List.filter_In. split.
      - apply list_elem_of_In, elem_of_map_to_list. simpl. apply lookup_insert_eq.
      - simpl. by apply bool_decide_eq_true. }
    destruct (entries_for _ fid) as [|a l]; [by apply elem_of_nil in Hin|].
    simpl in *. lia.
  - intros env prompt Hnone. unfold Service.executeFeature, Service.executeFeature_enter.
    rewrite bool_decide_false by (rewrite Hnone; by intros [? ?]). simpl.
    destruct (Service.executeFeature_try _ _ _ _ _) as [r s2] eqn:Htry.
    destruct r; simpl; try rewrite executeFeature_catch_runningFeatures;
      apply lookup_delete_eq.
  - unfold Service.stopFeature.
    destruct (Service.runningFeatures s !! fid) eqn:E; simpl; [|done].
    apply lookup_delete_eq.
Qed.

(** ** Plan approval table *)

(** C7 as amended. [waitForPlanApproval] never rejects: it stores the
    new waiter under the feature id and returns its pending promise. A waiter
    already stored for the feature is replaced; its promise is left as it was,
    neither resolved nor rejected. The table holds at most one waiter per
    feature before and after. *)
Theorem approval_waiter_replaces_earlier_one (s : Service.State) (fid path : string) :
  let p := fst (Service.waitForPlanApproval s fid path) in
  let s' := snd (Service.waitForPlanApproval s fid path) in
  Service.pendingApprovals s' !! fid
    = Some {| Service.promise := p; Service.pa_featureId := fid;
              Service.pa_projectPath := path |}
  /\ Service.approvals s' !! p = Some Service.Waiting
  /\ (forall q, q <> p -> Service.approvals s' !! q = Service.approvals s !! q)
  /\ (forall w, Service.pendingApprovals s !! fid = Some w ->
        Service.approvals s !! Service.promise w = Some Service.Waiting ->
        Service.approvals s' !! Service.promise w = Some Service.Waiting
        /\ Service.pendingApprovals s' !! fid <> Some w)
  /\ (forall k, k <> fid ->
        Service.pendingApprovals s' !! k = Service.pendingApprovals s !! k)
  /\ (length (waiters_for s fid) <= 1)%nat
  /\ length (waiters_for s' fid) = 1%nat.
Proof.
  intros p s'. subst p s'. unfold Service.waitForPlanApproval. simpl.
  assert (Hold : forall q, q <> length (Service.approvals s) ->
            (Service.approvals s ++ [Service.Waiting]) !! q = Service.approvals s !! q).
  { intros q Hq. destruct (decide (q < length (Service.approvals s))%nat).
    - by rewrite lookup_app_l.
    - rewrite lookup_app_r by lia. rewrite (lookup_ge_None_2 (Service.approvals s)) by lia.
      destruct (q - length (Service.approvals s))%nat eqn:E; [lia|done]. }
  assert (Hle : forall st, (length (waiters_for st fid) <= 1)%nat).
  { intros st. unfold waiters_for.
    pose proof (NoDup_fst_map_to_list (Service.pendingApprovals st)) as Hnd.
    induction (map_to_list (Service.pendingApprovals st)) as [|[k v] l IH]; simpl; [lia|].
    simpl in Hnd. apply NoDup_cons in Hnd as [Hk Hnd]. specialize (IH Hnd).
    case_bool_decide as Hkf; simpl in *; [|lia]. subst k.
    assert (List.filter (fun kv : string * Service.PendingApproval =>
                           bool_decide (kv.1 = fid)) l = []) as ->; [|simpl; lia].
    clear IH Hnd. induction l as [|[k' v'] l IHl]; simpl; [done|].
    case_bool_decide as Hk'; simpl in *.
    - subst. exfalso. apply Hk. left.
    - apply IHl. intros Hin. apply Hk. by right. }
  split_and!.
  - apply lookup_insert_eq.
  - rewrite lookup_app_r by lia. by rewrite Nat.sub_diag.
  - exact Hold.
  - intros w Hw Hwait.
    assert (Hlt : (Service.promise w < length (Service.approvals s))%nat)
      by (eapply lookup_lt_Some; exact Hwait).
    split.
    + rewrite Hold by lia. exact Hwait.
    + rewrite lookup_insert_eq. intros [= Heq]. rewrite <- Heq in Hlt. simpl in Hlt. lia.
  - intros k Hk. by rewrite lookup_insert_ne.
  - apply Hle.
  - pose proof (Hle (snd (Service.waitForPlanApproval s fid path))) as H1.
    unfold Service.waitForPlanApproval in H1. simpl in H1.
    match goal with |- length ?l = 1%nat =>
      assert (Hin : (fid, {| Service.promise := length (Service.approvals s);
                             Service.pa_featureId := fid;
                             Service.pa_projectPath := path |}) ∈ l)
    end.
    { unfold waiters_for. apply list_elem_of_In, List.filter_In. split.
      - apply list_elem_of_In, elem_of_map_to_list. simpl. apply lookup_insert_eq.
      - simpl. by apply bool_decide_eq_true. }
    destruct (waiters_for _ fid) as [|a l]; [by apply elem_of_nil in Hin|].
    simpl in *. lia.
Qed.

Lemma second_approval_waiter_is_not_rejected :
  Service.pendingApprovals Examples.waiting_once !! "f1"
    = Some {| Service.promise := 0; Service.pa_featureId := "f1";
              Service.pa_projectPath := "/p" |}
  /\ Service.approvals Examples.waiting_once !! 0 = Some Service.Waiting
  /\ fst (Service.waitForPlanApproval Examples.waiting_once "f1" "/p") = 1
  /\ Service.approvals
       (snd (Service.waitForPlanApproval Examples.waiting_once "f1" "/p")) !! 1
     = Some Service.Waiting
  /\ Service.pendingApprovals
       (snd (Service.waitForPlanApproval Examples.waiting_once "f1" "/p")) !! "f1"
     = Some {| Service.promise := 1; Service.pa_featureId := "f1";
               Service.pa_projectPath := "/p" |}
  /\ Service.approvals
       (snd (Service.waitForPlanApproval Examples.waiting_once "f1" "/p")) !! 0
     = Some Service.Waiting.
Proof. vm_compute. repeat split. Qed.

Lemma updateFeaturePlanSpec_lookup fs path fid upd now feature :
  fs !! (path, fid) = Some feature ->
  exists p,
    Store.updateFeaturePlanSpec fs path fid upd now !! (path, fid)
      = Some (Store.with_planSpec feature p now)
    /\ Plan.status p
       = default (Plan.status (default (Plan.initial None) (Store.planSpec feature)))
           (Plan.u_status upd)
    /\ Plan.reviewedByUser p
       = default (Plan.reviewedByUser
                    (default (Plan.initial None) (Store.planSpec feature)))
           (Plan.u_reviewedByUser upd)
    /\ Plan.approvedAt p
       = default (Plan.approvedAt
                    (default (Plan.initial None) (Store.planSpec feature)))
           (Plan.u_approvedAt upd)
    /\ Plan.content p
       = default (Plan.content
                    (default (Plan.initial None) (Store.planSpec feature)))
           (Plan.u_content upd).
Proof.
  intros Hf. unfold Store.updateFeaturePlanSpec. rewrite Hf.
  destruct (Plan.taskStateVersion _); destruct (Plan.u_content upd) as [[c|]|] eqn:Ec;
    simpl; repeat (case_match; simpl);
    (eexists; split; [apply lookup_insert_eq|]); simpl; rewrite ?Ec; done.
Qed.

(** C10 as amended. With no waiter stored for the feature,
    [resolvePlanApproval] fails with 'No pending approval' and changes nothing
    unless recovery applies (a project path was given and the stored plan spec is
    'generated'). When it applies the call succeeds: on approve the plan spec is
    stored as approved and [executeFeature] is started with the continuation
    prompt, which registers the feature unless it is already registered as
    running (then that start is rejected and nothing restarts); on reject the
    plan spec is stored as rejected, the feature status becomes 'backlog' and
    [plan_rejected] is emitted. *)
Theorem resolve_approval_without_waiter
    (s : Service.State) (fid : string) (approved : bool)
    (editedPlan feedback projectPathFromClient : option string)
    (now : Z) (stamp : string) :
  Service.pendingApprovals s !! fid = None ->
  let r := fst (Service.resolvePlanApproval s fid approved editedPlan feedback
                  projectPathFromClient now stamp) in
  let s' := snd (Service.resolvePlanApproval s fid approved editedPlan feedback
                   projectPathFromClient now stamp) in
  match recoverable s fid projectPathFromClient with
  | None =>
      r = {| Service.success := false;
             Service.response_error := Some ("No pending approval for feature " +:+ fid) |}
      /\ s' = s
  | Some (path, feature, ps) =>
      r = {| Service.success := true; Service.response_error := None |}
      /\ Service.pendingApprovals s' = Service.pendingApprovals s
      /\ exists feature' ps',
           Service.files s' !! (path, fid) = Some feature'
           /\ Store.planSpec feature' = Some ps'
           /\ Plan.reviewedByUser ps' = true
           /\ if approved then
                Plan.status ps' = Plan.approved
                /\ Plan.approvedAt ps' = Some stamp
                /\ Plan.content ps' = js_or editedPlan (Plan.content ps)
                /\ Store.status feature' = Store.status feature
                /\ Service.events s' = Service.events s
                /\ match Service.runningFeatures s !! fid with
                   | None =>
                       Service.launches s'
                       = Service.launches s
                         ++ [{| Service.l_projectPath := path;
                                Service.l_featureId := fid;
                                Service.l_useWorktrees := true;
                                Service.l_isAutoMode := false;
                                Service.l_continuationPrompt :=
                                  Some (Service.continuationPromptFor
                                          (default "" (js_or editedPlan (Plan.content ps)))
                                          feedback) |}]
                       /\ is_Some (Service.runningFeatures s' !! fid)
                   | Some _ =>
                       Service.launches s' = Service.launches s
                       /\ Service.runningFeatures s' = Service.runningFeatures s
                   end
              else
                Plan.status ps' = Plan.rejected
                /\ Store.status feature' = "backlog"
                /\ Service.events s'
                   = Service.events s ++ [Service.plan_rejected fid path feedback]
                /\ Service.launches s' = Service.launches s
                /\ Service.runningFeatures s' = Service.runningFeatures s
  end.
Proof.
  intros Hnone r s'. subst r s'.
  unfold Service.resolvePlanApproval, Service.recover, recoverable. rewrite Hnone.
  destruct projectPathFromClient as [path|]; simpl; [|done].
  unfold Store.loadFeature.
  destruct (truthy path) eqn:Hpath; simpl.
  2:{ destruct (Service.files s !! (path, fid)) as [feature|]; simpl; [|done].
      destruct (Store.planSpec feature); simpl; done. }
  destruct (Service.files s !! (path, fid)) as [feature|] eqn:Hload; simpl; [|done].
  destruct (Store.planSpec feature) as [ps|] eqn:Hps; simpl; [|done].
  case_bool_decide as Hgen; simpl; [|done].
  destruct approved; simpl.
  - match goal with |- context [Store.updateFeaturePlanSpec ?fs ?p ?f ?u ?n] =>
      destruct (updateFeaturePlanSpec_lookup fs p f u n feature Hload)
        as (p' & Hl & Hst & Hrev & Happ & Hcont)
    end.
    simpl in *.
    unfold Service.launch_executeFeature, Service.executeFeature_enter. simpl.
    destruct (Service.runningFeatures s !! fid) as [rf|] eqn:Hrun.
    + rewrite bool_decide_true by eauto. simpl.
      split_and!; try done. eexists _, _. split; [exact Hl|]. simpl.
      split_and!; done.
    + rewrite bool_decide_false by (by intros [? ?]). simpl.
      split_and!; try done. eexists _, _. split; [exact Hl|]. simpl.
      split_and!; try done. rewrite lookup_insert_eq. eauto.
  - match goal with |- context [Store.updateFeaturePlanSpec ?fs ?p ?f ?u ?n] =>
      destruct (updateFeaturePlanSpec_lookup fs p f u n feature Hload)
        as (p' & Hl & Hst & Hrev & Happ & Hcont)
    end.
    simpl in *.
    split_and!; try done.
    unfold Store.updateFeatureStatus. rewrite Hl. simpl.
    eexists _, _. split; [apply lookup_insert_eq|]. simpl. split_and!; done.
Qed.

Lemma resolve_approval_witness :
  Service.pendingApprovals Examples.plan_on_disk !! "f1" = None
  /\ fst (Service.resolvePlanApproval Examples.plan_on_disk "f1" true None None
            (Some "/p") 7 "t")
     = {| Service.success := true; Service.response_error := None |}
  /\ Service.launches
       (snd (Service.resolvePlanApproval Examples.plan_on_disk "f1" true None None
               (Some "/p") 7 "t"))
     = [{| Service.l_projectPath := "/p"; Service.l_featureId := "f1";
           Service.l_useWorktrees := true; Service.l_isAutoMode := false;
           Service.l_continuationPrompt :=
             Some (Service.continuationPromptFor "the plan" None) |}].
Proof.
  assert (Hnone : Service.pendingApprovals Examples.plan_on_disk !! "f1" = None)
    by (vm_compute; reflexivity).
  pose proof (resolve_approval_without_waiter Examples.plan_on_disk "f1" true None None
                (Some "/p") 7 "t" Hnone) as H.
  cbv zeta in H.
  assert (Hrec : recoverable Examples.plan_on_disk "f1" (Some "/p")
                 = Some ("/p", Examples.feature_with_plan, Examples.generated_plan))
    by (vm_compute; reflexivity).
  rewrite Hrec in H.
  assert (Hrun : Service.runningFeatures Examples.plan_on_disk !! "f1" = None)
    by (vm_compute; reflexivity).
  rewrite Hrun in H.
  destruct H as (Hr & _ & f' & ps' & _ & _ & _ & _ & _ & _ & _ & _ & Hl & _).
  split_and!; [exact Hnone | exact Hr | exact Hl].
Defined.

Lemma approval_of_running_feature_restarts_nothing :
  Service.pendingApprovals Examples.plan_on_disk_running !! "f1" = None
  /\ recoverable Examples.plan_on_disk_running "f1" (Some "/p")
     = Some ("/p", Examples.feature_with_plan, Examples.generated_plan)
  /\ is_Some (Service.runningFeatures Examples.plan_on_disk_running !! "f1")
  /\ fst (Service.resolvePlanApproval Examples.plan_on_disk_running "f1" true None None
            (Some "/p") 7 "t")
     = {| Service.success := true; Service.response_error := None |}
  /\ Service.launches
       (snd (Service.resolvePlanApproval Examples.plan_on_disk_running "f1" true None
               None (Some "/p") 7 "t"))
     = []
  /\ Service.runningFeatures
       (snd (Service.resolvePlanApproval Examples.plan_on_disk_running "f1" true None
               None (Some "/p") 7 "t"))
     = Service.runningFeatures Examples.plan_on_disk_running.
Proof. vm_compute. repeat split. eauto. Qed.

(** ** Plan spec store *)

Lemma attempt_body_returned w updater path fid now a fs p v fs' :
  Store.attempt_body w updater path fid now a fs = Store.Returned p v fs' ->
  exists feature u,
    Store.before_read w a fs !! (path, fid) = Some feature
    /\ updater (default (Plan.initial (Some 0%Z)) (Store.planSpec feature)) = Some u
    /\ v = Store.stored_version (Store.before_read w a fs) path fid
    /\ p = Plan.set_taskStateVersion u (Some (v + 1)%Z)
    /\ Store.stored_version fs' path fid = (v + 1)%Z.
Proof.
  unfold Store.attempt_body.
  destruct (Store.before_read w a fs !! (path, fid)) as [feature|] eqn:Hread; [|done].
  destruct (updater _) as [u|] eqn:Hu; [|done].
  destruct (Store.write_ok w a); [|done].
  match goal with |- context [Store.before_verify w a ?fs3 !! _] =>
    destruct (Store.before_verify w a fs3 !! (path, fid)) as [verified|] eqn:Hver; [|done]
  end.
  case_decide as Hmatch; [|done]. intros [= <- <- <-].
  exists feature, u. split_and!; try done.
  - unfold Store.stored_version. rewrite Hread. simpl.
    destruct (Store.planSpec feature); done.
  - unfold Store.stored_version. rewrite Hver. simpl. rewrite Hmatch. done.
Qed.

Lemma retry_loop_returned w updater path fid now left a fs p v fs' :
  Store.retry_loop w updater path fid now left a fs = (Some (p, v), fs') ->
  exists attempt fs0,
    (a <= attempt < a + left)%nat
    /\ Store.attempt_body w updater path fid now attempt fs0 = Store.Returned p v fs'.
Proof.
  revert a fs. induction left as [|left IH]; intros a fs; simpl; [done|].
  destruct (Store.attempt_body w updater path fid now a fs) as [p0 v0 fs0|fs0] eqn:E.
  - intros [= <- <- <-]. exists a, fs. split; [lia|done].
  - intros H. apply IH in H as (a' & fs1 & Ha & H). exists a', fs1. split; [lia|done].
Qed.

Lemma quiet_attempt updater path fid now a fs :
  match Store.attempt_body Store.quiet updater path fid now a fs with
  | Store.Returned p v fs' =>
      v = Store.stored_version fs path fid
      /\ Plan.taskStateVersion p = Some (v + 1)%Z
      /\ Store.stored_version fs' path fid = (v + 1)%Z
  | Store.Retry fs' => fs' = fs
  end.
Proof.
  destruct (Store.attempt_body Store.quiet updater path fid now a fs)
    as [p v fs'|fs'] eqn:E.
  - apply attempt_body_returned in E as (f & u & Hf & Hu & Hv & Hp & Hs).
    simpl in *. subst. done.
  - unfold Store.attempt_body in E. simpl in E.
    destruct (fs !! (path, fid)) as [feature|]; [|by simplify_eq].
    destruct (updater _) as [u|]; [|by simplify_eq].
    rewrite lookup_insert_eq in E. simpl in E.
    case_decide as Hm; [done|]. by destruct Hm.
Qed.

Lemma quiet_retry_loop updater path fid now left a fs :
  match Store.retry_loop Store.quiet updater path fid now left a fs with
  | (Some (p, v), fs') =>
      v = Store.stored_version fs path fid
      /\ Plan.taskStateVersion p = Some (v + 1)%Z
      /\ Store.stored_version fs' path fid = (v + 1)%Z
  | (None, fs') => fs' = fs
  end.
Proof.
  revert a fs. induction left as [|left IH]; intros a fs; simpl; [done|].
  pose proof (quiet_attempt updater path fid now a fs) as H.
  destruct (Store.attempt_body Store.quiet updater path fid now a fs) as [p v fs'|fs'].
  - done.
  - subst fs'. apply IH.
Qed.

Lemma sequential_updates_increase path fid now updaters fs :
  Forall (fun v => (Store.stored_version fs path fid < v)%Z)
    (Store.sequential_updates path fid now updaters fs)
  /\ StronglySorted Z.lt (Store.sequential_updates path fid now updaters fs).
Proof.
  revert fs. induction updaters as [|u rest IH]; intros fs; simpl.
  - split; constructor.
  - unfold Store.updatePlanSpecWithRetry.
    pose proof (quiet_retry_loop u path fid now 5 0 fs) as H.
    destruct (Store.retry_loop Store.quiet u path fid now 5 0 fs) as [[[p v]|] fs'];
      simpl.
    + destruct H as (-> & _ & Hs). destruct (IH fs') as [IH1 IH2].
      rewrite Hs in *. split.
      * constructor; [lia|]. eapply Forall_impl; [exact IH1|]. simpl. intros; lia.
      * constructor; done.
    + subst fs'. apply IH.
Qed.



(** ** The dependency scheduler: what the loops keep true *)

Import Task Scheduler.

Lemma set_status_ids ts i st : map id (set_status ts i st) = map id ts.
Proof.
  unfold set_status. apply list_eq. intros k. rewrite !list_lookup_fmap.
  destruct (decide (i = k)) as [->|Hne].
  - rewrite list_lookup_alter_eq. destruct (ts !! k); simpl; reflexivity.
  - by rewrite list_lookup_alter_ne.
Qed.

Lemma set_status_length ts i st : length (set_status ts i st) = length ts.
Proof. unfold set_status. apply length_alter. Qed.

Lemma set_status_lookup_ne ts i j st :
  i <> j -> set_status ts i st !! j = ts !! j.
Proof. intros. unfold set_status. by apply list_lookup_alter_ne. Qed.

Lemma set_status_lookup_eq ts i st :
  set_status ts i st !! i = (fun t => with_status t st) <$> ts !! i.
Proof. unfold set_status. apply list_lookup_alter_eq. Qed.

Lemma taskMap_index_ids ts1 ts2 k :
  map id ts1 = map id ts2 -> taskMap_index ts1 k = taskMap_index ts2 k.
Proof.
  revert ts2. induction ts1 as [|t ts1 IH]; intros [|t2 ts2] H; simpl in *; try done.
  injection H as Hid Hrest. rewrite (IH _ Hrest), Hid. done.
Qed.

Lemma taskMap_index_Some ts k i :
  taskMap_index ts k = Some i -> exists t, ts !! i = Some t /\ id t = k.
Proof.
  revert i. induction ts as [|t ts IH]; intros i; simpl; [done|].
  destruct (taskMap_index ts k) as [j|] eqn:E.
  - intros [= <-]. simpl. by apply IH.
  - case_bool_decide; [|done]. intros [= <-]. simpl. eauto.
Qed.

Lemma taskMap_index_None ts k :
  taskMap_index ts k = None -> k ∉ map id ts.
Proof.
  induction ts as [|t ts IH]; simpl; [intros _; apply not_elem_of_nil|].
  destruct (taskMap_index ts k) eqn:E; [done|].
  case_bool_decide as Hk; [done|]. intros _.
  apply not_elem_of_cons. split; [congruence | by apply IH].
Qed.

Lemma taskMap_index_NoDup ts i t :
  NoDup (map id ts) -> ts !! i = Some t -> taskMap_index ts (id t) = Some i.
Proof.
  revert i. induction ts as [|t0 ts IH]; intros i Hnd Hi; [done|].
  simpl in Hnd. apply NoDup_cons in Hnd as [Hnotin Hnd]. simpl.
  destruct i as [|i]; simpl in Hi.
  - injection Hi as ->.
    destruct (taskMap_index ts (id t)) as [j|] eqn:E.
    + apply taskMap_index_Some in E as (t' & Ht' & Hid). exfalso. apply Hnotin.
      rewrite <- Hid. apply list_elem_of_fmap. exists t'. split; [done|].
      by eapply list_elem_of_lookup_2.
    + by rewrite bool_decide_true.
  - by rewrite (IH i Hnd Hi).
Qed.

Lemma isReady_true ts t :
  isReady ts t = true <->
  status t = pending
  /\ forall d, d ∈ default [] (dependsOn t) ->
       exists dt, taskMap_get ts d = Some dt /\ status dt = completed.
Proof.
  unfold isReady. rewrite andb_true_iff, bool_decide_eq_true, forallb_forall.
  split; intros [Hp Hd]; (split; [done|]).
  - intros d Hin. apply list_elem_of_In in Hin. specialize (Hd d Hin).
    destruct (taskMap_get ts d) as [dt|]; [|done].
    apply bool_decide_eq_true in Hd. eauto.
  - intros d Hin. apply list_elem_of_In in Hin.
    destruct (Hd d Hin) as (dt & -> & Hc). by apply bool_decide_eq_true.
Qed.

(** Changing the status of a task that is not completed keeps every other
    ready task ready. *)
Lemma isReady_set_status ts j st tj t :
  ts !! j = Some tj -> status tj <> completed ->
  isReady ts t = true -> isReady (set_status ts j st) t = true.
Proof.
  intros Hj Hnc. rewrite !isReady_true. intros [Hp Hd]. split; [done|].
  intros d Hin. destruct (Hd d Hin) as (dt & Hget & Hc). exists dt. split; [|done].
  unfold taskMap_get in *.
  rewrite (taskMap_index_ids _ ts) by apply set_status_ids.
  destruct (taskMap_index ts d) as [jd|]; simpl in *; [|done].
  destruct (decide (j = jd)) as [->|Hne].
  - rewrite Hj in Hget. congruence.
  - by rewrite set_status_lookup_ne.
Qed.

Lemma await_inv w queue r : sched_inv queue r -> sched_inv queue (await w r).
Proof.
  intros [H1 H2 H3 H4 H5]. split; simpl; try done.
  intros k Hk. apply H4. apply elem_of_difference in Hk. tauto.
Qed.

Lemma ready_at_true ts i :
  ready_at ts i = true <-> exists t, ts !! i = Some t /\ isReady ts t = true.
Proof.
  unfold ready_at. destruct (ts !! i) as [t|]; split.
  - eauto.
  - by intros (t' & [= <-] & H).
  - done.
  - by intros (t' & ? & _).
Qed.

Lemma scheduleTask_inv w i rest r :
  hadFailure r = false ->
  sched_inv (i :: rest) r -> sched_inv rest (scheduleTask w r i).
Proof.
  intros Hnf [H1 H2 H3 H4 H5].
  specialize (H2 Hnf). apply Forall_cons in H2 as [Hi Hrest].
  apply NoDup_cons in H3 as [Hnotin Hnd].
  apply ready_at_true in Hi as (ti & Hti & Hready).
  pose proof Hready as Hready'. apply isReady_true in Hready' as [Hpend Hdeps].
  unfold scheduleTask. apply await_inv. simpl.
  assert (Hid : default "" (id <$> set_status (tasks r) i in_progress !! i) = id ti).
  { rewrite set_status_lookup_eq, Hti. done. }
  rewrite Hid.
  split; simpl.
  - by rewrite set_status_ids.
  - intros _. apply Forall_forall. intros q Hq.
    rewrite Forall_forall in Hrest. specialize (Hrest q Hq).
    apply ready_at_true in Hrest as (tq & Htq & Hrq).
    apply ready_at_true. exists tq. split.
    + rewrite set_status_lookup_ne; [done|]. intros ->. done.
    + eapply isReady_set_status; [exact Hti | congruence | done].
  - done.
  - intros k Hk. apply elem_of_union in Hk as [Hk|Hk].
    + apply elem_of_singleton in Hk. subst k.
      exists i, (with_status ti in_progress).
      rewrite (taskMap_index_ids _ (tasks r)) by apply set_status_ids.
      split_and!; [by apply taskMap_index_NoDup | | done].
      by rewrite set_status_lookup_eq, Hti.
    + apply elem_of_difference in Hk as [Hk _].
      destruct (H4 k Hk) as (j & t & Hj & Ht & Hst). exists j, t.
      rewrite (taskMap_index_ids _ (tasks r)) by apply set_status_ids.
      split_and!; [done | | done].
      rewrite set_status_lookup_ne; [done|]. intros ->. congruence.
  - apply Forall_app. split; [done|]. constructor; [|constructor].
    exists ti. simpl. split_and!; done.
Qed.

Lemma scheduleTask_hadFailure w r i : hadFailure (scheduleTask w r i) = hadFailure r.
Proof. reflexivity. Qed.

Lemma fill_loop_inv w cap queue r queue' r' :
  sched_inv queue r -> fill_loop w cap queue r = (queue', r') ->
  sched_inv queue' r' /\ hadFailure r' = hadFailure r.
Proof.
  revert r. induction queue as [|i rest IH]; intros r Hinv; simpl.
  - intros [= <- <-]. done.
  - destruct (negb (hadFailure r)) eqn:Hnf; simpl.
    + case_bool_decide as Hcap; simpl.
      * intros H. apply negb_true_iff in Hnf.
        apply IH in H as [H1 H2]; [|by apply scheduleTask_inv].
        split; [done|]. by rewrite H2.
      * intros [= <- <-]. done.
    + intros [= <- <-]. done.
Qed.

Lemma race_winner_in w r :
  size (inFlight r) <> 0 -> fst (race w r) ∈ inFlight r.
Proof.
  intros Hsize. unfold race. simpl.
  assert (Hlen : length (elements (inFlight r)) <> 0) by done.
  apply elem_of_elements.
  apply list_elem_of_In, nth_In. apply Nat.mod_upper_bound. done.
Qed.

Lemma refill_inv all flying i rest queue prefix :
  all = prefix ++ rest -> length prefix = i ->
  NoDup queue ->
  Forall (fun q => ready_at all q = true) queue ->
  NoDup (refill all flying i rest queue)
  /\ Forall (fun q => ready_at all q = true) (refill all flying i rest queue).
Proof.
  revert i queue prefix. induction rest as [|t rest IH]; intros i queue prefix Hall Hlen Hnd Hready;
    simpl; [done|].
  apply (IH (S i) _ (prefix ++ [t])).
  - by rewrite <- app_assoc.
  - rewrite length_app. simpl. lia.
  - destruct (isReady all t && _ && _) eqn:E; [|done].
    apply andb_true_iff in E as [E _]. apply andb_true_iff in E as [_ E].
    apply negb_true_iff, bool_decide_eq_false in E.
    apply NoDup_app. split_and!; [done | | apply NoDup_singleton].
    intros x Hx Hx'. apply list_elem_of_singleton in Hx'. by subst.
  - destruct (isReady all t && _ && _) eqn:E; [|done].
    apply andb_true_iff in E as [E _]. apply andb_true_iff in E as [E _].
    apply Forall_app. split; [done|]. constructor; [|constructor].
    apply ready_at_true. exists t. split; [|done].
    subst all. rewrite lookup_app_r by lia. by rewrite Hlen, Nat.sub_diag.
Qed.

Lemma set_status_inv_flight queue r j tj st k :
  sched_inv queue r ->
  k ∈ inFlight r -> taskMap_index (tasks r) k = Some j -> tasks r !! j = Some tj ->
  forall k', k' ∈ inFlight r ∖ {[k]} ->
    exists j' t', taskMap_index (set_status (tasks r) j st) k' = Some j'
                  /\ set_status (tasks r) j st !! j' = Some t'
                  /\ status t' = in_progress.
Proof.
  intros [H1 H2 H3 H4 H5] Hk Hj Htj k' Hk'.
  apply elem_of_difference in Hk' as [Hk' Hne].
  destruct (H4 k' Hk') as (j' & t' & Hj' & Ht' & Hst'). exists j', t'.
  rewrite (taskMap_index_ids _ (tasks r)) by apply set_status_ids.
  split_and!; [done | | done].
  rewrite set_status_lookup_ne; [done|]. intros ->.
  apply taskMap_index_Some in Hj as (t1 & Ht1 & Hid1).
  apply taskMap_index_Some in Hj' as (t2 & Ht2 & Hid2).
  apply Hne. apply elem_of_singleton. congruence.
Qed.

Lemma cycle_not_ready C queue r i :
  NoDup (map id (tasks r)) -> cycle_inv C queue r -> i ∈ C ->
  ready_at (tasks r) i = false.
Proof.
  intros Hnd HC Hi. destruct (HC i Hi) as (_ & t & Ht & _ & d & j & tj & Hd & Hj & Htj & Hid).
  destruct (HC j Hj) as (_ & tj' & Htj' & Hpj & _). simplify_eq.
  destruct (ready_at (tasks r) i) eqn:E; [|done]. exfalso.
  apply ready_at_true in E as (t' & Ht' & Hr). simplify_eq.
  apply isReady_true in Hr as [_ Hr]. destruct (Hr _ Hd) as (dt & Hget & Hc).
  unfold taskMap_get in Hget. rewrite (taskMap_index_NoDup _ j tj) in Hget by done.
  simpl in Hget. congruence.
Qed.

Lemma await_cycle w C queue r : cycle_inv C queue r -> cycle_inv C queue (await w r).
Proof. done. Qed.

Lemma set_status_cycle C queue queue' r j st r' :
  cycle_inv C queue r -> j ∉ C -> (forall i, i ∈ C -> i ∉ queue') ->
  tasks r' = set_status (tasks r) j st ->
  cycle_inv C queue' r'.
Proof.
  intros HC Hj Hq Ht i Hi. split; [by apply Hq|].
  destruct (HC i Hi) as (_ & t & Hti & Hp & d & k & tk & Hd & Hk & Htk & Hid).
  exists t. rewrite Ht. split_and!; [|done|].
  - rewrite set_status_lookup_ne; [done|]. by intros ->.
  - exists d, k, tk. split_and!; try done.
    rewrite set_status_lookup_ne; [done|]. by intros ->.
Qed.

Lemma scheduleTask_cycle w C i rest r :
  cycle_inv C (i :: rest) r -> cycle_inv C rest (scheduleTask w r i).
Proof.
  intros HC. unfold scheduleTask. apply await_cycle.
  eapply (set_status_cycle C (i :: rest) rest r i in_progress).
  - done.
  - intros Hi. destruct (HC i Hi) as [Hn _]. apply Hn. left.
  - intros k Hk Hin. destruct (HC k Hk) as [Hn _]. apply Hn. by right.
  - done.
Qed.

Lemma fill_loop_cycle w cap C queue r queue' r' :
  cycle_inv C queue r -> fill_loop w cap queue r = (queue', r') ->
  cycle_inv C queue' r'.
Proof.
  revert r. induction queue as [|i rest IH]; intros r HC; simpl.
  - intros [= <- <-]. done.
  - destruct (negb (hadFailure r) && _); [|intros [= <- <-]; done].
    intros H. eapply IH; [|exact H]. by apply scheduleTask_cycle.
Qed.

Lemma refill_elem all flying i rest queue x :
  forall prefix, all = prefix ++ rest -> length prefix = i ->
  x ∈ refill all flying i rest queue -> x ∈ queue \/ ready_at all x = true.
Proof.
  revert i queue. induction rest as [|t rest IH]; intros i queue prefix Hall Hlen; simpl;
    [by left|].
  intros Hx. apply (IH (S i) _ (prefix ++ [t])) in Hx.
  - destruct Hx as [Hx|Hx]; [|by right].
    destruct (isReady all t && _ && _) eqn:E; [|by left].
    apply elem_of_app in Hx as [Hx|Hx]; [by left|].
    apply list_elem_of_singleton in Hx. subst x. right.
    apply andb_true_iff in E as [E _]. apply andb_true_iff in E as [E _].
    apply ready_at_true. exists t. split; [|done].
    subst all. rewrite lookup_app_r by lia. by rewrite Hlen, Nat.sub_diag.
  - by rewrite <- app_assoc.
  - rewrite length_app. simpl. lia.
Qed.

Lemma fill_loop_break w cap queue r queue' r' :
  (0 < cap)%nat -> fill_loop w cap queue r = (queue', r') ->
  size (inFlight r') = 0%nat -> hadFailure r' = false -> queue' = [].
Proof.
  intros Hcap. revert r. induction queue as [|i rest IH]; intros r; simpl.
  - by intros [= <- <-].
  - destruct (negb (hadFailure r)) eqn:Hnf; simpl.
    + case_bool_decide as Hc; simpl; [by apply IH|].
      intros [= <- <-] Hs. lia.
    + intros [= <- <-] _ Hf. rewrite Hf in Hnf. done.
Qed.

Lemma main_loop_exit w cap C fuel queue r e :
  (0 < cap)%nat ->
  sched_inv queue r -> cycle_inv C queue r ->
  main_loop w cap fuel queue r = Some e -> exit_ok C e.
Proof.
  intros Hcap. revert queue r. induction fuel as [|fuel IH]; intros queue r Hinv HC; simpl;
    [done|].
  destruct (aborted w (clock r));
    [intros [= <-]; split; [apply Hinv | by exists queue]|].
  destruct (fill_loop w cap queue r) as [queue1 r1] eqn:Hfill.
  pose proof (fill_loop_inv _ _ _ _ _ _ Hinv Hfill) as [Hinv1 Hf1].
  pose proof (fill_loop_cycle _ _ _ _ _ _ _ HC Hfill) as HC1.
  case_bool_decide as Hsize.
  - intros [= <-]. simpl. split_and!; [done | done | | ].
    + by apply size_empty_inv, leibniz_equiv in Hsize.
    + intros Hnf. eapply fill_loop_break; done.
  - pose proof (race_winner_in w r1 Hsize) as Hk. unfold race in *. simpl in Hk |- *.
    set (k := nth (winner w (clock r1) `mod` length (elements (inFlight r1)))
                (elements (inFlight r1)) "") in *.
    destruct (inv_flight _ _ Hinv1 k Hk) as (j & tj & Hj & Htj & Hstj).
    assert (HjC : j ∉ C).
    { intros HjC. destruct (HC1 j HjC) as (_ & t & Ht & Hp & _). congruence. }
    rewrite Hj. destruct (outcome w (clock r1)) eqn:Hok.
    + (* the task completed *)
      apply IH.
      * destruct (hadFailure r1) eqn:Hnf; simpl.
        -- (* a failure was seen before: the queue is frozen *)
           destruct Hinv1 as [H1 H2 H3 H4 H5]. split; simpl; try done.
           ++ by rewrite set_status_ids.
           ++ intros k' Hk'. apply elem_of_difference in Hk' as [Hk' _].
              eapply (set_status_inv_flight queue1 r1 j tj completed k); try done.
        -- assert (Hinv2 : sched_inv queue1
                     {| tasks := set_status (tasks r1) j completed;
                        inFlight := inFlight r1 ∖ {[k]}; hadFailure := false;
                        clock := S (clock r1); events := events r1;
                        starts := starts r1 |}).
           { pose proof Hinv1 as [H1 H2 H3 H4 H5]. split; simpl; try done.
             - by rewrite set_status_ids.
             - intros _. specialize (H2 Hnf). apply Forall_forall. intros q Hq.
               rewrite Forall_forall in H2. specialize (H2 q Hq).
               apply ready_at_true in H2 as (tq & Htq & Hrq).
               apply ready_at_true. exists tq. split.
               + rewrite set_status_lookup_ne; [done|]. intros ->.
                 apply isReady_true in Hrq as [Hp _]. congruence.
               + eapply isReady_set_status; [exact Htj | congruence | done].
             - intros k' Hk'.
               eapply (set_status_inv_flight queue1 r1 j tj completed k); done. }
           destruct Hinv2 as [H1 H2 H3 H4 H5].
           edestruct (refill_inv (set_status (tasks r1) j completed)
                        (inFlight r1 ∖ {[k]} ∖ lost w (S (clock r1))) 0
                        (set_status (tasks r1) j completed) queue1 [])
             as [Hnd Hrd]; [done | done | done | by apply H2 |].
           split; simpl; try done.
           intros k' Hk'. apply H4. apply elem_of_difference in Hk'. tauto.
      * destruct (hadFailure r1) eqn:Hnf; simpl.
        -- eapply (set_status_cycle C queue1 queue1 r1 j completed); try done.
           intros i Hi. by destruct (HC1 i Hi).
        -- eapply (set_status_cycle C queue1 _ r1 j completed); try done.
           intros i Hi Hin.
           eapply (refill_elem _ _ 0 _ _ _ []) in Hin; [|done|done].
           destruct Hin as [Hin|Hin].
           ++ by destruct (HC1 i Hi).
           ++ assert (HC2 : cycle_inv C queue1
                       {| tasks := set_status (tasks r1) j completed;
                          inFlight := inFlight r1; hadFailure := false;
                          clock := clock r1; events := events r1;
                          starts := starts r1 |}).
              { eapply (set_status_cycle C queue1 queue1 r1 j completed); try done.
                intros i' Hi'. by destruct (HC1 i' Hi'). }
              assert (Hnd2 : NoDup (map id (set_status (tasks r1) j completed)))
                by (rewrite set_status_ids; apply Hinv1).
              pose proof (fun H => cycle_not_ready C queue1 _ i H HC2 Hi) as Hnr.
              simpl in Hnr. specialize (Hnr Hnd2). congruence.
    + (* the task failed *)
      apply IH.
      * destruct Hinv1 as [H1 H2 H3 H4 H5]. split; simpl; try done.
        -- by rewrite set_status_ids.
        -- intros k' Hk'. apply elem_of_difference in Hk' as [Hk' _].
           eapply (set_status_inv_flight queue1 r1 j tj failed k); try done.
      * simpl. eapply (set_status_cycle C queue1 queue1 r1 j failed); try done.
        intros i Hi. by destruct (HC1 i Hi).
Qed.

(** ** The dependency scheduler: start-up, termination and starts *)

Lemma mark_missing_ids ts : map id (mark_missing ts) = map id ts.
Proof.
  unfold mark_missing. generalize (has_missing ts). intros f.
  induction ts as [|t ts IH]; simpl; [done|].
  rewrite IH. by destruct (f t).
Qed.

Lemma initial_queue_NoDup ts : NoDup (initial_queue ts).
Proof.
  unfold initial_queue. apply NoDup_ListNoDup, List.NoDup_filter, List.seq_NoDup.
Qed.

Lemma initial_queue_ready ts i : i ∈ initial_queue ts <-> ready_at ts i = true.
Proof.
  unfold initial_queue. rewrite list_elem_of_In, filter_In, in_seq. split; [tauto|].
  intros H. split; [|done]. unfold ready_at in H.
  destruct (ts !! i) eqn:E; [|done]. apply lookup_lt_Some in E. lia.
Qed.

Lemma sched_inv_initial ts :
  NoDup (map id ts) -> sched_inv (initial_queue (tasks (initial_run ts))) (initial_run ts).
Proof.
  intros Hnd. split; simpl.
  - by rewrite mark_missing_ids.
  - intros _. apply Forall_forall. intros i. by rewrite initial_queue_ready.
  - apply initial_queue_NoDup.
  - intros k Hk. set_solver.
  - constructor.
Qed.

Lemma cycle_inv_initial ts C :
  NoDup (map id ts) -> cycle_among_pending ts C ->
  cycle_inv C (initial_queue (tasks (initial_run ts))) (initial_run ts).
Proof.
  intros Hnd [_ HC].
  assert (H0 : cycle_inv C [] (initial_run ts)).
  { intros i Hi. split; [set_solver|].
    destruct (HC i Hi) as (t & Ht & Hp & d & j & tj & Hd & Hj & Htj & Hid).
    exists t. split_and!; [done | done |].
    exists d, j. simpl. unfold mark_missing. rewrite list_lookup_fmap, Htj. simpl.
    eexists. split_and!; [done | done | done |].
    by destruct (has_missing ts tj). }
  intros i Hi. split; [|by destruct (H0 i Hi)].
  rewrite initial_queue_ready.
  rewrite (cycle_not_ready C [] (initial_run ts) i); [done | | done | done].
  simpl. by rewrite mark_missing_ids.
Qed.

(** *** Termination of the outer loop *)

Lemma filter_length_le {A} (f g : A -> bool) (l : list A) :
  (forall x, In x l -> f x = true -> g x = true) ->
  (length (List.filter f l) <= length (List.filter g l))%nat.
Proof.
  induction l as [|a l IH]; intros H; simpl; [lia|].
  assert (IH' := IH (fun x Hx => H x (or_intror Hx))).
  destruct (f a) eqn:Ef.
  - rewrite (H a (or_introl eq_refl) Ef). simpl. lia.
  - destruct (g a); simpl; lia.
Qed.

Lemma filter_length_lt {A} (f g : A -> bool) (l : list A) (x : A) :
  (forall y, In y l -> f y = true -> g y = true) ->
  In x l -> f x = false -> g x = true ->
  (length (List.filter f l) < length (List.filter g l))%nat.
Proof.
  induction l as [|a l IH]; intros H Hx Hf Hg; simpl; [done|].
  assert (Hle := filter_length_le f g l (fun y Hy => H y (or_intror Hy))).
  destruct Hx as [->|Hx].
  - rewrite Hf, Hg. simpl. lia.
  - assert (IH' := IH (fun y Hy => H y (or_intror Hy)) Hx Hf Hg).
    destruct (f a) eqn:Ef.
    + rewrite (H a (or_introl eq_refl) Ef). simpl. lia.
    + destruct (g a); simpl; lia.
Qed.

Lemma filter_length_disjoint {A} (f g : A -> bool) (l : list A) :
  (forall x, In x l -> f x = true -> g x = false) ->
  (length (List.filter f l) + length (List.filter g l) <= length l)%nat.
Proof.
  induction l as [|a l IH]; intros H; simpl; [lia|].
  assert (IH' := IH (fun x Hx => H x (or_intror Hx))).
  destruct (f a) eqn:Ef.
  - rewrite (H a (or_introl eq_refl) Ef). simpl. lia.
  - destruct (g a); simpl; lia.
Qed.

Lemma pending_outside_set_status ts queue queue' j st :
  st <> pending -> (forall x, x ∈ queue' -> x ∈ queue \/ x = j) ->
  (length (pending_outside (set_status ts j st) queue)
   <= length (pending_outside ts queue'))%nat.
Proof.
  intros Hst Hq. unfold pending_outside. rewrite set_status_length.
  apply filter_length_le. intros x _.
  destruct (decide (x = j)) as [->|Hne].
  - rewrite set_status_lookup_eq. destruct (ts !! j) as [tj|]; simpl; [|done].
    by case_bool_decide.
  - rewrite set_status_lookup_ne by done.
    destruct (ts !! x) as [t|]; [|done].
    intros [Hp Hn]%andb_true_iff. rewrite Hp. simpl.
    apply negb_true_iff, bool_decide_eq_false in Hn.
    apply negb_true_iff, bool_decide_eq_false. intros Hx.
    destruct (Hq x Hx); [done | done].
Qed.

Lemma size_difference_le (X Y : gset string) : (size (X ∖ Y) <= size X)%nat.
Proof. apply subseteq_size. intros x Hx. apply elem_of_difference in Hx. tauto. Qed.

Lemma passes_await w queue r : (passes_left queue (await w r) <= passes_left queue r)%nat.
Proof.
  unfold passes_left. simpl.
  pose proof (size_difference_le (inFlight r) (lost w (clock r))). lia.
Qed.

Lemma passes_scheduleTask w i rest r :
  (passes_left rest (scheduleTask w r i) <= passes_left (i :: rest) r)%nat.
Proof.
  unfold passes_left. simpl.
  pose proof (pending_outside_set_status (tasks r) rest (i :: rest) i in_progress) as Hp.
  set (tid := default "" (id <$> set_status (tasks r) i in_progress !! i)).
  pose proof (size_difference_le ({[tid]} ∪ inFlight r ∖ lost w (clock r))
                (lost w (S (clock r)))) as H1.
  pose proof (size_difference_le (inFlight r) (lost w (clock r))) as H2.
  pose proof (size_union_alt ({[tid]} : gset string) (inFlight r ∖ lost w (clock r))) as H3.
  pose proof (size_difference_le (inFlight r ∖ lost w (clock r)) {[tid]}) as H4.
  rewrite size_singleton in H3.
  assert (length (pending_outside (set_status (tasks r) i in_progress) rest)
          <= length (pending_outside (tasks r) (i :: rest)))%nat.
  { apply Hp; [done|]. intros x Hx. apply elem_of_cons in Hx. tauto. }
  lia.
Qed.

Lemma passes_fill_loop w cap queue r queue' r' :
  fill_loop w cap queue r = (queue', r') ->
  (passes_left queue' r' <= passes_left queue r)%nat.
Proof.
  revert r. induction queue as [|i rest IH]; intros r; simpl.
  - intros [= <- <-]. lia.
  - destruct (negb (hadFailure r) && _).
    + intros H. apply IH in H. pose proof (passes_scheduleTask w i rest r). lia.
    + intros [= <- <-]. lia.
Qed.

Lemma passes_refill all flying i rest queue :
  forall prefix, all = prefix ++ rest -> length prefix = i ->
  (length (refill all flying i rest queue)
   + length (pending_outside all (refill all flying i rest queue))
   <= length queue + length (pending_outside all queue))%nat.
Proof.
  revert i queue. induction rest as [|t rest IH]; intros i queue prefix Hall Hlen; simpl;
    [lia|].
  etrans; [apply (IH (S i) _ (prefix ++ [t]))|].
  - by rewrite <- app_assoc.
  - rewrite length_app. simpl. lia.
  - destruct (isReady all t && _ && _) eqn:E; [|lia].
    apply andb_true_iff in E as [[Hr Hq]%andb_true_iff _].
    apply negb_true_iff, bool_decide_eq_false in Hq.
    apply isReady_true in Hr as [Hp _].
    assert (Hi : all !! i = Some t).
    { subst all. rewrite lookup_app_r by lia. by rewrite Hlen, Nat.sub_diag. }
    rewrite length_app. simpl.
    assert (length (pending_outside all (queue ++ [i]))
            < length (pending_outside all queue))%nat; [|lia].
    unfold pending_outside. apply (filter_length_lt _ _ _ i).
    + intros y _. destruct (all !! y); [|done].
      intros [H1 H2]%andb_true_iff. rewrite H1. simpl.
      apply negb_true_iff, bool_decide_eq_false in H2.
      apply negb_true_iff, bool_decide_eq_false. set_solver.
    + apply in_seq. apply lookup_lt_Some in Hi. lia.
    + rewrite Hi. rewrite bool_decide_eq_true_2 by done. simpl.
      apply negb_false_iff, bool_decide_eq_true. set_solver.
    + rewrite Hi. rewrite bool_decide_eq_true_2 by done. simpl.
      by apply negb_true_iff, bool_decide_eq_false.
Qed.

Lemma main_loop_terminates w cap fuel queue r :
  (passes_left queue r <= fuel)%nat -> is_Some (main_loop w cap (S fuel) queue r).
Proof.
  revert queue r. induction fuel as [|fuel IH]; intros queue r Hm.
  - simpl. destruct (aborted w (clock r)); [done|].
    destruct (fill_loop w cap queue r) as [queue1 r1] eqn:Hfill.
    apply passes_fill_loop in Hfill. unfold passes_left in Hfill at 1.
    rewrite bool_decide_eq_true_2 by lia. done.
  - change (main_loop w cap (S (S fuel)) queue r) with
      (if aborted w (clock r) then Some (Aborted r)
       else
         let '(queue1, r1) := fill_loop w cap queue r in
         if bool_decide (size (inFlight r1) = 0)%nat then Some (Break queue1 r1)
         else
           let '(k, ok) := race w r1 in
           let r2 := {| tasks := tasks r1; inFlight := inFlight r1 ∖ {[k]};
                        hadFailure := hadFailure r1; clock := S (clock r1);
                        events := events r1; starts := starts r1 |} in
           match taskMap_index (tasks r2) k with
           | None => main_loop w cap (S fuel) queue1 r2
           | Some j =>
               let r3 :=
                 if ok then
                   let ts := set_status (tasks r2) j completed in
                   {| tasks := ts; inFlight := inFlight r2;
                      hadFailure := hadFailure r2; clock := clock r2;
                      events := events r2
                                ++ [auto_mode_task_complete k (count_completed ts)];
                      starts := starts r2 |}
                 else
                   {| tasks := set_status (tasks r2) j failed;
                      inFlight := inFlight r2; hadFailure := true;
                      clock := clock r2; events := events r2;
                      starts := starts r2 |} in
               let r4 := await w r3 in
               let queue2 := if hadFailure r4 then queue1
                             else refill (tasks r4) (inFlight r4) 0 (tasks r4) queue1 in
               main_loop w cap (S fuel) queue2 r4
           end).
    destruct (aborted w (clock r)); [done|].
    destruct (fill_loop w cap queue r) as [queue1 r1] eqn:Hfill.
    apply passes_fill_loop in Hfill.
    case_bool_decide as Hsize; [done|].
    pose proof (race_winner_in w r1 Hsize) as Hk.
    destruct (race w r1) as [k ok]. simpl in Hk.
    assert (Hs : (size (inFlight r1 ∖ {[k]}) < size (inFlight r1))%nat).
    { by apply subset_size, subset_difference_elem_of. }
    cbv zeta. cbn [tasks inFlight hadFailure clock events starts].
    destruct (taskMap_index (tasks r1) k) as [j|].
    + apply IH.
      assert (Hst : forall st, st <> pending ->
                (length (pending_outside (set_status (tasks r1) j st) queue1)
                 <= length (pending_outside (tasks r1) queue1))%nat).
      { intros st Hne. apply pending_outside_set_status; [done | tauto]. }
      destruct ok.
      * etrans; [apply passes_await|]. unfold passes_left in *. simpl.
        pose proof (Hst completed ltac:(done)).
        pose proof (size_difference_le (inFlight r1 ∖ {[k]}) (lost w (S (clock r1)))).
        destruct (hadFailure r1); simpl.
        -- unfold passes_left. simpl. lia.
        -- unfold passes_left. simpl.
           pose proof (passes_refill (set_status (tasks r1) j completed)
                         (inFlight r1 ∖ {[k]} ∖ lost w (S (clock r1))) 0
                         (set_status (tasks r1) j completed) queue1 [] eq_refl eq_refl).
           lia.
      * simpl. unfold passes_left in *. simpl.
        pose proof (Hst failed ltac:(done)).
        pose proof (size_difference_le (inFlight r1 ∖ {[k]}) (lost w (S (clock r1)))).
        lia.
    + apply IH. unfold passes_left in *. simpl. lia.
Qed.

(** *** The scheduler writes only the status of a task *)

Lemma same_tasks_refl ts : same_tasks ts ts.
Proof. done. Qed.

Lemma same_tasks_set_status ts ts' i st :
  same_tasks ts ts' -> same_tasks ts (set_status ts' i st).
Proof.
  unfold same_tasks. intros <-. unfold set_status. apply list_eq. intros k.
  rewrite !list_lookup_fmap. destruct (decide (i = k)) as [->|Hne].
  - rewrite list_lookup_alter_eq. by destruct (ts' !! k) as [[]|].
  - by rewrite list_lookup_alter_ne.
Qed.

Lemma same_tasks_map ts ts' (f : ParsedTask -> bool) st :
  same_tasks ts ts' ->
  same_tasks ts (map (fun t => if f t then with_status t st else t) ts').
Proof.
  unfold same_tasks. intros <-. rewrite map_map. apply map_ext.
  intros t. by destruct (f t), t.
Qed.

Lemma same_tasks_lookup ts ts' i t' :
  same_tasks ts ts' -> ts' !! i = Some t' ->
  exists t, ts !! i = Some t /\ id t = id t' /\ dependsOn t = dependsOn t'.
Proof.
  unfold same_tasks. intros H Ht'.
  assert (Hl : map (fun t => with_status t pending) ts' !! i = Some (with_status t' pending)).
  { change (map ?f ?l) with (f <$> l). by rewrite list_lookup_fmap, Ht'. }
  rewrite H in Hl. change (map ?f ?l) with (f <$> l) in Hl.
  rewrite list_lookup_fmap in Hl. destruct (ts !! i) as [t|]; [|done].
  exists t. simpl in Hl. injection Hl as Hl. destruct t, t'. simpl in *.
  by simplify_eq.
Qed.

Lemma shape_await w ts r : shape_inv ts r -> shape_inv ts (await w r).
Proof. done. Qed.

Lemma shape_scheduleTask w ts r i : shape_inv ts r -> shape_inv ts (scheduleTask w r i).
Proof.
  intros [H1 H2]. split; simpl.
  - by apply same_tasks_set_status.
  - apply Forall_app. split; [done|]. by constructor.
Qed.

Lemma shape_fill_loop w cap ts queue r queue' r' :
  shape_inv ts r -> fill_loop w cap queue r = (queue', r') -> shape_inv ts r'.
Proof.
  revert r. induction queue as [|i rest IH]; intros r H; simpl.
  - by intros [= <- <-].
  - destruct (negb (hadFailure r) && _).
    + apply IH. by apply shape_scheduleTask.
    + by intros [= <- <-].
Qed.

Lemma shape_main_loop w cap ts fuel queue r e :
  shape_inv ts r -> main_loop w cap fuel queue r = Some e -> shape_inv ts (exit_run e).
Proof.
  revert queue r. induction fuel as [|fuel IH]; intros queue r H; simpl; [done|].
  destruct (aborted w (clock r)); [by intros [= <-]|].
  destruct (fill_loop w cap queue r) as [queue1 r1] eqn:Hfill.
  apply shape_fill_loop with (ts := ts) in Hfill; [|done].
  case_bool_decide; [by intros [= <-]|].
  destruct Hfill as [H1 H2].
  match goal with |- context [taskMap_index (tasks r1) ?k] =>
    destruct (taskMap_index (tasks r1) k) as [j|] end.
  - destruct (outcome w (clock r1)); apply IH; split; simpl; try done;
      by apply same_tasks_set_status.
  - apply IH. by split.
Qed.

(** *** The whole of [executeTasksWithDependencies] *)

Lemma started_ready_given ts st :
  same_tasks ts (tasks_before st) -> started_ready st -> started_when_ready ts st.
Proof.
  intros Hsame (t' & Ht' & Hp & Hdeps).
  destruct (same_tasks_lookup _ _ _ _ Hsame Ht') as (t & Ht & _ & Hd).
  exists t. split_and!; [done | by rewrite Ht'; simpl; f_equal |].
  intros d Hin. rewrite Hd in Hin.
  destruct (Hdeps d Hin) as (dt & Hget & Hc). unfold taskMap_get in Hget.
  destruct (taskMap_index (tasks_before st) d) as [j|] eqn:Hj; [|done]. simpl in Hget.
  apply taskMap_index_Some in Hj as (tj' & Htj' & Hid). simplify_eq.
  destruct (same_tasks_lookup _ _ _ _ Hsame Htj') as (tj & Htj & Hidj & _).
  exists j, tj. split_and!; [done | done |]. rewrite Htj'. simpl. by f_equal.
Qed.

Lemma maxTaskConcurrency_pos setting : (0 < maxTaskConcurrency setting)%nat.
Proof. unfold maxTaskConcurrency. lia. Qed.

Lemma maxTaskConcurrency_bounds setting : (1 <= maxTaskConcurrency setting <= 8)%nat.
Proof.
  unfold maxTaskConcurrency, MAX_TASK_CONCURRENCY_CAP. lia.
Qed.

Lemma shape_initial ts : shape_inv ts (initial_run ts).
Proof.
  split; simpl; [|constructor]. unfold mark_missing.
  apply same_tasks_map, same_tasks_refl.
Qed.

Lemma passes_initial ts :
  (passes_left (initial_queue (tasks (initial_run ts))) (initial_run ts) <= length ts)%nat.
Proof.
  unfold passes_left, initial_run. cbn [inFlight tasks]. rewrite size_empty.
  set (ts' := mark_missing ts).
  assert (Hlen : length ts' = length ts) by apply length_map.
  pose proof (filter_length_disjoint (ready_at ts')
    (fun i => match ts' !! i with
              | Some t => bool_decide (status t = pending)
                          && negb (bool_decide (i ∈ initial_queue ts'))
              | None => false
              end) (seq 0 (length ts'))) as H.
  rewrite length_seq in H. unfold pending_outside. unfold initial_queue at 1.
  etrans; [|rewrite <- Hlen; apply H]; [lia|].
  intros x _ Hr. destruct (ts' !! x); [|done].
  apply andb_false_iff. right. apply negb_false_iff, bool_decide_eq_true.
  by apply initial_queue_ready.
Qed.

Lemma executeTasks_terminates w setting ts :
  is_Some (executeTasksWithDependencies w setting (S (length ts)) ts).
Proof.
  unfold executeTasksWithDependencies.
  destruct (main_loop_terminates w (maxTaskConcurrency setting) (length ts)
              (initial_queue (tasks (initial_run ts))) (initial_run ts)
              (passes_initial ts)) as [e He].
  rewrite He. by destruct e.
Qed.

Lemma executeTasks_starts w setting fuel ts err r :
  NoDup (map id ts) ->
  executeTasksWithDependencies w setting fuel ts = Some (err, r) ->
  Forall (started_when_ready ts) (starts r).
Proof.
  intros Hnd. unfold executeTasksWithDependencies.
  destruct (main_loop _ _ _ _ _) as [e|] eqn:He; [|done].
  pose proof (main_loop_exit _ _ [] _ _ _ _ (maxTaskConcurrency_pos setting)
                (sched_inv_initial ts Hnd) ltac:(by intros i Hi; set_solver) He) as Hexit.
  pose proof (shape_main_loop _ _ ts _ _ _ _ (shape_initial ts) He) as [_ Hshape].
  assert (Hall : Forall (started_when_ready ts) (starts (exit_run e))).
  { assert (Hst : Forall started_ready (starts (exit_run e))).
    { destruct e; simpl in *; [by destruct Hexit|]. apply Hexit. }
    rewrite Forall_forall in *. intros st Hin.
    apply started_ready_given; [by apply Hshape | by apply Hst]. }
  destruct e as [r'|q r']; simpl in *.
  - by intros [= <- <-].
  - unfold after_loop. destruct (hadFailure r'); [by intros [= <- <-]|].
    destruct (has_pending (tasks r')); by intros [= <- <-].
Qed.

Import Examples.



(** ** The dependency scheduler: dependency cycles *)

(** *** Why the outer loop is left *)

Lemma fill_loop_hadFailure w cap queue r queue' r' :
  fill_loop w cap queue r = (queue', r') -> hadFailure r' = hadFailure r.
Proof.
  revert r. induction queue as [|i rest IH]; intros r; simpl.
  - by intros [= <- <-].
  - destruct (negb (hadFailure r) && _).
    + intros H. apply IH in H. by rewrite H, scheduleTask_hadFailure.
    + by intros [= <- <-].
Qed.

Lemma main_loop_cause w cap fuel queue r e :
  (hadFailure r = true -> exists k, outcome w k = false) ->
  main_loop w cap fuel queue r = Some e ->
  match e with
  | Aborted _ => exists k, aborted w k = true
  | Break _ r' => hadFailure r' = true -> exists k, outcome w k = false
  end.
Proof.
  revert queue r. induction fuel as [|fuel IH]; intros queue r H; simpl; [done|].
  destruct (aborted w (clock r)) eqn:Ha; [intros [= <-]; by eexists|].
  destruct (fill_loop w cap queue r) as [queue1 r1] eqn:Hfill.
  apply fill_loop_hadFailure in Hfill.
  case_bool_decide; [intros [= <-]; by rewrite Hfill|].
  match goal with |- context [taskMap_index (tasks r1) ?k] =>
    destruct (taskMap_index (tasks r1) k) as [j|] end.
  - destruct (outcome w (clock r1)) eqn:Hok; apply IH; simpl.
    + by rewrite Hfill.
    + intros _. by eexists.
  - apply IH. simpl. by rewrite Hfill.
Qed.

Lemma block_pending_lookup ts i :
  block_pending ts !! i
  = (fun t => if bool_decide (status t = pending) then with_status t blocked else t)
      <$> ts !! i.
Proof. unfold block_pending. apply list_lookup_fmap. Qed.

Lemma block_pending_none ts : Forall (fun t => status t <> pending) (block_pending ts).
Proof.
  unfold block_pending. apply Forall_forall. intros t Ht.
  apply list_elem_of_fmap in Ht as (t0 & -> & _).
  by case_bool_decide.
Qed.

Lemma has_pending_true ts i t :
  ts !! i = Some t -> status t = pending -> has_pending ts = true.
Proof.
  intros Ht Hp. unfold has_pending. apply existsb_exists. exists t. split.
  - apply list_elem_of_In. by eapply list_elem_of_lookup_2.
  - by apply bool_decide_eq_true.
Qed.

(** After the loop was left by [break] with a dependency cycle among the
    pending tasks. *)
Lemma after_loop_cycle C queue r :
  C <> [] -> cycle_inv C queue r ->
  exists r',
    after_loop r = (Some (if hadFailure r then TASKS_FAILED else CYCLE_DETECTED), r')
    /\ tasks r' = block_pending (tasks r) /\ inFlight r' = inFlight r
    /\ hadFailure r' = hadFailure r /\ starts r' = starts r
    /\ (forall i, i ∈ C -> status <$> tasks r' !! i = Some blocked).
Proof.
  intros HC Hinv. exists (set_tasks r (block_pending (tasks r))).
  split_and!; try done.
  - unfold after_loop. destruct (hadFailure r); [done|].
    destruct C as [|i C]; [done|].
    destruct (Hinv i ltac:(by left)) as (_ & t & Ht & Hp & _).
    by rewrite (has_pending_true _ _ _ Ht Hp).
  - intros i Hi. destruct (Hinv i Hi) as (_ & t & Ht & Hp & _). simpl.
    rewrite block_pending_lookup, Ht. simpl. by rewrite bool_decide_eq_true_2.
Qed.

Lemma main_loop_idle w cap fuel r :
  aborted w (clock r) = false -> inFlight r = ∅ ->
  main_loop w cap (S fuel) [] r = Some (Break [] r).
Proof. intros Ha He. simpl. rewrite Ha, He. done. Qed.

Lemma executeTasks_cycle w setting ts C :
  NoDup (map id ts) -> cycle_among_pending ts C ->
  exists err r,
    executeTasksWithDependencies w setting (S (length ts)) ts = Some (err, r)
    /\ ((err = Some ABORTED /\ (exists k, aborted w k = true)
         /\ forall i, i ∈ C -> status <$> tasks r !! i = Some pending)
        \/ (inFlight r = ∅
            /\ Forall (fun t => status t <> pending) (tasks r)
            /\ (forall i, i ∈ C -> status <$> tasks r !! i = Some blocked)
            /\ err = Some (if hadFailure r then TASKS_FAILED else CYCLE_DETECTED)
            /\ (hadFailure r = true -> exists k, outcome w k = false))).
Proof.
  intros Hnd Hcyc. unfold executeTasksWithDependencies.
  destruct (main_loop_terminates w (maxTaskConcurrency setting) (length ts)
              (initial_queue (tasks (initial_run ts))) (initial_run ts)
              (passes_initial ts)) as [e He].
  rewrite He.
  pose proof (main_loop_exit _ _ C _ _ _ _ (maxTaskConcurrency_pos setting)
                (sched_inv_initial ts Hnd) (cycle_inv_initial ts C Hnd Hcyc) He) as Hexit.
  assert (Hcause := fun H => main_loop_cause _ _ _ _ _ _ H He).
  simpl in Hcause. specialize (Hcause ltac:(done)).
  destruct e as [r|queue r]; simpl in *.
  - exists (Some ABORTED), r. split; [done|]. left.
    destruct Hexit as (_ & queue & HC). split_and!; [done | done |].
    intros i Hi. destruct (HC i Hi) as (_ & t & Ht & Hp & _). by rewrite Ht, <- Hp.
  - destruct Hexit as (_ & HC & Hempty & _).
    destruct (after_loop_cycle C queue r (proj1 Hcyc) HC)
      as (r' & -> & Hts & Hfl & Hhf & _ & Hblocked).
    eexists _, r'. split; [done|]. right.
    split_and!; [congruence | | done | by rewrite Hhf | by rewrite Hhf].
    rewrite Hts. apply block_pending_none.
Qed.

Lemma two_cycle_is_cycle : cycle_among_pending two_cycle [0; 1]%nat.
Proof.
  split; [done|]. intros i Hi.
  apply elem_of_cons in Hi as [->|Hi]; [|apply list_elem_of_singleton in Hi as ->].
  - exists (task "A" (Some ["B"])). split_and!; [by vm_compute | done |].
    exists "B", 1%nat, (task "B" (Some ["A"])).
    split_and!; [by apply list_elem_of_singleton | by right; left | done | done].
  - exists (task "B" (Some ["A"])). split_and!; [by vm_compute | done |].
    exists "A", 0%nat, (task "A" (Some ["B"])).
    split_and!; [by apply list_elem_of_singleton | by left | done | done].
Qed.

Lemma cycle_and_more_is_cycle : cycle_among_pending cycle_and_more [1; 2]%nat.
Proof.
  split; [done|]. intros i Hi.
  apply elem_of_cons in Hi as [->|Hi]; [|apply list_elem_of_singleton in Hi as ->].
  - exists (task "A" (Some ["B"])). split_and!; [by vm_compute | done |].
    exists "B", 2%nat, (task "B" (Some ["A"])).
    split_and!; [by apply list_elem_of_singleton | by right; left | done | done].
  - exists (task "B" (Some ["A"])). split_and!; [by vm_compute | done |].
    exists "A", 1%nat, (task "A" (Some ["B"])).
    split_and!; [by apply list_elem_of_singleton | by left | done | done].
Qed.

(** C3, as the code has it. [executeTasksWithDependencies] returns within
    [length ts + 1] passes of its outer loop for every task list and every
    behaviour of the tasks. With distinct ids and a dependency cycle among the
    pending tasks it always ends with an error: the abort error when the abort
    signal is seen at a loop head (the tasks of the cycle stay pending), and
    otherwise, with nothing in flight, every pending task (those of the cycle
    among them) is marked blocked and the error is the cycle error if no task
    failed and the task-failure error if one did. For [A(deps:[B]), B(deps:[A])]
    without an abort, the cycle error is raised and both tasks end blocked. *)
Theorem scheduler_ends_on_dependency_cycle :
  (forall w setting ts,
     is_Some (executeTasksWithDependencies w setting (S (length ts)) ts))
  /\ (forall w setting ts C,
        NoDup (map id ts) -> cycle_among_pending ts C ->
        exists err r,
          executeTasksWithDependencies w setting (S (length ts)) ts = Some (err, r)
          /\ ((err = Some ABORTED /\ (exists k, aborted w k = true)
               /\ forall i, i ∈ C -> status <$> tasks r !! i = Some pending)
              \/ (inFlight r = ∅
                  /\ Forall (fun t => status t <> pending) (tasks r)
                  /\ (forall i, i ∈ C -> status <$> tasks r !! i = Some blocked)
                  /\ err = Some (if hadFailure r then TASKS_FAILED else CYCLE_DETECTED)
                  /\ (hadFailure r = true -> exists k, outcome w k = false))))
  /\ (forall w setting,
        aborted w 0 = false ->
        exists r,
          executeTasksWithDependencies w setting (S (length two_cycle)) two_cycle
          = Some (Some CYCLE_DETECTED, r)
          /\ map status (tasks r) = [blocked; blocked] /\ starts r = []).
Proof.
  split_and!.
  - apply executeTasks_terminates.
  - apply executeTasks_cycle.
  - intros w setting Ha. unfold executeTasksWithDependencies.
    change (initial_queue (tasks (initial_run two_cycle))) with (@nil nat).
    rewrite main_loop_idle by done.
    eexists. split; [by vm_compute|]. by vm_compute.
Qed.

Lemma scheduler_cycle_witness :
  exists err r,
    executeTasksWithDependencies (steady true) (Some 2%Z) 3 two_cycle = Some (err, r)
    /\ ((err = Some ABORTED /\ (exists k, aborted (steady true) k = true)
         /\ forall i, i ∈ [0; 1]%nat -> status <$> tasks r !! i = Some pending)
        \/ (inFlight r = ∅
            /\ Forall (fun t => status t <> pending) (tasks r)
            /\ (forall i, i ∈ [0; 1]%nat -> status <$> tasks r !! i = Some blocked)
            /\ err = Some (if hadFailure r then TASKS_FAILED else CYCLE_DETECTED)
            /\ (hadFailure r = true -> exists k, outcome (steady true) k = false))).
Proof.
  apply (proj1 (proj2 scheduler_ends_on_dependency_cycle) (steady true) (Some 2%Z)
           two_cycle [0; 1]%nat).
  - apply (bool_decide_unpack _). vm_compute. exact I.
  - exact two_cycle_is_cycle.
Defined.

(** C3, counterexample to the claim as worded: one task [X] next to the cycle
    of [A] and [B]; [X] fails. The loop is left with nothing in flight, nothing
    queued and [A], [B] pending; they are marked blocked, but the error raised
    is the task-failure error, not the cycle error. *)
Lemma failed_task_hides_cycle_error :
  NoDup (map id cycle_and_more)
  /\ cycle_among_pending cycle_and_more [1; 2]%nat
  /\ exists r0 r,
       main_loop (steady false) (maxTaskConcurrency (Some 2%Z)) 4
         (initial_queue (tasks (initial_run cycle_and_more)))
         (initial_run cycle_and_more) = Some (Break [] r0)
       /\ inFlight r0 = ∅
       /\ map status (tasks r0) = [failed; pending; pending]
       /\ executeTasksWithDependencies (steady false) (Some 2%Z) 4 cycle_and_more
          = Some (Some TASKS_FAILED, r)
       /\ map status (tasks r) = [failed; blocked; blocked]
       /\ TASKS_FAILED <> CYCLE_DETECTED.
Proof.
  split_and!.
  - apply (bool_decide_unpack _). vm_compute. exact I.
  - exact cycle_and_more_is_cycle.
  - let v := eval vm_compute in
      (main_loop (steady false) (maxTaskConcurrency (Some 2%Z)) 4
         (initial_queue (tasks (initial_run cycle_and_more)))
         (initial_run cycle_and_more)) in
    match v with
    | Some (Break _ ?r0) =>
        exists r0;
        match eval vm_compute in
          (executeTasksWithDependencies (steady false) (Some 2%Z) 4 cycle_and_more) with
        | Some (_, ?r) => exists r
        end
    end.
    split_and!; by vm_compute.
Qed.

(** ** The task block parser *)

Import Parser.

(** *** Texts *)

Lemma after_first_eq p s :
  after_first p s = match strip_prefix p s with
                    | Some rest => Some rest
                    | None => match s with [] => None | _ :: r => after_first p r end
                    end.
Proof. by destruct s. Qed.

Lemma before_first_eq p s :
  before_first p s = match strip_prefix p s with
                     | Some _ => Some []
                     | None => match s with
                               | [] => None
                               | c :: r => cons c <$> before_first p r
                               end
                     end.
Proof. by destruct s. Qed.

Lemma ascii_eqb_refl c : ascii_eqb c c = true.
Proof. apply Ascii.eqb_refl. Qed.

Lemma strip_prefix_app p s : strip_prefix p (p ++ s) = Some s.
Proof. induction p as [|a p IH]; simpl; [done|]. by rewrite ascii_eqb_refl. Qed.

Lemma strip_prefix_ci_app p s : strip_prefix_ci p (p ++ s) = Some s.
Proof. induction p as [|a p IH]; simpl; [done|]. by rewrite ascii_eqb_refl. Qed.

Lemma after_first_skip p0 p pre s :
  forallb (fun c => negb (ascii_eqb p0 c)) pre = true ->
  after_first (p0 :: p) (pre ++ (p0 :: p) ++ s) = Some s.
Proof.
  induction pre as [|c pre IH]; intros H.
  - rewrite after_first_eq. change ([] ++ ?x) with x. by rewrite strip_prefix_app.
  - simpl in H. apply andb_true_iff in H as [Hc H].
    rewrite after_first_eq. cbn [app strip_prefix]. apply negb_true_iff in Hc.
    rewrite Hc. by apply IH.
Qed.

Lemma before_first_skip p0 p body s :
  forallb (fun c => negb (ascii_eqb p0 c)) body = true ->
  before_first (p0 :: p) (body ++ (p0 :: p) ++ s) = Some body.
Proof.
  induction body as [|c body IH]; intros H.
  - rewrite before_first_eq. change ([] ++ ?x) with x. by rewrite strip_prefix_app.
  - simpl in H. apply andb_true_iff in H as [Hc H].
    rewrite before_first_eq. cbn [app strip_prefix]. apply negb_true_iff in Hc.
    rewrite Hc. specialize (IH H). cbn [app] in IH. by rewrite IH.
Qed.

Lemma drop_while_all f ws s :
  forallb f ws = true -> drop_while f (ws ++ s) = drop_while f s.
Proof.
  induction ws as [|c ws IH]; simpl; [done|].
  intros [Hc H]%andb_true_iff. rewrite Hc. by apply IH.
Qed.

Lemma drop_while_head f s :
  (forall c, head s = Some c -> f c = false) -> drop_while f s = s.
Proof. destruct s as [|c s]; simpl; [done|]. intros H. by rewrite (H c). Qed.

Lemma take_while_head f s :
  (forall c, head s = Some c -> f c = false) -> take_while f s = [].
Proof. destruct s as [|c s]; simpl; [done|]. intros H. by rewrite (H c). Qed.

Lemma head_rev_last (s : text) : head (rev s) = last s.
Proof. rewrite rev_alt. rewrite <- (reverse_involutive s) at 2.
  by rewrite last_reverse. Qed.

Lemma forallb_rev_true (f : ascii -> bool) l :
  forallb f l = true -> forallb f (rev l) = true.
Proof.
  rewrite !forallb_forall. intros H x Hx. apply H. by apply in_rev.
Qed.

Lemma trim_padded ws1 t ws2 :
  forallb is_space ws1 = true -> forallb is_space ws2 = true ->
  (forall c, head t = Some c -> is_space c = false) ->
  (forall c, last t = Some c -> is_space c = false) ->
  t <> [] -> trim (ws1 ++ t ++ ws2) = t.
Proof.
  intros H1 H2 Hh Hl Hne. unfold trim.
  rewrite !rev_app_distr, <- app_assoc.
  rewrite drop_while_all by (by apply forallb_rev_true).
  rewrite (drop_while_head _ (rev t ++ rev ws1)).
  - rewrite rev_app_distr, !rev_involutive.
    rewrite drop_while_all by done. by apply drop_while_head.
  - intros c Hc. apply Hl. rewrite <- head_rev_last.
    destruct (rev t) as [|c' r] eqn:E; [|by simpl in *].
    apply (f_equal (@rev _)) in E. rewrite rev_involutive in E. done.
Qed.

Lemma trim_id t :
  (forall c, head t = Some c -> is_space c = false) ->
  (forall c, last t = Some c -> is_space c = false) ->
  t <> [] -> trim t = t.
Proof.
  intros Hh Hl Hne. pose proof (trim_padded [] t [] eq_refl eq_refl Hh Hl Hne) as H.
  by rewrite app_nil_r in H.
Qed.

Lemma trim_nil : trim [] = [].
Proof. done. Qed.

Lemma split_on_app sep a b :
  forallb (fun c => negb (ascii_eqb c sep)) a = true ->
  split_on sep (a ++ sep :: b) = a :: split_on sep b.
Proof.
  induction a as [|c a IH]; simpl.
  - intros _. by rewrite ascii_eqb_refl.
  - intros [Hc H]%andb_true_iff. apply negb_true_iff in Hc. rewrite Hc.
    by rewrite (IH H).
Qed.

Lemma split_on_none sep a :
  forallb (fun c => negb (ascii_eqb c sep)) a = true -> split_on sep a = [a].
Proof.
  induction a as [|c a IH]; simpl; [done|].
  intros [Hc H]%andb_true_iff. apply negb_true_iff in Hc. rewrite Hc.
  by rewrite (IH H).
Qed.

Lemma ws_then_rest_space g :
  g <> [] -> (forall c, head g = Some c -> is_space c = false) ->
  forallb (fun c => negb (is_terminator c)) g = true ->
  ws_then_rest (" "%char :: g) = Some g.
Proof.
  intros Hne Hh Ht. destruct g as [|c g]; [done|].
  assert (Hc : is_space c = false) by (by apply Hh).
  unfold ws_then_rest.
  replace (take_while is_space (" "%char :: c :: g)) with [" "%char]
    by (cbn [take_while]; rewrite Hc; done).
  replace (Nat.min (length [" "%char]) (length (" "%char :: c :: g) - 1)) with 1%nat
    by (simpl; lia).
  change (drop 1 (" "%char :: c :: g)) with (c :: g). by rewrite Ht.
Qed.

(** *** The parts of a task line *)

Lemma forallb_impl (f g : ascii -> bool) l :
  (forall c, f c = true -> g c = true) -> forallb f l = true -> forallb g l = true.
Proof. rewrite !forallb_forall. intros H Hf x Hx. by apply H, Hf. Qed.

Lemma join_bar_cons x y rest :
  join_bar (x :: y :: rest)
  = (x ++ [" "%char]) ++ "|"%char :: ([" "%char] ++ join_bar (y :: rest)).
Proof. cbn [join_bar]. by rewrite <- app_assoc. Qed.

Lemma split_join_bar ws parts :
  forallb is_space ws = true ->
  forallb (fun c => negb (ascii_eqb c "|")) ws = true ->
  parts <> [] -> Forall clean_part parts ->
  List.filter nonempty (map trim (split_on "|" (ws ++ join_bar parts))) = parts.
Proof.
  intros Hws Hwb Hne Hall. revert ws Hws Hwb.
  induction Hall as [|x rest Hx Hrest IH]; [done|]. intros ws Hws Hwb.
  destruct Hx as (Hxne & Hxb & Hxh & Hxl).
  assert (Hnx : nonempty x = true) by (by destruct x).
  destruct rest as [|y rest].
  - cbn [join_bar]. rewrite split_on_none by (rewrite forallb_app, Hwb, Hxb; reflexivity).
    cbn [map]. rewrite <- (app_nil_r x) at 1.
    rewrite trim_padded by done. cbn [List.filter]. by rewrite Hnx.
  - rewrite join_bar_cons, !app_assoc, split_on_app.
    + cbn [map]. rewrite <- !app_assoc.
      rewrite trim_padded by done. cbn [List.filter]. rewrite Hnx. f_equal.
      apply IH; done.
    + rewrite !forallb_app, Hwb, Hxb. reflexivity.
Qed.

Lemma join_bar_head x rest : x <> [] -> head (join_bar (x :: rest)) = head x.
Proof. intros Hx. destruct rest; cbn [join_bar]; [done|]. by destruct x. Qed.

Lemma forallb_join_bar (f : ascii -> bool) parts :
  f " "%char = true -> f "|"%char = true ->
  Forall (fun x => forallb f x = true) parts -> forallb f (join_bar parts) = true.
Proof.
  intros Hs Hb Hall. induction Hall as [|x rest Hx Hrest IH]; [done|].
  destruct rest as [|y rest]; [done|].
  rewrite join_bar_cons, forallb_app. cbn [forallb]. rewrite !forallb_app, Hx, IH.
  cbn [forallb]. by rewrite Hs, Hb.
Qed.

(** *** Field values *)

Lemma field_char_no_bar c : field_char c = true -> negb (ascii_eqb c "|") = true.
Proof. unfold field_char. by intros [[H _]%andb_true_iff _]%andb_true_iff. Qed.

Lemma field_char_line c : field_char c = true -> line_char c = true.
Proof.
  unfold field_char, line_char. intros [[_ H1]%andb_true_iff H2]%andb_true_iff.
  by rewrite H1, H2.
Qed.

Lemma line_char_no_terminator c : line_char c = true -> negb (is_terminator c) = true.
Proof. unfold line_char. by intros [H _]%andb_true_iff. Qed.

Lemma line_char_no_backtick c : line_char c = true -> negb (ascii_eqb "`" c) = true.
Proof.
  unfold line_char, ascii_eqb. intros [_ H]%andb_true_iff. by rewrite Ascii.eqb_sym.
Qed.

Lemma line_char_no_LF c : line_char c = true -> negb (ascii_eqb c LF) = true.
Proof.
  unfold line_char, is_terminator. intros [H _]%andb_true_iff.
  apply negb_true_iff, orb_false_iff in H as [H _].
  apply negb_true_iff. unfold ascii_eqb. apply Ascii.eqb_neq. intros ->. done.
Qed.

Lemma wf_field_clean s : wf_field s -> clean_part (lit s).
Proof.
  intros (Hne & Hc & Hh & Hl). split_and!; try done.
  eapply forallb_impl; [apply field_char_no_bar | done].
Qed.

Lemma labelled_clean label c0 rest v :
  lit label = c0 :: rest -> is_space c0 = false ->
  forallb (fun c => negb (ascii_eqb c "|")) (lit label) = true ->
  v <> [] -> forallb (fun c => negb (ascii_eqb c "|")) v = true ->
  (forall c, last v = Some c -> is_space c = false) ->
  clean_part (labelled label v).
Proof.
  intros Hl Hc0 Hlb Hv Hvb Hlast. unfold labelled. split_and!.
  - rewrite Hl. done.
  - rewrite forallb_app, Hlb. cbn [forallb]. by rewrite Hvb.
  - rewrite Hl. simpl. by intros c [= <-].
  - intros c. rewrite last_app_cons, last_cons.
    destruct (last v) as [y|] eqn:E; [|by apply last_None in E].
    intros [= <-]. by apply Hlast.
Qed.

Lemma join_ids_cons d d' rest :
  join_ids (d :: d' :: rest) = lit d ++ ","%char :: " "%char :: join_ids (d' :: rest).
Proof. done. Qed.

Lemma dep_char_field c : dep_char c = true -> field_char c = true.
Proof. unfold dep_char. by intros [_ H]%andb_true_iff. Qed.

Lemma dep_char_no_separator c : dep_char c = true -> is_dep_separator c = false.
Proof.
  unfold dep_char. intros [[H _]%andb_true_iff _]%andb_true_iff.
  by apply negb_true_iff.
Qed.

Lemma dep_char_no_space c : dep_char c = true -> is_space c = false.
Proof.
  intros H%dep_char_no_separator. unfold is_dep_separator in H.
  by apply orb_false_iff in H as [_ H].
Qed.

Lemma dep_char_no_bracket c : dep_char c = true -> negb (is_bracket c) = true.
Proof. unfold dep_char. by intros [[_ H]%andb_true_iff _]%andb_true_iff. Qed.

Lemma forallb_join_ids (f : ascii -> bool) ds :
  f ","%char = true -> f " "%char = true ->
  Forall (fun d => forallb f (lit d) = true) ds -> forallb f (join_ids ds) = true.
Proof.
  intros Hc Hs Hall. induction Hall as [|d rest Hd Hrest IH]; [done|].
  destruct rest as [|d' rest]; [done|].
  rewrite join_ids_cons, forallb_app, Hd. cbn [forallb]. by rewrite Hc, Hs, IH.
Qed.

Lemma join_ids_head d rest : lit d <> [] -> head (join_ids (d :: rest)) = head (lit d).
Proof.
  intros Hd. destruct rest; [done|]. rewrite join_ids_cons. by destruct (lit d).
Qed.

Lemma join_ids_last ds c :
  Forall wf_dep ds -> last (join_ids ds) = Some c -> is_space c = false.
Proof.
  intros Hall. induction Hall as [|d rest [Hne Hd] Hrest IH]; [done|].
  destruct rest as [|d' rest].
  - cbn [join_ids]. intros Hl. apply dep_char_no_space.
    rewrite forallb_forall in Hd. apply Hd. apply list_elem_of_In.
    by eapply last_Some_elem_of.
  - rewrite join_ids_cons, last_app_cons, !last_cons.
    destruct (last (join_ids (d' :: rest))) as [y|] eqn:E.
    + intros [= <-]. by apply IH.
    + apply last_None in E. inversion Hrest as [|? ? [Hne' _] _]; subst.
      destruct rest; [done|]. rewrite join_ids_cons in E. by destruct (lit d').
Qed.

Lemma str_lit s : str (lit s) = s.
Proof. apply string_of_list_ascii_of_string. Qed.

Lemma lit_str t : lit (str t) = t.
Proof. apply list_ascii_of_string_of_list_ascii. Qed.

Lemma filter_all (f : ascii -> bool) l : forallb f l = true -> List.filter f l = l.
Proof.
  induction l as [|c l IH]; simpl; [done|].
  intros [Hc H]%andb_true_iff. by rewrite Hc, IH.
Qed.

Lemma dep_tokens_run d rest cur :
  forallb dep_char d = true -> dep_tokens (d ++ rest) cur = dep_tokens rest (rev d ++ cur).
Proof.
  revert cur. induction d as [|c d IH]; intros cur; simpl; [done|].
  intros [Hc H]%andb_true_iff. rewrite (dep_char_no_separator c Hc).
  by rewrite IH, <- app_assoc.
Qed.

Lemma dep_tokens_join ds :
  Forall wf_dep ds -> dep_tokens (join_ids ds) [] = map lit ds.
Proof.
  intros Hall. induction Hall as [|d rest [Hne Hd] Hrest IH]; [done|].
  assert (Hr : rev (lit d) <> []).
  { intros E. apply Hne. apply (f_equal (@rev _)) in E. by rewrite rev_involutive in E. }
  destruct rest as [|d' rest].
  - cbn [join_ids map]. rewrite <- (app_nil_r (lit d)) at 1.
    rewrite dep_tokens_run by done. rewrite app_nil_r. cbn [dep_tokens].
    destruct (rev (lit d)) eqn:E; [done|]. by rewrite <- E, rev_involutive.
  - rewrite join_ids_cons, dep_tokens_run by done. rewrite app_nil_r.
    cbn [dep_tokens]. change (is_dep_separator ",") with true.
    change (is_dep_separator " ") with true. cbn iota.
    destruct (rev (lit d)) eqn:E; [done|]. rewrite <- E, rev_involutive.
    cbn [map] in *. by rewrite IH.
Qed.

Lemma map_str_lit ds : map str (map lit ds) = ds.
Proof. induction ds as [|d ds IH]; simpl; [done|]. by rewrite str_lit, IH. Qed.

Lemma join_ids_nonempty ds : ds <> [] -> Forall wf_dep ds -> join_ids ds <> [].
Proof.
  intros Hne Hall. destruct Hall as [|d rest [Hne' _] _]; [done|].
  destruct rest; [done|]. rewrite join_ids_cons. by destruct (lit d).
Qed.

Lemma join_ids_head_no_space ds c :
  Forall wf_dep ds -> head (join_ids ds) = Some c -> is_space c = false.
Proof.
  intros Hall. destruct Hall as [|d rest [Hne Hc] _]; [done|].
  rewrite join_ids_head by done. intros Hh.
  apply dep_char_no_space. rewrite forallb_forall in Hc. apply Hc.
  apply list_elem_of_In. by eapply head_Some_elem_of.
Qed.

Lemma parse_deps_join ds :
  ds <> [] -> Forall wf_dep ds -> parse_deps (join_ids ds) = Some ds.
Proof.
  intros Hne Hall. unfold parse_deps.
  assert (Hd : Forall (fun d => forallb dep_char (lit d) = true) ds).
  { eapply Forall_impl; [done|]. by intros d [_ H]. }
  rewrite trim_id.
  - rewrite filter_all.
    + rewrite dep_tokens_join by done.
      destruct ds as [|d rest]; [done|]. by rewrite <- (map_str_lit (d :: rest)) at 2.
    + apply forallb_join_ids; [done | done |].
      eapply Forall_impl; [exact Hd|]. intros x Hx. simpl in Hx.
      eapply forallb_impl; [apply dep_char_no_bracket | done].
  - intros c. by apply join_ids_head_no_space.
  - intros c. by apply join_ids_last.
  - by apply join_ids_nonempty.
Qed.

(** *** One task line *)

Lemma wf_field_line s : wf_field s -> forallb line_char (lit s) = true.
Proof.
  intros (_ & Hc & _). eapply forallb_impl; [apply field_char_line | done].
Qed.

Lemma join_ids_field ds : Forall wf_dep ds -> forallb field_char (join_ids ds) = true.
Proof.
  intros Hall. apply forallb_join_ids; [done | done |].
  eapply Forall_impl; [exact Hall|]. intros d [_ Hd]. simpl.
  eapply forallb_impl; [apply dep_char_field | done].
Qed.

Lemma complexity_name_clean c :
  forallb field_char (lit (complexity_name c)) = true
  /\ lit (complexity_name c) <> []
  /\ (forall x, last (lit (complexity_name c)) = Some x -> is_space x = false).
Proof. destruct c; split_and!; try done; by intros x [= <-]. Qed.

Lemma labelled_line label v :
  forallb line_char (lit label) = true -> forallb line_char v = true ->
  forallb line_char (labelled label v) = true.
Proof.
  intros H1 H2. unfold labelled. rewrite forallb_app, H1. cbn [forallb].
  by rewrite H2.
Qed.

Lemma wf_line_parts t :
  wf_task t ->
  exists p ds c,
    filePath t = Some p /\ dependsOn t = Some ds /\ complexity t = Some c
    /\ wf_field p /\ ds <> [] /\ Forall wf_dep ds
    /\ line_parts t = [lit (description t); labelled "File:" (lit p);
                       labelled "DependsOn:" (join_ids ds);
                       labelled "Complexity:" (lit (complexity_name c))]
    /\ Forall clean_part (line_parts t)
    /\ Forall (fun x => forallb line_char x = true) (line_parts t).
Proof.
  intros (_ & Hdesc & (p & Hp & Hwp) & (ds & Hds & Hne & Hwd) & (c & Hc) & _).
  exists p, ds, c.
  assert (Hparts : line_parts t = [lit (description t); labelled "File:" (lit p);
                       labelled "DependsOn:" (join_ids ds);
                       labelled "Complexity:" (lit (complexity_name c))]).
  { unfold line_parts. by rewrite Hp, Hds, Hc. }
  destruct (complexity_name_clean c) as (Hcc & Hcn & Hcl).
  split; [exact Hp|]. split; [exact Hds|]. split; [exact Hc|].
  split; [exact Hwp|]. split; [exact Hne|]. split; [exact Hwd|].
  split; [exact Hparts|]. rewrite Hparts.
  split; (constructor; [|constructor; [|constructor; [|constructor; [|constructor]]]]).
  - by apply wf_field_clean.
  - eapply labelled_clean; [done | done | done | apply Hwp | | apply Hwp].
    eapply forallb_impl; [apply field_char_no_bar | apply Hwp].
  - eapply labelled_clean; [done | done | done | by apply join_ids_nonempty | |].
    + eapply forallb_impl; [apply field_char_no_bar | by apply join_ids_field].
    + intros x. by apply join_ids_last.
  - eapply labelled_clean; [done | done | done | done | | done].
    eapply forallb_impl; [apply field_char_no_bar | done].
  - by apply wf_field_line.
  - apply labelled_line; [done | by apply wf_field_line].
  - apply labelled_line; [done|].
    eapply forallb_impl; [apply field_char_line | by apply join_ids_field].
  - apply labelled_line; [done|].
    eapply forallb_impl; [apply field_char_line | done].
Qed.

Lemma read_part_file acc p :
  wf_field p ->
  read_part acc (labelled "File:" (lit p))
  = {| f_filePath := Some p; f_dependsOn := f_dependsOn acc;
       f_complexity := f_complexity acc |}.
Proof.
  intros (Hne & Hc & Hh & Hl). unfold read_part, match_field, labelled.
  rewrite strip_prefix_ci_app. cbn [mbind option_bind].
  rewrite ws_then_rest_space; [|done|done|].
  - rewrite trim_id by done. by rewrite str_lit.
  - eapply forallb_impl; [|exact Hc]. intros c H.
    by apply line_char_no_terminator, field_char_line.
Qed.

Lemma read_part_deps acc ds :
  ds <> [] -> Forall wf_dep ds ->
  read_part acc (labelled "DependsOn:" (join_ids ds))
  = {| f_filePath := f_filePath acc; f_dependsOn := Some ds;
       f_complexity := f_complexity acc |}.
Proof.
  intros Hne Hall. unfold read_part.
  change (match_field "File:" (labelled "DependsOn:" (join_ids ds))) with (@None text).
  unfold match_field, labelled.
  rewrite strip_prefix_ci_app. cbn [mbind option_bind].
  rewrite ws_then_rest_space.
  - by rewrite parse_deps_join.
  - by apply join_ids_nonempty.
  - intros c. by apply join_ids_head_no_space.
  - eapply forallb_impl; [|by apply join_ids_field]. intros c H.
    by apply line_char_no_terminator, field_char_line.
Qed.

Lemma read_part_complexity acc c :
  read_part acc (labelled "Complexity:" (lit (complexity_name c)))
  = {| f_filePath := f_filePath acc; f_dependsOn := f_dependsOn acc;
       f_complexity := Some c |}.
Proof. by destruct c. Qed.

Lemma match_task_line_eq s :
  match_task_line s
  = match ('(tid, rest) ← task_head s; g ← ws_then_rest rest; Some (tid, g)) with
    | Some m => Some m
    | None => match s with [] => None | _ :: r => match_task_line r end
    end.
Proof. by destruct s. Qed.

Lemma join_bar_last parts c :
  Forall clean_part parts -> last (join_bar parts) = Some c -> is_space c = false.
Proof.
  intros Hall. induction Hall as [|x rest (Hne & _ & _ & Hl) Hrest IH]; [done|].
  destruct rest as [|y rest].
  - cbn [join_bar]. apply Hl.
  - rewrite join_bar_cons, last_app_cons, last_cons, last_app.
    destruct (last (join_bar (y :: rest))) as [z|] eqn:E.
    + intros [= <-]. by apply IH.
    + apply last_None in E. inversion Hrest as [|? ? (Hy & _) _]; subst.
      destruct rest; [done|]. rewrite join_bar_cons in E. by destruct y.
Qed.

Lemma line_parts_join t :
  wf_task t ->
  join_bar (line_parts t) <> []
  /\ (forall c, head (join_bar (line_parts t)) = Some c -> is_space c = false)
  /\ (forall c, last (join_bar (line_parts t)) = Some c -> is_space c = false)
  /\ forallb line_char (join_bar (line_parts t)) = true.
Proof.
  intros Hwf. pose proof Hwf as (_ & (Hne & _ & Hh & _) & _).
  destruct (wf_line_parts t Hwf) as (p & ds & c & _ & _ & _ & _ & _ & _ & Hparts & Hclean & Hline).
  assert (Hhead : head (join_bar (line_parts t)) = head (lit (description t))).
  { rewrite Hparts. by apply join_bar_head. }
  split_and!.
  - intros E. rewrite E in Hhead. by destruct (lit (description t)).
  - intros x. rewrite Hhead. apply Hh.
  - intros x. by apply join_bar_last.
  - by apply forallb_join_bar.
Qed.

Lemma parseTaskLine_serialize t :
  wf_task t -> parseTaskLine (serialize_line t) None = Some t.
Proof.
  intros Hwf. pose proof Hwf as ((d1 & d2 & d3 & Hid & H1 & H2 & H3) & _ & _ & _ & _ & Hph & Hst).
  destruct (wf_line_parts t Hwf) as (p & ds & c & Hp & Hds & Hc & Hwp & Hne & Hwd & Hparts & Hclean & _).
  destruct (line_parts_join t Hwf) as (Hjne & Hjh & _ & Hjl).
  unfold parseTaskLine, serialize_line.
  rewrite match_task_line_eq. unfold task_head.
  rewrite strip_prefix_app. cbn [mbind option_bind].
  assert (Hlit : lit (id t) = ["T"%char; d1; d2; d3]) by (by rewrite Hid, lit_str).
  rewrite Hlit.
  change (task_id_colon (["T"%char; d1; d2; d3] ++ lit ": " ++ ?J))
    with (if ascii_eqb "T" "T" && is_digit d1 && is_digit d2 && is_digit d3
             && ascii_eqb ":" ":"
          then Some (["T"%char; d1; d2; d3], " "%char :: J) else None).
  rewrite H1, H2, H3. cbn [andb ascii_eqb Ascii.eqb Bool.eqb mbind option_bind].
  rewrite ws_then_rest_space; [|done|done|].
  - cbn [mbind option_bind].
    pose proof (split_join_bar [] (line_parts t) eq_refl eq_refl) as Hsplit.
    cbn [app] in Hsplit. rewrite Hsplit; [|by rewrite Hparts|done].
    rewrite Hparts. cbn [fold_left].
    rewrite read_part_file, read_part_deps, read_part_complexity by done.
    cbn [f_filePath f_dependsOn f_complexity].
    rewrite <- Hlit, !str_lit. destruct Hwf as (_ & (Hdne & _ & Hdh & Hdl) & _).
    rewrite trim_id by done. rewrite str_lit.
    destruct t; simpl in *; by subst.
  - eapply forallb_impl; [apply line_char_no_terminator | done].
Qed.

(** *** The block of task lines *)

Lemma serialize_line_facts t :
  wf_task t ->
  forallb line_char (serialize_line t) = true
  /\ trim (serialize_line t) = serialize_line t
  /\ head (serialize_line t) = Some "-"%char.
Proof.
  intros Hwf. destruct (line_parts_join t Hwf) as (Hjne & _ & Hjlast & Hjl).
  pose proof Hwf as ((d1 & d2 & d3 & Hid & H1 & H2 & H3) & _).
  assert (Hlit : lit (id t) = ["T"%char; d1; d2; d3]) by (by rewrite Hid, lit_str).
  assert (Hdigit : forall d, is_digit d = true -> line_char d = true).
  { intros d Hd. unfold is_digit in Hd. cbv zeta in Hd.
    apply andb_true_iff in Hd as [Hlo Hhi].
    apply Nat.leb_le in Hlo. apply Nat.leb_le in Hhi.
    unfold line_char, is_terminator, ascii_eqb. cbv zeta.
    apply andb_true_iff. split; apply negb_true_iff.
    - revert Hlo Hhi. generalize (code d). intros n Hlo Hhi.
      apply orb_false_iff. split; apply Nat.eqb_neq; lia.
    - apply Ascii.eqb_neq. intros ->. vm_compute in Hhi. lia. }
  split_and!.
  - unfold serialize_line. rewrite Hlit, !forallb_app, Hjl. cbn [forallb].
    by rewrite (Hdigit d1 H1), (Hdigit d2 H2), (Hdigit d3 H3).
  - apply trim_id.
    + by intros c [= <-].
    + intros c. unfold serialize_line. rewrite !last_app.
      destruct (last (join_bar (line_parts t))) as [y|] eqn:E.
      * intros [= <-]. by apply Hjlast.
      * by apply last_None in E.
    + done.
  - done.
Qed.

Lemma split_lines ts :
  Forall wf_task ts ->
  split_on LF (concat (map (fun t => serialize_line t ++ [LF]) ts))
  = map serialize_line ts ++ [[]].
Proof.
  intros Hall. induction Hall as [|t rest Ht Hrest IH]; [done|].
  cbn [map concat]. rewrite <- app_assoc. cbn [app].
  rewrite split_on_app.
  - by rewrite IH.
  - destruct (serialize_line_facts t Ht) as (Hl & _).
    eapply forallb_impl; [apply line_char_no_LF | done].
Qed.

Lemma parse_lines_serialized ts :
  Forall wf_task ts -> parse_lines (map serialize_line ts ++ [[]]) None = ts.
Proof.
  intros Hall. induction Hall as [|t rest Ht Hrest IH]; [done|].
  cbn [map app parse_lines].
  destruct (serialize_line_facts t Ht) as (_ & -> & _).
  rewrite parseTaskLine_serialize by done. rewrite IH.
  unfold serialize_line at 1 2.
  change (match_phase_header (lit "- [ ] " ++ ?x)) with (@None text).
  change (startsWith (lit "- [ ]") (lit "- [ ] " ++ ?x)) with true.
  done.
Qed.

Lemma no_backtick_lines ts :
  Forall wf_task ts ->
  forallb (fun c => negb (ascii_eqb "`" c))
    (concat (map (fun t => serialize_line t ++ [LF]) ts)) = true.
Proof.
  intros Hall. induction Hall as [|t rest Ht Hrest IH]; [done|].
  cbn [map concat]. rewrite !forallb_app, IH.
  destruct (serialize_line_facts t Ht) as (Hl & _).
  rewrite (forallb_impl _ _ _ line_char_no_backtick Hl). done.
Qed.

Lemma lines_head ts c post :
  Forall wf_task ts ->
  head (concat (map (fun t => serialize_line t ++ [LF]) ts) ++ fence ++ post) = Some c ->
  is_space c = false.
Proof.
  intros Hall. destruct Hall as [|t rest Ht Hrest].
  - by intros [= <-].
  - cbn [map concat]. destruct (serialize_line_facts t Ht) as (_ & _ & Hh).
    destruct (serialize_line t); [done|]. simpl in *. injection Hh as ->.
    by intros [= <-].
Qed.

Lemma parse_serialized_block pre post ts :
  forallb (fun c => negb (ascii_eqb "`" c)) pre = true ->
  Forall wf_task ts ->
  parseTasksFromSpec (pre ++ serialize_block ts ++ post) = ts.
Proof.
  intros Hpre Hall. unfold parseTasksFromSpec, match_tasks_block, serialize_block.
  set (body := concat (map (fun t => serialize_line t ++ [LF]) ts)).
  replace (pre ++ (tasks_fence ++ [LF] ++ body ++ fence) ++ post)
    with (pre ++ tasks_fence ++ (LF :: body ++ fence ++ post))
    by (by rewrite <- !app_assoc).
  unfold tasks_fence at 2. change (lit "```tasks") with ("`"%char :: lit "``tasks").
  rewrite (after_first_skip "`" (lit "``tasks") pre _ Hpre).
  cbn [mbind option_bind]. change (drop_while is_space (LF :: ?x)) with (drop_while is_space x).
  rewrite drop_while_head by (intros c; by apply lines_head).
  unfold fence. change (lit "```") with ("`"%char :: lit "``").
  rewrite (before_first_skip "`" (lit "``") body post (no_backtick_lines ts Hall)).
  unfold body. rewrite split_lines by done. by apply parse_lines_serialized.
Qed.

(** C8. A plan text whose tasks block is made of the lines of [N] well-formed
    records ([- [ ] T###: <description> | File: <path> | DependsOn: <ids> |
    Complexity: <low|medium|high>], written by [serialize_block]), with any
    text after the block and any backtick-free text before it, parses to
    exactly these [N] records, ids in document order; writing the parsed
    records back as a block and parsing again gives the same records. *)
Theorem task_block_round_trip pre post ts :
  forallb (fun c => negb (ascii_eqb "`" c)) pre = true ->
  Forall wf_task ts ->
  let parsed := parseTasksFromSpec (pre ++ serialize_block ts ++ post) in
  length parsed = length ts
  /\ map id parsed = map id ts
  /\ parsed = ts
  /\ parseTasksFromSpec (serialize_block parsed) = parsed.
Proof.
  intros Hpre Hall parsed.
  assert (Hparsed : parsed = ts) by (by apply parse_serialized_block).
  rewrite Hparsed. split_and!; try done.
  pose proof (parse_serialized_block [] [] ts eq_refl Hall) as H.
  by rewrite app_nil_r in H.
Qed.

Ltac wf_field_tac :=
  split; [done | split; [by vm_compute | split; by intros c [= <-]]].

Ltac wf_dep_tac := split; [done | by vm_compute].

Lemma schema_task_wf : wf_task schema_task.
Proof.
  split; [exists "0"%char, "0"%char, "1"%char; by vm_compute|].
  split; [wf_field_tac|].
  split; [eexists; split; [done | wf_field_tac]|].
  split; [eexists; split; [done | split; [done |
    constructor; [wf_dep_tac | constructor]]]|].
  split; [by eexists|]. done.
Qed.

Lemma routes_task_wf : wf_task routes_task.
Proof.
  split; [exists "0"%char, "0"%char, "2"%char; by vm_compute|].
  split; [wf_field_tac|].
  split; [eexists; split; [done | wf_field_tac]|].
  split; [eexists; split; [done | split; [done |
    constructor; [wf_dep_tac | constructor; [wf_dep_tac | constructor]]]]|].
  split; [by eexists|]. done.
Qed.

Lemma task_block_witness :
  let parsed :=
    parseTasksFromSpec (lit "The plan: " ++ serialize_block [schema_task; routes_task]
                        ++ lit " Then `review`.") in
  length parsed = 2%nat
  /\ map id parsed = ["T001"; "T002"]
  /\ parsed = [schema_task; routes_task]
  /\ parseTasksFromSpec (serialize_block parsed) = parsed.
Proof.
  apply (task_block_round_trip (lit "The plan: ") (lit " Then `review`.")
           [schema_task; routes_task]).
  - reflexivity.
  - constructor; [exact schema_task_wf|]. constructor; [exact routes_task_wf|].
    constructor.
Defined.

(** ** Further properties of the dependency scheduler *)

Import Task Scheduler.

(** *** Every pass of the outer loop *)

Lemma main_loop_pass w cap fuel queue r :
  main_loop w cap (S fuel) queue r
  = match pass w cap queue r with
    | inl e => Some e
    | inr (queue', r') => main_loop w cap fuel queue' r'
    end.
Proof.
  unfold pass, settle_winner. cbn [main_loop].
  destruct (aborted w (clock r)); [done|].
  destruct (fill_loop w cap queue r) as [queue1 r1].
  case_bool_decide; [done|].
  destruct (race w r1) as [k ok]. cbv zeta. cbn [tasks].
  by destruct (taskMap_index (tasks r1) k).
Qed.

Lemma fill_loop_invariant (I : list nat -> Run -> Prop) w cap :
  (forall i rest r, I (i :: rest) r -> hadFailure r = false ->
     (size (inFlight r) < cap)%nat -> I rest (scheduleTask w r i)) ->
  forall queue r queue' r',
    I queue r -> fill_loop w cap queue r = (queue', r') -> I queue' r'.
Proof.
  intros Hstep queue. induction queue as [|i rest IH]; intros r queue' r' HI; simpl.
  - by intros [= <- <-].
  - destruct (negb (hadFailure r)) eqn:Hnf; simpl.
    + case_bool_decide as Hc; simpl; [|by intros [= <- <-]].
      apply IH, Hstep; [done | by apply negb_true_iff | done].
    + by intros [= <- <-].
Qed.

Lemma main_loop_invariant (I : list nat -> Run -> Prop) w cap :
  (forall i rest r, I (i :: rest) r -> hadFailure r = false ->
     (size (inFlight r) < cap)%nat -> I rest (scheduleTask w r i)) ->
  (forall queue r, I queue r -> size (inFlight r) <> 0%nat ->
     I (settle_winner w queue r).1 (settle_winner w queue r).2) ->
  forall fuel queue r e,
    I queue r -> main_loop w cap fuel queue r = Some e -> exit_with I e.
Proof.
  intros Hstart Hsettle fuel. induction fuel as [|fuel IH]; intros queue r e HI; [done|].
  rewrite main_loop_pass. unfold pass.
  destruct (aborted w (clock r)); [intros [= <-]; by exists queue|].
  destruct (fill_loop w cap queue r) as [queue1 r1] eqn:Hfill.
  pose proof (fill_loop_invariant I w cap Hstart _ _ _ _ HI Hfill) as HI1.
  case_bool_decide as Hsize.
  - intros [= <-]. split; [done|]. by apply size_empty_inv, leibniz_equiv in Hsize.
  - specialize (Hsettle _ _ HI1 Hsize).
    destruct (settle_winner w queue1 r1) as [queue2 r2]. by apply IH.
Qed.

(** With distinct ids the winner of the race is a task in progress; the
    rest of the pass, written out. *)
Lemma settle_winner_eq w queue r :
  sched_inv queue r -> size (inFlight r) <> 0%nat ->
  exists k j tj,
    k ∈ inFlight r /\ taskMap_index (tasks r) k = Some j
    /\ tasks r !! j = Some tj /\ status tj = in_progress /\ id tj = k
    /\ settle_winner w queue r
       = if outcome w (clock r) then
           let ts := set_status (tasks r) j completed in
           let fl := inFlight r ∖ {[k]} ∖ lost w (S (clock r)) in
           (if hadFailure r then queue else refill ts fl 0 ts queue,
            {| tasks := ts; inFlight := fl; hadFailure := hadFailure r;
               clock := S (S (clock r));
               events := events r ++ [auto_mode_task_complete k (count_completed ts)];
               starts := starts r |})
         else
           (queue,
            {| tasks := set_status (tasks r) j failed;
               inFlight := inFlight r ∖ {[k]} ∖ lost w (S (clock r));
               hadFailure := true; clock := S (S (clock r));
               events := events r; starts := starts r |}).
Proof.
  intros Hinv Hsize. pose proof (race_winner_in w r Hsize) as Hk.
  unfold settle_winner. destruct (race w r) as [k ok] eqn:Hrace. simpl in Hk.
  assert (Hok : ok = outcome w (clock r)) by (by unfold race in Hrace; injection Hrace).
  destruct (inv_flight _ _ Hinv k Hk) as (j & tj & Hj & Htj & Hst).
  exists k, j, tj.
  assert (Hid : id tj = k).
  { apply taskMap_index_Some in Hj as (t' & Ht' & Hid'). by simplify_eq. }
  split_and!; try done.
  cbv zeta. cbn [tasks]. rewrite Hj, <- Hok. by destruct ok.
Qed.

Lemma settle_winner_inv w queue r :
  sched_inv queue r -> size (inFlight r) <> 0%nat ->
  sched_inv (settle_winner w queue r).1 (settle_winner w queue r).2.
Proof.
  intros Hinv Hsize.
  destruct (settle_winner_eq w queue r Hinv Hsize)
    as (k & j & tj & Hk & Hj & Htj & Hst & Hid & ->).
  pose proof Hinv as [H1 H2 H3 H4 H5].
  assert (Hflight : forall st k', k' ∈ inFlight r ∖ {[k]} ∖ lost w (S (clock r)) ->
            exists j' t', taskMap_index (set_status (tasks r) j st) k' = Some j'
                          /\ set_status (tasks r) j st !! j' = Some t'
                          /\ status t' = in_progress).
  { intros st k' Hk'. apply elem_of_difference in Hk' as [Hk' _].
    by eapply (set_status_inv_flight queue r j tj st k). }
  destruct (outcome w (clock r)); cbv zeta; cbn [fst snd].
  - destruct (hadFailure r) eqn:Hnf.
    + split; cbn [tasks inFlight hadFailure starts];
        [by rewrite set_status_ids | done | done | by apply Hflight | done].
    + assert (Hready : Forall (fun q => ready_at (set_status (tasks r) j completed) q = true)
                         queue).
      { specialize (H2 eq_refl). apply Forall_forall. intros q Hq.
        rewrite Forall_forall in H2. specialize (H2 q Hq).
        apply ready_at_true in H2 as (tq & Htq & Hrq).
        apply ready_at_true. exists tq. split.
        - rewrite set_status_lookup_ne; [done|]. intros ->.
          apply isReady_true in Hrq as [Hp _]. congruence.
        - eapply isReady_set_status; [exact Htj | congruence | done]. }
      edestruct (refill_inv (set_status (tasks r) j completed)
                   (inFlight r ∖ {[k]} ∖ lost w (S (clock r))) 0
                   (set_status (tasks r) j completed) queue [])
        as [Hnd Hrd]; [done | done | done | exact Hready |].
      split; cbn [tasks inFlight hadFailure starts];
        [by rewrite set_status_ids | done | done | by apply Hflight | done].
  - split; cbn [tasks inFlight hadFailure starts];
      [by rewrite set_status_ids | done | done | by apply Hflight | done].
Qed.

Lemma sched_inv_exit w cap fuel ts e :
  NoDup (map id ts) ->
  main_loop w cap fuel (initial_queue (tasks (initial_run ts))) (initial_run ts) = Some e ->
  exit_with sched_inv e.
Proof.
  intros Hnd. apply main_loop_invariant; [| |by apply sched_inv_initial].
  - intros i rest r Hinv Hnf _. by apply scheduleTask_inv.
  - intros queue r. apply settle_winner_inv.
Qed.

(** *** From the loop to the result of [executeTasksWithDependencies] *)

Lemma executeTasks_exit w setting fuel ts err r :
  executeTasksWithDependencies w setting fuel ts = Some (err, r) ->
  exists e,
    main_loop w (maxTaskConcurrency setting) fuel
      (initial_queue (tasks (initial_run ts))) (initial_run ts) = Some e
    /\ ((e = Aborted r /\ err = Some ABORTED)
        \/ exists queue r0, e = Break queue r0 /\ after_loop r0 = (err, r)).
Proof.
  unfold executeTasksWithDependencies.
  destruct (main_loop _ _ _ _ _) as [[r'|queue r0]|]; [| |done].
  - intros [= <- <-]. eexists. split; [done|]. by left.
  - intros [= H]. eexists. split; [done|]. right. by exists queue, r0.
Qed.

Lemma after_loop_spec r0 err r :
  after_loop r0 = (err, r) ->
  inFlight r = inFlight r0 /\ starts r = starts r0 /\ events r = events r0
  /\ hadFailure r = hadFailure r0
  /\ ((err = Some TASKS_FAILED /\ hadFailure r0 = true
       /\ tasks r = block_pending (tasks r0))
      \/ (err = Some CYCLE_DETECTED /\ hadFailure r0 = false
          /\ has_pending (tasks r0) = true /\ tasks r = block_pending (tasks r0))
      \/ (err = None /\ hadFailure r0 = false /\ has_pending (tasks r0) = false
          /\ r = r0)).
Proof.
  unfold after_loop. destruct (hadFailure r0) eqn:Hf.
  - intros [= <- <-]. split_and!; try done. by left.
  - destruct (has_pending (tasks r0)) eqn:Hp; intros [= <- <-]; split_and!; try done.
    + right. by left.
    + right. by right.
Qed.

(** *** The concurrency cap *)

Lemma size_union_singleton_le (k : string) (X : gset string) :
  (size ({[k]} ∪ X) <= S (size X))%nat.
Proof.
  pose proof (size_union_alt ({[k]} : gset string) X) as H.
  rewrite size_singleton in H. pose proof (size_difference_le X {[k]}). lia.
Qed.

Lemma cap_scheduleTask w cap r i :
  cap_inv cap r -> (size (inFlight r) < cap)%nat -> cap_inv cap (scheduleTask w r i).
Proof.
  intros [Hs Hst] Hlt. split; simpl.
  - set (tid := default "" _).
    pose proof (size_difference_le ({[tid]} ∪ inFlight r ∖ lost w (clock r))
                  (lost w (S (clock r)))).
    pose proof (size_union_singleton_le tid (inFlight r ∖ lost w (clock r))).
    pose proof (size_difference_le (inFlight r) (lost w (clock r))). lia.
  - apply Forall_app. split; [done|]. by constructor.
Qed.

Lemma cap_settle_winner w cap queue r :
  cap_inv cap r -> cap_inv cap (settle_winner w queue r).2.
Proof.
  intros [Hs Hst]. unfold settle_winner. destruct (race w r) as [k ok].
  cbv zeta. cbn [tasks].
  pose proof (size_difference_le (inFlight r) {[k]}).
  pose proof (size_difference_le (inFlight r ∖ {[k]}) (lost w (S (clock r)))).
  destruct (taskMap_index (tasks r) k); [destruct ok|]; split; simpl; try done; lia.
Qed.


Import Examples.


(** *** No start after a failure *)

Lemma no_failed_set_status ts i st :
  st <> failed -> no_failed ts -> no_failed (set_status ts i st).
Proof.
  intros Hst H. unfold no_failed in *. rewrite Forall_lookup in *. intros k t.
  destruct (decide (i = k)) as [->|Hne].
  - rewrite set_status_lookup_eq. destruct (ts !! k); [|done]. by intros [= <-].
  - rewrite set_status_lookup_ne by done. apply H.
Qed.

Lemma no_failed_map ts (f : ParsedTask -> bool) st :
  st <> failed -> no_failed ts ->
  no_failed (map (fun t => if f t then with_status t st else t) ts).
Proof.
  intros Hst H. unfold no_failed in *. rewrite Forall_forall in *. intros t Ht.
  apply list_elem_of_fmap in Ht as (t0 & -> & Ht0).
  destruct (f t0); [done | by apply H].
Qed.

Lemma failfast_scheduleTask w r i :
  failfast_inv r -> hadFailure r = false -> failfast_inv (scheduleTask w r i).
Proof.
  intros [H1 H2] Hnf. specialize (H1 Hnf). split; simpl.
  - intros _. by apply no_failed_set_status.
  - apply Forall_app. split; [done|]. by constructor.
Qed.

Lemma failfast_settle_winner w queue r :
  failfast_inv r -> failfast_inv (settle_winner w queue r).2.
Proof.
  intros [H1 H2]. unfold settle_winner. destruct (race w r) as [k ok].
  cbv zeta. cbn [tasks].
  destruct (taskMap_index (tasks r) k); [destruct ok|]; split; simpl; try done.
  intros Hnf. apply no_failed_set_status; [done | by apply H1].
Qed.

(** X2. Given tasks none of which is failed, the scheduler starts a task
    only while no task is failed; and when a task has failed, the run ends
    with the abort error or with the task-failure error and no task left
    pending. *)
Theorem scheduler_starts_nothing_after_a_failure w setting fuel ts err r :
  no_failed ts ->
  executeTasksWithDependencies w setting fuel ts = Some (err, r) ->
  Forall (fun st => no_failed (tasks_before st)) (starts r)
  /\ (~ no_failed (tasks r) ->
      err = Some ABORTED
      \/ (err = Some TASKS_FAILED /\ Forall (fun t => status t <> pending) (tasks r))).
Proof.
  intros Hnf Hrun.
  destruct (executeTasks_exit _ _ _ _ _ _ Hrun) as (e & He & Hcase).
  assert (Hexit : exit_with (fun _ r' => failfast_inv r') e).
  { revert He. apply main_loop_invariant.
    - intros i rest r0 Hc Hf _. by apply failfast_scheduleTask.
    - intros queue r0 Hc _. by apply failfast_settle_winner.
    - split; cbn [initial_run tasks starts]; [|constructor].
      intros _. by apply no_failed_map. }
  destruct Hcase as [[-> ->]|(queue & r0 & -> & Hafter)].
  - destruct Hexit as (_ & _ & Hst). split; [done|]. by left.
  - destruct Hexit as [[H1 H2] _].
    destruct (after_loop_spec _ _ _ Hafter) as (_ & -> & _ & _ & Hcases).
    split; [done|]. intros Hfailed. right.
    destruct Hcases as [(-> & _ & ->)|[(_ & Hf & _ & Hts)|(_ & Hf & _ & ->)]].
    + split; [done|]. apply block_pending_none.
    + exfalso. apply Hfailed. rewrite Hts. apply no_failed_map; [done | by apply H1].
    + exfalso. apply Hfailed. by apply H1.
Qed.

Lemma scheduler_failure_witness :
  no_failed cycle_and_more
  /\ exists err r,
       executeTasksWithDependencies (steady false) (Some 2%Z) 4 cycle_and_more
       = Some (err, r)
       /\ Forall (fun st => no_failed (tasks_before st)) (starts r)
       /\ (~ no_failed (tasks r) ->
           err = Some ABORTED
           \/ (err = Some TASKS_FAILED
               /\ Forall (fun t => status t <> pending) (tasks r))).
Proof.
  assert (Hnf : no_failed cycle_and_more).
  { unfold no_failed, cycle_and_more. repeat (constructor; [done|]). constructor. }
  split; [exact Hnf|].
  let v := eval vm_compute in
    (executeTasksWithDependencies (steady false) (Some 2%Z) 4 cycle_and_more) in
  match v with
  | Some (?e, ?r) =>
      exists e, r; split; [vm_compute; reflexivity|];
      apply (scheduler_starts_nothing_after_a_failure (steady false) (Some 2%Z) 4
               cycle_and_more e r Hnf);
      vm_compute; reflexivity
  end.
Defined.

(** *** A task with an unknown dependency *)

Lemma blocked_scheduleTask w q rest r i :
  sched_inv (q :: rest) r -> hadFailure r = false ->
  blocked_inv i r -> blocked_inv i (scheduleTask w r q).
Proof.
  intros Hinv Hnf [Hb Hst].
  assert (Hqi : q <> i).
  { intros ->. pose proof (inv_queue _ _ Hinv Hnf) as Hq.
    apply Forall_cons in Hq as [Hq _].
    apply ready_at_true in Hq as (t & Ht & Hr). apply isReady_true in Hr as [Hp _].
    rewrite Ht in Hb. simpl in Hb. congruence. }
  split; simpl.
  - by rewrite set_status_lookup_ne.
  - apply Forall_app. split; [done|]. by constructor.
Qed.

Lemma blocked_settle_winner w queue r i :
  sched_inv queue r -> size (inFlight r) <> 0%nat ->
  blocked_inv i r -> blocked_inv i (settle_winner w queue r).2.
Proof.
  intros Hinv Hsize [Hb Hst].
  destruct (settle_winner_eq w queue r Hinv Hsize)
    as (k & j & tj & Hk & Hj & Htj & Hs & Hid & ->).
  assert (Hji : j <> i).
  { intros ->. rewrite Htj in Hb. simpl in Hb. congruence. }
  destruct (outcome w (clock r)); split; simpl; try done;
    by rewrite set_status_lookup_ne.
Qed.

Lemma block_pending_blocked ts i :
  status <$> ts !! i = Some blocked -> status <$> block_pending ts !! i = Some blocked.
Proof.
  rewrite block_pending_lookup. destruct (ts !! i) as [t|]; [|done]. simpl.
  intros [= Hb]. case_bool_decide; [congruence|]. by rewrite Hb.
Qed.

(** X3. With distinct ids, a task that names a dependency id no task has is
    marked blocked before the loop, is never started, and is still blocked
    when the run ends, however it ends. *)
Theorem scheduler_never_starts_task_with_unknown_dependency
    w setting fuel ts err r i t :
  NoDup (map id ts) ->
  ts !! i = Some t -> has_missing ts t = true ->
  executeTasksWithDependencies w setting fuel ts = Some (err, r) ->
  status <$> tasks r !! i = Some blocked
  /\ Forall (fun st => start_index st <> i) (starts r).
Proof.
  intros Hnd Ht Hmiss Hrun.
  destruct (executeTasks_exit _ _ _ _ _ _ Hrun) as (e & He & Hcase).
  assert (Hexit : exit_with (fun q r' => sched_inv q r' /\ blocked_inv i r') e).
  { revert He. apply main_loop_invariant.
    - intros q rest r0 [Hs Hb] Hf _. split.
      + by apply scheduleTask_inv.
      + by eapply blocked_scheduleTask.
    - intros queue r0 [Hs Hb] Hsize. split.
      + by apply settle_winner_inv.
      + by apply blocked_settle_winner.
    - split; [by apply sched_inv_initial|].
      split; cbn [initial_run tasks starts]; [|constructor].
      unfold mark_missing. rewrite list_lookup_fmap, Ht. simpl. by rewrite Hmiss. }
  destruct Hcase as [[-> ->]|(queue & r0 & -> & Hafter)].
  - by destruct Hexit as (_ & _ & Hb).
  - destruct Hexit as [[_ [Hb Hst]] _].
    destruct (after_loop_spec _ _ _ Hafter) as (_ & -> & _ & _ & Hcases).
    split; [|done].
    destruct Hcases as [(_ & _ & ->)|[(_ & _ & _ & ->)|(_ & _ & _ & ->)]];
      try done; by apply block_pending_blocked.
Qed.

Lemma scheduler_orphan_witness :
  NoDup (map id orphan)
  /\ exists err r,
       executeTasksWithDependencies (steady true) None 3 orphan = Some (err, r)
       /\ status <$> tasks r !! 1%nat = Some blocked
       /\ Forall (fun st => start_index st <> 1%nat) (starts r).
Proof.
  assert (Hnd : NoDup (map id orphan)).
  { apply (bool_decide_unpack _). vm_compute. exact I. }
  split; [exact Hnd|].
  let v := eval vm_compute in
    (executeTasksWithDependencies (steady true) None 3 orphan) in
  match v with
  | Some (?e, ?r) =>
      exists e, r; split; [vm_compute; reflexivity|];
      apply (scheduler_never_starts_task_with_unknown_dependency (steady true) None 3
               orphan e r 1%nat (task "B" (Some ["Z"])) Hnd);
      vm_compute; reflexivity
  end.
Defined.

(** *** When all goes well *)

Lemma isReady_set_status_back ts i st t :
  st <> completed -> isReady (set_status ts i st) t = true -> isReady ts t = true.
Proof.
  intros Hst. rewrite !isReady_true. intros [Hp Hdeps]. split; [done|].
  intros d Hd. destruct (Hdeps d Hd) as (dt & Hget & Hc).
  unfold taskMap_get in *.
  rewrite (taskMap_index_ids _ ts) in Hget by apply set_status_ids.
  destruct (taskMap_index ts d) as [j|]; [|done]. simpl in *.
  destruct (decide (i = j)) as [->|Hne].
  - rewrite set_status_lookup_eq in Hget. destruct (ts !! j); [|done].
    simpl in Hget. injection Hget as <-. done.
  - rewrite set_status_lookup_ne in Hget by done. by exists dt.
Qed.

Lemma refill_keeps all flying i rest queue x :
  x ∈ queue -> x ∈ refill all flying i rest queue.
Proof.
  revert i queue. induction rest as [|t rest IH]; intros i queue Hx; simpl; [done|].
  apply IH. destruct (isReady all t && _ && _); [|done].
  apply elem_of_app. by left.
Qed.

Lemma refill_complete all flying rest queue x t :
  forall i prefix, all = prefix ++ rest -> length prefix = i ->
  (i <= x)%nat -> all !! x = Some t -> isReady all t = true -> id t ∉ flying ->
  x ∈ refill all flying i rest queue.
Proof.
  revert queue. induction rest as [|t0 rest IH]; intros queue i prefix Hall Hlen Hle Hx Hr Hfl.
  - exfalso. rewrite app_nil_r in Hall. subst. apply lookup_lt_Some in Hx. lia.
  - simpl. assert (Hi : all !! i = Some t0).
    { subst all. rewrite lookup_app_r by lia. by rewrite Hlen, Nat.sub_diag. }
    destruct (decide (x = i)) as [->|Hne].
    + rewrite Hx in Hi. injection Hi as <-. apply refill_keeps.
      rewrite Hr. cbn [andb]. destruct (bool_decide (i ∈ queue)) eqn:Hq; simpl.
      * by apply bool_decide_eq_true in Hq.
      * rewrite bool_decide_eq_false_2 by done. simpl. apply elem_of_app. right.
        by apply list_elem_of_singleton.
    + apply (IH _ (S i) (prefix ++ [t0])); try done.
      * by rewrite <- app_assoc.
      * rewrite length_app. simpl. lia.
      * lia.
Qed.

Lemma no_missing_dependencies ts :
  dependencies_earlier ts -> mark_missing ts = ts.
Proof.
  intros Hdeps. unfold mark_missing. apply list_eq. intros i.
  rewrite list_lookup_fmap. destruct (ts !! i) as [t|] eqn:Ht; [|done]. simpl.
  destruct (Hdeps i t Ht) as [_ Hd].
  assert (Hm : has_missing ts t = false); [|by rewrite Hm].
  revert Hd.
  unfold has_missing. destruct (dependsOn t) as [deps|]; [|done]. intros Hd.
  apply negb_false_iff, bool_decide_eq_true.
  simpl in Hd. induction deps as [|d deps IH]; [done|]. simpl.
  assert (Hhas : taskMap_has ts d = true).
  { assert (Hin : d ∈ d :: deps) by (apply elem_of_cons; by left).
    destruct (Hd d Hin) as (j & tj & _ & Htj & Hid).
    unfold taskMap_has. apply bool_decide_eq_true.
    destruct (taskMap_index ts d) eqn:Hidx; [done|].
    apply taskMap_index_None in Hidx. exfalso. apply Hidx.
    apply list_elem_of_fmap. exists tj. split; [done|]. by eapply list_elem_of_lookup_2. }
  rewrite Hhas. simpl. apply IH. intros d' Hd'. apply Hd. apply elem_of_cons. by right.
Qed.

Lemma difference_empty_gset (X : gset string) : X ∖ ∅ = X.
Proof. apply difference_empty_L. Qed.

Lemma progress_scheduleTask w i rest r :
  all_goes_well w -> sched_inv (i :: rest) r ->
  progress_inv (i :: rest) r -> progress_inv rest (scheduleTask w r i).
Proof.
  intros Hw Hinv (Hnf & Hready & Hfl & Hst).
  pose proof (inv_queue _ _ Hinv Hnf) as Hq. apply Forall_cons in Hq as [Hqi _].
  apply ready_at_true in Hqi as (ti & Hti & Hri).
  pose proof (inv_nodup _ _ Hinv) as Hnd. apply NoDup_cons in Hnd as [Hnotin _].
  unfold progress_inv, scheduleTask. cbn [tasks inFlight hadFailure await clock].
  destruct (Hw (clock r)) as (_ & _ & ->). destruct (Hw (S (clock r))) as (_ & _ & ->).
  rewrite !difference_empty_gset, set_status_lookup_eq, Hti. simpl.
  split_and!.
  - done.
  - intros x Hx. apply ready_at_true in Hx as (t & Ht & Hr).
    destruct (decide (i = x)) as [->|Hne].
    + rewrite set_status_lookup_eq, Hti in Ht. injection Ht as <-.
      apply isReady_true in Hr as [Hp _]. done.
    + rewrite set_status_lookup_ne in Ht by done.
      apply isReady_set_status_back in Hr; [|done].
      assert (Hx : x ∈ i :: rest) by (apply Hready, ready_at_true; eauto).
      apply elem_of_cons in Hx as [->|Hx]; done.
  - intros x t Ht Hs. destruct (decide (i = x)) as [->|Hne].
    + rewrite set_status_lookup_eq, Hti in Ht. injection Ht as <-.
      apply elem_of_union. left. by apply elem_of_singleton.
    + rewrite set_status_lookup_ne in Ht by done.
      apply elem_of_union. right. by eapply Hfl.
  - rewrite Forall_lookup in *. intros x t.
    destruct (decide (i = x)) as [->|Hne].
    + rewrite set_status_lookup_eq, Hti. intros [= <-]. simpl. tauto.
    + rewrite set_status_lookup_ne by done. apply Hst.
Qed.

Lemma progress_settle_winner w queue r :
  all_goes_well w -> sched_inv queue r -> size (inFlight r) <> 0%nat ->
  progress_inv queue r ->
  progress_inv (settle_winner w queue r).1 (settle_winner w queue r).2.
Proof.
  intros Hw Hinv Hsize (Hnf & Hready & Hfl & Hst).
  pose proof (settle_winner_inv w queue r Hinv Hsize) as Hinv'.
  destruct (settle_winner_eq w queue r Hinv Hsize)
    as (k & j & tj & Hk & Hj & Htj & Hs & Hid & Heq).
  rewrite Heq in *. clear Heq.
  destruct (Hw (clock r)) as (_ & Hok & _). destruct (Hw (S (clock r))) as (_ & _ & Hlost).
  rewrite Hok, Hnf, Hlost in *. cbv zeta in *. cbn [fst snd] in *.
  rewrite difference_empty_gset in *.
  set (ts' := set_status (tasks r) j completed) in *.
  pose proof (inv_ids _ _ Hinv) as Hnd.
  assert (Hnd' : NoDup (map id ts')) by (unfold ts'; by rewrite set_status_ids).
  unfold progress_inv. cbn [tasks inFlight hadFailure].
  split_and!.
  - done.
  - intros x Hx. apply ready_at_true in Hx as (t & Ht & Hr).
    apply (refill_complete ts' _ ts' queue x t 0 []); try done; [lia|].
    intros Hin. destruct (inv_flight _ _ Hinv' _ Hin) as (j' & t' & Hj' & Ht' & Hs').
    cbn [tasks] in *. rewrite (taskMap_index_NoDup ts' x t) in Hj' by done.
    injection Hj' as <-. rewrite Ht in Ht'. injection Ht' as <-.
    apply isReady_true in Hr as [Hp _]. congruence.
  - intros x t Ht Hsx. destruct (decide (j = x)) as [->|Hne].
    + unfold ts' in Ht. rewrite set_status_lookup_eq, Htj in Ht. injection Ht as <-. done.
    + unfold ts' in Ht. rewrite set_status_lookup_ne in Ht by done.
      apply elem_of_difference. split; [by eapply Hfl|].
      intros Heq%elem_of_singleton. apply Hne.
      pose proof (taskMap_index_NoDup _ _ _ Hnd Ht) as Hx. rewrite Heq, Hj in Hx.
      by injection Hx.
  - rewrite Forall_lookup in *. intros x t. unfold ts'.
    destruct (decide (j = x)) as [->|Hne].
    + rewrite set_status_lookup_eq, Htj. intros [= <-]. simpl. tauto.
    + rewrite set_status_lookup_ne by done. apply Hst.
Qed.

(** X4. Given tasks with distinct ids, all pending, each depending only on
    earlier tasks of the list: when no task fails, the run is not aborted and
    no promise settles unobserved, the scheduler returns without an error
    within [length ts + 1] passes, every task ends completed and nothing else
    of a task is changed. *)
Theorem scheduler_completes_every_task w setting ts :
  NoDup (map id ts) -> dependencies_earlier ts -> all_goes_well w ->
  exists r,
    executeTasksWithDependencies w setting (S (length ts)) ts = Some (None, r)
    /\ tasks r = map (fun t => with_status t completed) ts
    /\ inFlight r = ∅ /\ hadFailure r = false.
Proof.
  intros Hnd Hdeps Hw.
  destruct (executeTasks_terminates w setting ts) as [[err r] Hrun].
  destruct (executeTasks_exit _ _ _ _ _ _ Hrun) as (e & He & Hcase).
  assert (Hexit : exit_with (fun q r' => sched_inv q r' /\ progress_inv q r') e).
  { revert He. apply main_loop_invariant.
    - intros q rest r0 [Hs Hp] Hf _. split.
      + by apply scheduleTask_inv.
      + by apply progress_scheduleTask.
    - intros queue r0 [Hs Hp] Hsize. split.
      + by apply settle_winner_inv.
      + by apply progress_settle_winner.
    - split; [by apply sched_inv_initial|].
      unfold progress_inv. cbn [initial_run tasks inFlight hadFailure].
      rewrite (no_missing_dependencies ts Hdeps). split_and!; [done | | |].
      + intros i. by rewrite initial_queue_ready.
      + intros i t Ht Hs. destruct (Hdeps i t Ht). congruence.
      + apply Forall_lookup. intros i t Ht. left. by destruct (Hdeps i t Ht). }
  pose proof (main_loop_exit _ _ [] _ _ _ _ (maxTaskConcurrency_pos setting)
                (sched_inv_initial ts Hnd) ltac:(by intros i Hi; set_solver) He) as Hok.
  pose proof (shape_main_loop _ _ ts _ _ _ _ (shape_initial ts) He) as [Hshape _].
  destruct Hcase as [[-> ->]|(queue & r0 & -> & Hafter)].
  { exfalso. revert He. clear -Hw. generalize (initial_queue (tasks (initial_run ts))).
    generalize (initial_run ts). generalize (S (length ts)). intros fuel.
    induction fuel as [|fuel IH]; intros r0 q; [done|].
    rewrite main_loop_pass. unfold pass. destruct (Hw (clock r0)) as (-> & _).
    destruct (fill_loop _ _ q r0) as [q1 r1]. case_bool_decide; [done|].
    destruct (settle_winner w q1 r1). apply IH. }
  destruct Hexit as [[Hinv (Hnf & Hready & Hfl & Hst)] Hempty].
  simpl in Hok. destruct Hok as (_ & _ & _ & Hq). specialize (Hq Hnf). subst queue.
  cbn [exit_run] in Hshape.
  assert (Hall : forall i t, tasks r0 !! i = Some t -> status t = completed).
  { intros i. induction (lt_wf i) as [i _ IH]. intros t Ht.
    rewrite Forall_lookup in Hst. destruct (Hst i t Ht) as [Hp|[Hp|Hp]]; [|  |done].
    - exfalso. destruct (same_tasks_lookup _ _ _ _ Hshape Ht) as (t0 & Ht0 & _ & Hd0).
      destruct (Hdeps i t0 Ht0) as [_ Hearlier].
      assert (Hr : ready_at (tasks r0) i = true).
      { apply ready_at_true. exists t. split; [done|]. apply isReady_true.
        split; [done|]. intros d Hd. rewrite <- Hd0 in Hd.
        destruct (Hearlier d Hd) as (j & tj & Hlt & Htj & Hid).
        assert (Hj : exists tj', tasks r0 !! j = Some tj' /\ id tj' = d).
        { unfold same_tasks in Hshape.
          assert (Hl : map (fun t => with_status t pending) ts !! j
                       = Some (with_status tj pending)).
          { change (map ?f ?l) with (f <$> l). by rewrite list_lookup_fmap, Htj. }
          rewrite <- Hshape in Hl. change (map ?f ?l) with (f <$> l) in Hl.
          rewrite list_lookup_fmap in Hl. destruct (tasks r0 !! j) as [tj'|]; [|done].
          exists tj'. split; [done|]. simpl in Hl. injection Hl as Hl.
          destruct tj, tj'. simpl in *. by simplify_eq. }
        destruct Hj as (tj' & Htj' & Hid').
        exists tj'. split; [|by eapply IH].
        unfold taskMap_get. rewrite <- Hid'.
        rewrite (taskMap_index_NoDup _ j tj') by (done || apply Hinv). done. }
      apply Hready in Hr. by apply elem_of_nil in Hr.
    - exfalso. specialize (Hfl i t Ht Hp). rewrite Hempty in Hfl.
      by apply elem_of_empty in Hfl. }
  assert (Hnp : has_pending (tasks r0) = false).
  { unfold has_pending. apply not_true_is_false. intros Hex.
    apply existsb_exists in Hex as (t & Hin & Hp). apply bool_decide_eq_true in Hp.
    apply list_elem_of_In, list_elem_of_lookup in Hin as [i Hi].
    specialize (Hall i t Hi). congruence. }
  unfold after_loop in Hafter. rewrite Hnf, Hnp in Hafter. injection Hafter as <- <-.
  exists r0. split_and!; try done.
  apply list_eq. intros i. rewrite list_lookup_fmap.
  destruct (tasks r0 !! i) as [t|] eqn:Ht.
  - destruct (same_tasks_lookup _ _ _ _ Hshape Ht) as (t0 & Ht0 & _).
    rewrite Ht0. simpl. f_equal. specialize (Hall i t Ht).
    unfold same_tasks in Hshape.
    assert (Hl : map (fun t => with_status t pending) (tasks r0) !! i
                 = Some (with_status t pending)).
    { change (map ?f ?l) with (f <$> l). by rewrite list_lookup_fmap, Ht. }
    rewrite Hshape in Hl. change (map ?f ?l) with (f <$> l) in Hl.
    rewrite list_lookup_fmap, Ht0 in Hl. simpl in Hl. injection Hl as Hl.
    destruct t, t0. simpl in *. by simplify_eq.
  - assert (Hlen : length (tasks r0) = length ts).
    { unfold same_tasks in Hshape. apply (f_equal length) in Hshape.
      by rewrite !length_map in Hshape. }
    apply lookup_ge_None in Ht. rewrite Hlen in Ht.
    apply lookup_ge_None in Ht. by rewrite Ht.
Qed.

Lemma diamond_dependencies_earlier : dependencies_earlier diamond.
Proof.
  intros i t Ht. destruct i as [|[|[|[|i]]]]; simpl in Ht; try done;
    injection Ht as <-; (split; [done|]); simpl; intros d Hd.
  - by apply elem_of_nil in Hd.
  - apply list_elem_of_singleton in Hd as ->. exists 0%nat. eexists. by split_and!; [lia| |].
  - apply list_elem_of_singleton in Hd as ->. exists 0%nat. eexists. by split_and!; [lia| |].
  - apply elem_of_cons in Hd as [->|Hd]; [|apply list_elem_of_singleton in Hd as ->].
    + exists 1%nat. eexists. by split_and!; [lia| |].
    + exists 2%nat. eexists. by split_and!; [lia| |].
Qed.

Lemma scheduler_completion_witness :
  exists r,
    executeTasksWithDependencies (steady true) (Some 2%Z) (S (length diamond)) diamond
    = Some (None, r)
    /\ tasks r = map (fun t => with_status t completed) diamond
    /\ inFlight r = ∅ /\ hadFailure r = false.
Proof.
  apply (scheduler_completes_every_task (steady true) (Some 2%Z) diamond).
  - apply (bool_decide_unpack _). vm_compute. exact I.
  - exact diamond_dependencies_earlier.
  - intros k. split_and!; reflexivity.
Defined.

(** ** Plan approvals and stopping a feature *)

(** X5. [cancelPlanApproval] on a feature with a stored waiter rejects the
    waiter's promise with the cancellation error, removes the entry and
    disarms its timeout; without a stored waiter it changes nothing. Either
    way the feature has no pending approval afterwards, and no other
    feature's entry, no file, no event and no running feature is touched. *)
Theorem cancel_plan_approval_rejects_and_removes (s : Service.State) (fid : string) :
  let s' := Service.cancelPlanApproval s fid in
  Service.hasPendingApproval s' fid = false
  /\ (forall k, k <> fid ->
        Service.pendingApprovals s' !! k = Service.pendingApprovals s !! k)
  /\ Service.files s' = Service.files s /\ Service.events s' = Service.events s
  /\ Service.runningFeatures s' = Service.runningFeatures s
  /\ match Service.pendingApprovals s !! fid with
     | None => s' = s
     | Some w =>
         (Service.approvals s !! Service.promise w = Some Service.Waiting ->
          Service.approvals s' !! Service.promise w
          = Some (Service.Failed "Plan approval cancelled - feature was stopped"))
         /\ (forall q, q <> Service.promise w ->
               Service.approvals s' !! q = Service.approvals s !! q)
         /\ Service.timers s' !! Service.promise w = None
         /\ Service.approvalTimeout s' (Service.promise w) = s'
     end.
Proof.
  unfold Service.cancelPlanApproval, Service.hasPendingApproval.
  destruct (Service.pendingApprovals s !! fid) as [w|] eqn:Hw; simpl.
  - split_and!; try done.
    + apply bool_decide_eq_false. rewrite lookup_delete_eq. by intros [? ?].
    + intros k Hk. by rewrite lookup_delete_ne.
    + intros Hp. unfold Service.settle. rewrite Hp.
      apply list_lookup_insert_eq. by eapply lookup_lt_Some.
    + intros q Hq. unfold Service.settle.
      destruct (Service.approvals s !! Service.promise w) as [[]|]; try done.
      by rewrite list_lookup_insert_ne.
    + apply lookup_delete_eq.
    + unfold Service.approvalTimeout. simpl. by rewrite lookup_delete_eq.
  - split_and!; try done. apply bool_decide_eq_false. rewrite Hw. by intros [? ?].
Qed.

(** X6. [resolvePlanApproval] on a feature with a stored waiter always
    succeeds: it settles the waiter's promise with the decision, removes the
    entry, disarms the timeout, and emits [plan_rejected] only for a rejection
    with feedback. If the feature file exists, the plan spec is stored as
    approved or rejected and as reviewed, and its content becomes the edited
    plan as given: when no edited plan is passed, the stored content is
    erased. The feature status is not changed, and no execution is started. *)
Theorem resolve_approval_with_waiter
    (s : Service.State) (fid : string) (approved : bool)
    (editedPlan feedback projectPathFromClient : option string)
    (now : Z) (stamp : string) (w : Service.PendingApproval) :
  Service.pendingApprovals s !! fid = Some w ->
  Service.approvals s !! Service.promise w = Some Service.Waiting ->
  let r := fst (Service.resolvePlanApproval s fid approved editedPlan feedback
                  projectPathFromClient now stamp) in
  let s' := snd (Service.resolvePlanApproval s fid approved editedPlan feedback
                   projectPathFromClient now stamp) in
  let path := Service.pa_projectPath w in
  r = {| Service.success := true; Service.response_error := None |}
  /\ Service.pendingApprovals s' !! fid = None
  /\ Service.approvals s' !! Service.promise w
     = Some (Service.Answered approved editedPlan feedback)
  /\ Service.timers s' !! Service.promise w = None
  /\ Service.events s'
     = Service.events s
       ++ (if negb approved && truthy (default "" feedback)
           then [Service.plan_rejected fid path feedback] else [])
  /\ Service.launches s' = Service.launches s
  /\ Service.runningFeatures s' = Service.runningFeatures s
  /\ match Service.files s !! (path, fid) with
     | None => Service.files s' = Service.files s
     | Some feature =>
         exists feature' ps',
           Service.files s' !! (path, fid) = Some feature'
           /\ Store.planSpec feature' = Some ps'
           /\ Plan.status ps' = (if approved then Plan.approved else Plan.rejected)
           /\ Plan.reviewedByUser ps' = true
           /\ Plan.approvedAt ps' = (if approved then Some stamp else None)
           /\ Plan.content ps' = editedPlan
           /\ Store.status feature' = Store.status feature
     end.
Proof.
  intros Hw Hp. unfold Service.resolvePlanApproval. rewrite Hw.
  set (upd := Plan.Build_Updates _ _ _ _ _ _ _ _ _ _ _ _ _).
  cbn [fst snd].
  assert (Hsettle : forall s2 : Service.State,
            Service.approvals s2 = Service.approvals s ->
            Service.settle (Service.approvals s2) (Service.promise w)
              (Service.Answered approved editedPlan feedback) !! Service.promise w
            = Some (Service.Answered approved editedPlan feedback)).
  { intros s2 ->. unfold Service.settle. rewrite Hp.
    apply list_lookup_insert_eq. by eapply lookup_lt_Some. }
  split_and!.
  - done.
  - destruct (negb approved && truthy (default "" feedback)); simpl;
      apply lookup_delete_eq.
  - destruct (negb approved && truthy (default "" feedback)); simpl;
      by apply Hsettle.
  - destruct (negb approved && truthy (default "" feedback)); simpl;
      apply lookup_delete_eq.
  - destruct (negb approved && truthy (default "" feedback)); simpl;
      [done | by rewrite app_nil_r].
  - by destruct (negb approved && truthy (default "" feedback)).
  - by destruct (negb approved && truthy (default "" feedback)).
  - destruct (Service.files s !! (Service.pa_projectPath w, fid)) as [feature|] eqn:Hf.
    + destruct (updateFeaturePlanSpec_lookup _ _ _ upd stamp _ Hf)
        as (p & Hl & Hst & Hrev & Happ & Hcont).
      exists (Store.with_planSpec feature p stamp), p.
      split_and!; try done.
      * by destruct (negb approved && truthy (default "" feedback)).
    + assert (Hsame : Store.updateFeaturePlanSpec (Service.files s)
                        (Service.pa_projectPath w) fid upd stamp = Service.files s).
      { unfold Store.updateFeaturePlanSpec. by rewrite Hf. }
      destruct (negb approved && truthy (default "" feedback)); simpl; by rewrite Hsame.
Qed.

Lemma resolve_with_waiter_witness :
  fst (Service.resolvePlanApproval waiting_once "f1" true None None None 0 "t")
  = {| Service.success := true; Service.response_error := None |}
  /\ Service.pendingApprovals
       (snd (Service.resolvePlanApproval waiting_once "f1" true None None None 0 "t"))
     !! "f1" = None
  /\ Service.approvals
       (snd (Service.resolvePlanApproval waiting_once "f1" true None None None 0 "t"))
     !! 0%nat = Some (Service.Answered true None None).
Proof.
  pose proof (resolve_approval_with_waiter waiting_once "f1" true None None None 0%Z "t"
                {| Service.promise := 0; Service.pa_featureId := "f1";
                   Service.pa_projectPath := "/p" |}
                ltac:(vm_compute; reflexivity) ltac:(vm_compute; reflexivity)) as H.
  cbv zeta in H. destruct H as (H1 & H2 & H3 & _). split_and!; assumption.
Defined.

Lemma approvalTimeout_live s p fid w :
  Service.timers s !! p = Some fid -> Service.pendingApprovals s !! fid = Some w ->
  Service.approvalTimeout s p
  = Service.set_approvals s (delete fid (Service.pendingApprovals s))
      (Service.settle (Service.approvals s) p
         (Service.Failed
            "Plan approval timed out after 30 minutes - feature execution cancelled"))
      (delete p (Service.timers s)).
Proof. intros Ht Hp. unfold Service.approvalTimeout. by rewrite Ht, Hp. Qed.

Lemma approvalTimeout_gone s p fid :
  Service.timers s !! p = Some fid -> Service.pendingApprovals s !! fid = None ->
  Service.approvalTimeout s p
  = Service.set_approvals s (Service.pendingApprovals s) (Service.approvals s)
      (delete p (Service.timers s)).
Proof. intros Ht Hp. unfold Service.approvalTimeout. by rewrite Ht, Hp. Qed.

(** X7. The timeout of an approval waiter that is still stored rejects its
    promise with the timeout error and removes the entry. But the timeout
    callback looks the entry up by feature id: when a second waiter was
    registered for the same feature, the timeout of the first one removes the
    second one's entry and rejects only the first promise; the second promise
    is left pending, [resolvePlanApproval] no longer finds it, and its own
    timeout then does nothing. *)
Theorem approval_timeout_by_feature_id (s : Service.State) (fid path1 path2 : string) :
  let p1 := fst (Service.waitForPlanApproval s fid path1) in
  let s1 := snd (Service.waitForPlanApproval s fid path1) in
  let timeout_message :=
    "Plan approval timed out after 30 minutes - feature execution cancelled" in
  (let s2 := Service.approvalTimeout s1 p1 in
   Service.approvals s2 !! p1 = Some (Service.Failed timeout_message)
   /\ Service.pendingApprovals s2 !! fid = None
   /\ Service.timers s2 !! p1 = None)
  /\ (let p2 := fst (Service.waitForPlanApproval s1 fid path2) in
      let s2 := snd (Service.waitForPlanApproval s1 fid path2) in
      let s3 := Service.approvalTimeout s2 p1 in
      let s4 := Service.approvalTimeout s3 p2 in
      p2 <> p1
      /\ Service.approvals s3 !! p1 = Some (Service.Failed timeout_message)
      /\ Service.approvals s3 !! p2 = Some Service.Waiting
      /\ Service.hasPendingApproval s3 fid = false
      /\ Service.approvals s4 !! p2 = Some Service.Waiting
      /\ Service.hasPendingApproval s4 fid = false
      /\ Service.timers s4 !! p2 = None).
Proof.
  cbv zeta. unfold Service.waitForPlanApproval. cbn [fst snd].
  set (n := length (Service.approvals s)).
  assert (Hn : (Service.approvals s ++ [Service.Waiting]) !! n = Some Service.Waiting).
  { unfold n. by rewrite lookup_app_r, Nat.sub_diag. }
  split.
  - erewrite (approvalTimeout_live _ n fid); cycle 1.
    { cbn. apply lookup_insert_eq. }
    { cbn. apply lookup_insert_eq. }
    cbn [Service.approvals Service.set_approvals Service.pendingApprovals
         Service.timers].
    split_and!; [|apply lookup_delete_eq|apply lookup_delete_eq].
    unfold Service.settle. rewrite Hn. apply list_lookup_insert_eq.
    by eapply lookup_lt_Some.
  - cbn [Service.approvals Service.set_approvals Service.pendingApprovals
         Service.timers].
    rewrite length_app. cbn [length]. fold n.
    set (a2 := (Service.approvals s ++ [Service.Waiting]) ++ [Service.Waiting]).
    assert (Hn1 : a2 !! (n + 1)%nat = Some Service.Waiting).
    { unfold a2. rewrite lookup_app_r; rewrite length_app; simpl; [|unfold n; lia].
      by replace (n + 1 - (length (Service.approvals s) + 1))%nat with 0%nat
        by (unfold n; lia). }
    assert (Hn0 : a2 !! n = Some Service.Waiting).
    { unfold a2. rewrite lookup_app_l; [done|]. rewrite length_app. simpl.
      unfold n. lia. }
    erewrite (approvalTimeout_live _ n fid); cycle 1.
    { cbn. rewrite lookup_insert_ne by lia. apply lookup_insert_eq. }
    { cbn. apply lookup_insert_eq. }
    cbn [Service.approvals Service.set_approvals Service.pendingApprovals
         Service.timers].
    erewrite (approvalTimeout_gone _ (n + 1)%nat fid); cycle 1.
    { cbn. rewrite lookup_delete_ne by lia. apply lookup_insert_eq. }
    { cbn. apply lookup_delete_eq. }
    unfold Service.hasPendingApproval.
    cbn [Service.approvals Service.set_approvals Service.pendingApprovals
         Service.timers].
    unfold Service.settle. rewrite Hn0.
    split_and!.
    + lia.
    + apply list_lookup_insert_eq. by eapply lookup_lt_Some.
    + rewrite list_lookup_insert_ne by lia. done.
    + apply bool_decide_eq_false. rewrite lookup_delete_eq. by intros [? ?].
    + rewrite list_lookup_insert_ne by lia. done.
    + apply bool_decide_eq_false. rewrite lookup_delete_eq. by intros [? ?].
    + apply lookup_delete_eq.
Qed.


Lemma cancelPlanApproval_hasPending s fid :
  Service.hasPendingApproval (Service.cancelPlanApproval s fid) fid = false.
Proof.
  unfold Service.cancelPlanApproval, Service.hasPendingApproval.
  apply bool_decide_eq_false.
  destruct (Service.pendingApprovals s !! fid) as [w|] eqn:Hw; simpl.
  - rewrite lookup_delete_eq. by intros [? ?].
  - rewrite Hw. by intros [? ?].
Qed.

Lemma cancelPlanApproval_promise s fid w :
  Service.pendingApprovals s !! fid = Some w ->
  Service.approvals s !! Service.promise w = Some Service.Waiting ->
  Service.approvals (Service.cancelPlanApproval s fid) !! Service.promise w
  = Some (Service.Failed "Plan approval cancelled - feature was stopped").
Proof.
  intros Hw Hp. unfold Service.cancelPlanApproval. rewrite Hw. simpl.
  unfold Service.settle. rewrite Hp. apply list_lookup_insert_eq.
  by eapply lookup_lt_Some.
Qed.

Lemma cancelPlanApproval_rest s fid :
  Service.files (Service.cancelPlanApproval s fid) = Service.files s
  /\ Service.events (Service.cancelPlanApproval s fid) = Service.events s
  /\ Service.abortedControllers (Service.cancelPlanApproval s fid)
     = Service.abortedControllers s.
Proof. unfold Service.cancelPlanApproval. by destruct (_ !! _). Qed.

(** X8. [stopFeature] on a feature that is not registered as running returns
    false and changes nothing. On a running feature it returns true, aborts
    that feature's [AbortController], removes the registry entry (and no
    other), and cancels the feature's pending plan approval, if any; it writes
    no file and emits no event. *)
Theorem stop_feature_aborts_and_cancels (s : Service.State) (fid : string) :
  match Service.runningFeatures s !! fid with
  | None => Service.stopFeature s fid = (false, s)
  | Some running =>
      let s' := snd (Service.stopFeature s fid) in
      fst (Service.stopFeature s fid) = true
      /\ Service.runningFeatures s' = delete fid (Service.runningFeatures s)
      /\ Service.abortController running ∈ Service.abortedControllers s'
      /\ (forall c, c ∈ Service.abortedControllers s ->
            c ∈ Service.abortedControllers s')
      /\ Service.hasPendingApproval s' fid = false
      /\ (forall w, Service.pendingApprovals s !! fid = Some w ->
            Service.approvals s !! Service.promise w = Some Service.Waiting ->
            Service.approvals s' !! Service.promise w
            = Some (Service.Failed "Plan approval cancelled - feature was stopped"))
      /\ Service.files s' = Service.files s
      /\ Service.events s' = Service.events s
  end.
Proof.
  unfold Service.stopFeature.
  destruct (Service.runningFeatures s !! fid) as [running|]; [|done].
  destruct (cancelPlanApproval_rest s fid) as (Hfiles & Hev & Hab).
  cbv zeta. cbn [fst snd]. split_and!.
  - done.
  - simpl. by rewrite cancelPlanApproval_runningFeatures.
  - simpl. apply elem_of_union. left. by apply elem_of_singleton.
  - intros c Hin. simpl. apply elem_of_union. right. by rewrite Hab.
  - apply cancelPlanApproval_hasPending.
  - intros w Hpw Hpromise. simpl. by apply cancelPlanApproval_promise.
  - done.
  - done.
Qed.

(** ** Feature execution: what a run emits and how it ends *)

Lemma emit_all_app s l1 l2 : emit_all (emit_all s l1) l2 = emit_all s (l1 ++ l2).
Proof. unfold emit_all. by rewrite fold_left_app. Qed.

Lemma emit_all_fields s l :
  Service.events (emit_all s l) = Service.events s ++ l
  /\ Service.files (emit_all s l) = Service.files s
  /\ Service.runningFeatures (emit_all s l) = Service.runningFeatures s
  /\ Service.consecutiveFailures (emit_all s l) = Service.consecutiveFailures s
  /\ Service.pausedDueToFailures (emit_all s l) = Service.pausedDueToFailures s
  /\ Service.autoLoopRunning (emit_all s l) = Service.autoLoopRunning s.
Proof.
  unfold emit_all. revert s. induction l as [|e l IH]; intros s; simpl.
  - by rewrite app_nil_r.
  - destruct (IH (Service.emit s e)) as (-> & -> & -> & -> & -> & ->). simpl.
    by rewrite <- app_assoc.
Qed.

Lemma quality_fix_loop_emits env fid left n out s r s' :
  Service.quality_fix_loop env fid left n out s = (r, s') ->
  exists l, s' = emit_all s l /\ Forall (fun e => is_quality_metrics e = true) l
            /\ (length l <= left)%nat.
Proof.
  revert n out s. induction left as [|left IH]; intros n out s; simpl.
  - destruct (QualityGate.passed out); intros [= <- <-]; by exists [].
  - destruct (QualityGate.passed out); [intros [= <- <-]; exists []; simpl; split_and!; [done|done|lia]|].
    destruct (Service.qualityFix env n);
      [intros [= <- <-]; exists []; simpl; split_and!; [done|done|lia]|].
    destruct (Service.runQualityChecks env fid (S n) s) as [out1 s1] eqn:E.
    unfold Service.runQualityChecks in E. injection E as <- <-.
    intros H. apply IH in H as (l & -> & Hl & Hlen).
    eexists (_ :: l). split; [reflexivity|]. split; [by constructor|]. simpl. lia.
Qed.

Lemma quality_phase_emits env fid skip s r s' :
  Service.quality_phase env fid skip s = (r, s') ->
  exists l, s' = emit_all s l /\ Forall (fun e => is_quality_metrics e = true) l
            /\ (length l <= 3)%nat.
Proof.
  unfold Service.quality_phase. destruct skip.
  - intros [= <- <-]. eexists [_]. split; [reflexivity|]. split; [by repeat constructor|].
    simpl. lia.
  - destruct (Service.runQualityChecks env fid 0 s) as [out0 s1] eqn:E.
    unfold Service.runQualityChecks in E. injection E as <- <-. intros H.
    apply quality_fix_loop_emits in H as (l & -> & Hl & Hlen).
    eexists (_ :: l). split; [reflexivity|]. split; [by constructor|].
    unfold Service.MAX_QUALITY_FIX_ATTEMPTS in Hlen. simpl. lia.
Qed.

Lemma reportFailure_effects now ty msg s :
  exists l,
    Service.events (Service.reportFailure now ty msg s) = Service.events s ++ l
    /\ Forall (fun e => is_quality_metrics e = false) l
    /\ Service.consecutiveFailures (Service.reportFailure now ty msg s)
       = counted now msg s.
Proof.
  unfold Service.reportFailure, Service.trackFailureAndCheckPause,
    Service.signalShouldPause, Service.stopAutoLoop, counted.
  assert (Hf : List.filter (Service.in_window now)
                 (Service.consecutiveFailures s
                  ++ [{| Service.timestamp := now; Service.error := msg |}])
               = List.filter (Service.in_window now) (Service.consecutiveFailures s)
                 ++ [{| Service.timestamp := now; Service.error := msg |}]).
  { rewrite List.filter_app. simpl. unfold Service.in_window at 2. simpl.
    rewrite bool_decide_true; [done|]. unfold Service.FAILURE_WINDOW_MS. lia. }
  rewrite Hf.
  repeat (case_match; simplify_eq/=);
    first [ by exists []; rewrite app_nil_r
          | by eexists [_]; split_and!; [done | repeat constructor | done]
          | by eexists [_; _]; split_and!;
              [rewrite <- app_assoc | repeat constructor | done] ].
Qed.

Lemma filter_quality_none l :
  Forall (fun e => is_quality_metrics e = false) l ->
  List.filter is_quality_metrics l = [].
Proof.
  induction 1 as [|e l He _ IH]; [done|]. simpl. by rewrite He.
Qed.

Lemma filter_quality_all l :
  Forall (fun e => is_quality_metrics e = true) l ->
  List.filter is_quality_metrics l = l.
Proof.
  induction 1 as [|e l He _ IH]; [done|]. simpl. by rewrite He, IH.
Qed.

Lemma events_emit s e : Service.events (Service.emit s e) = Service.events s ++ [e].
Proof. done. Qed.

Lemma executeFeature_try_effects env s path fid prompt r s2 :
  Service.executeFeature_try env s path fid prompt = (r, s2) ->
  exists l,
    Service.events s2 = Service.events s ++ l
    /\ (length (List.filter is_quality_metrics l) <= 3)%nat
    /\ match r with
       | Service.body_threw e =>
           Service.consecutiveFailures s2 = Service.consecutiveFailures s
           /\ (Service.files s2 = Service.files s
               \/ Service.files s2
                  = Store.updateFeatureStatus (Service.files s) path fid "in_progress"
                      (Service.stamp env))
       | _ => True
       end.
Proof.
  unfold Service.executeFeature_try.
  destruct (Service.validate env);
    [intros [= <- <-]; exists []; rewrite app_nil_r; simpl; split_and!; auto with lia|].
  destruct (negb _ && _);
    [intros [= <- <-]; exists []; rewrite app_nil_r; simpl; split_and!; auto with lia|].
  cbn [Service.files Service.emit].
  destruct (Store.loadFeature _ _ _) as [feature|];
    [|intros [= <- <-]; eexists [_]; simpl; split_and!; auto with lia].
  destruct (Service.setup env);
    [intros [= <- <-]; eexists [_]; simpl; split_and!; auto with lia|].
  destruct (Service.implementation env);
    [intros [= <- <-]; eexists [_]; simpl; split_and!; auto with lia|].
  destruct (Service.quality_phase _ _ _ _) as [[e|out] s3] eqn:Hq;
    apply quality_phase_emits in Hq as (lq & -> & Hall & Hlen);
    destruct (emit_all_fields
                (Service.set_files (Service.emit s (Service.auto_mode_feature_start fid))
                   (Store.updateFeatureStatus (Service.files s) path fid "in_progress"
                      (Service.stamp env))) lq) as (Hev & Hfiles & _ & Hcf & _);
    cbn [Service.events Service.files Service.consecutiveFailures Service.set_files
         Service.emit] in Hev, Hfiles, Hcf.
  - intros [= <- <-]. eexists (_ :: lq). rewrite Hev, Hfiles, Hcf. simpl.
    rewrite <- app_assoc. simpl. rewrite filter_quality_all by done.
    split_and!; auto with lia.
  - destruct (Service.judge_phase _ _).
    + intros [= <- <-]. eexists (_ :: lq). rewrite Hev, Hfiles, Hcf. simpl.
      rewrite <- app_assoc. simpl. rewrite filter_quality_all by done.
      split_and!; auto with lia.
    + unfold Service.finalize. cbv zeta. intros [= <- <-].
      rewrite events_emit.
      destruct (QualityGate.passed out && _).
      * eexists (_ :: lq ++ [_]).
        change (Service.events (Service.recordSuccess ?a)) with (Service.events a).
        change (Service.events (Service.set_files ?a ?b)) with (Service.events a).
        rewrite Hev, <- !app_assoc. cbn [app]. split; [reflexivity|].
        cbn [List.filter is_quality_metrics].
        rewrite List.filter_app, filter_quality_all by done. cbn.
        rewrite app_nil_r. auto with lia.
      * match goal with |- context [Service.reportFailure ?n ?t ?m ?st] =>
          destruct (reportFailure_effects n t m st) as (lr & Hr & Hnq & _) end.
        eexists (_ :: lq ++ lr ++ [_]). rewrite Hr.
        change (Service.events (Service.set_files ?a ?b)) with (Service.events a).
        rewrite Hev, <- !app_assoc. cbn [app]. split; [reflexivity|].
        cbn [List.filter is_quality_metrics].
        rewrite !List.filter_app, filter_quality_all, filter_quality_none by done.
        cbn. rewrite app_nil_r. auto with lia.
Qed.

Lemma executeFeature_enter_fields s path fid autoMode now s1 :
  Service.executeFeature_enter s path fid autoMode now = inr s1 ->
  Service.events s1 = Service.events s /\ Service.files s1 = Service.files s
  /\ Service.consecutiveFailures s1 = Service.consecutiveFailures s.
Proof.
  unfold Service.executeFeature_enter. case_bool_decide; [done|].
  by intros [= <-].
Qed.

Lemma updateFeatureStatus_const {A} (c : A) fs path fid st now :
  (fun _ => c) <$> Store.updateFeatureStatus fs path fid st now !! (path, fid)
  = (fun _ => c) <$> fs !! (path, fid).
Proof.
  unfold Store.updateFeatureStatus.
  destruct (fs !! (path, fid)) as [f|] eqn:E; [|by rewrite E].
  by rewrite lookup_insert_eq.
Qed.


(** X10. One call of [executeFeature], however it ends, emits
    [auto_mode_quality_metrics] at most three times: the quality gate runs
    once and at most twice more after a fix attempt (or not at all, with one
    event reporting the checks as skipped). Every event of the state before
    the call is kept. *)
Theorem execute_feature_runs_gate_at_most_three_times
    (env : Service.Env) (s s' : Service.State) (path fid : string)
    (autoMode : bool) (prompt : option string) (now : Z) (r : string + Service.Outcome) :
  Service.executeFeature env s path fid autoMode prompt now = (r, s') ->
  exists l,
    Service.events s' = Service.events s ++ l
    /\ (length (List.filter is_quality_metrics l) <= 3)%nat.
Proof.
  unfold Service.executeFeature.
  destruct (Service.executeFeature_enter s path fid autoMode now) as [err|s1] eqn:Henter.
  { intros [= <- <-]. exists []. rewrite app_nil_r. simpl. auto with lia. }
  destruct (executeFeature_enter_fields _ _ _ _ _ _ Henter) as (Hev1 & _).
  destruct (Service.executeFeature_try env s1 path fid prompt) as [b s2] eqn:Htry.
  destruct (executeFeature_try_effects _ _ _ _ _ _ _ Htry) as (l & Hev2 & Hlen & _).
  rewrite Hev1 in Hev2.
  unfold Service.executeFeature_finally, Service.executeFeature_catch.
  destruct b as [|c|e]; intros [= <- <-];
    cbn [Service.events Service.set_runningFeatures]; [by exists l | by exists l |].
  destruct (Service.isAbort e).
  - exists (l ++ [Service.auto_mode_feature_complete fid false "Feature stopped by user"]).
    rewrite events_emit, Hev2, <- app_assoc. split; [done|].
    rewrite List.filter_app. simpl. by rewrite app_nil_r.
  - match goal with |- context [Service.reportFailure ?n ?t ?m ?st] =>
      destruct (reportFailure_effects n t m st) as (lr & Hr & Hnq & _) end.
    rewrite Hr. cbn [Service.events Service.set_files Service.emit].
    exists (l ++ [Service.auto_mode_error fid (Service.message e) (Service.type e)] ++ lr).
    rewrite Hev2, <- !app_assoc. split; [done|].
    rewrite !List.filter_app, (filter_quality_none lr) by done. simpl.
    by rewrite app_nil_r.
Qed.


Lemma execute_feature_gate_runs_witness :
  exists r s' l,
    Service.executeFeature calm one_feature "/p" "f1" false None 0 = (r, s')
    /\ Service.events s' = Service.events one_feature ++ l
    /\ (length (List.filter is_quality_metrics l) <= 3)%nat.
Proof.
  let v := eval vm_compute in
    (Service.executeFeature calm one_feature "/p" "f1" false None 0) in
  match v with
  | (?r, ?s') =>
      exists r, s';
      destruct (execute_feature_runs_gate_at_most_three_times calm one_feature s' "/p"
                  "f1" false None 0 r ltac:(vm_compute; reflexivity)) as (l & H1 & H2);
      exists l; split; [vm_compute; reflexivity | split; assumption]
  end.
Defined.

(** ** The plan-spec writers: further properties *)

(** X11. [updateFeaturePlanSpec] touches no other feature file and changes
    nothing when the file is missing. Otherwise it stores the plan spec with
    the updates applied, and the version it stores is the version named in
    the update, or else the old version: the comparison meant to detect a
    new content reads the plan spec after the update was applied, so a new
    content never increments the version. When the update does not name
    [taskStateVersion], that counter grows by one if the update carries a
    task field and is unchanged otherwise (a missing counter counts as 0). *)
Theorem update_plan_spec_never_increments_version
    (fs : Store.Files) (path fid : string) (upd : Plan.Updates) (now : string) :
  let fs' := Store.updateFeaturePlanSpec fs path fid upd now in
  (forall k, k <> (path, fid) -> fs' !! k = fs !! k)
  /\ match fs !! (path, fid) with
     | None => fs' = fs
     | Some f =>
         let p0 := default (Plan.initial None) (Store.planSpec f) in
         exists p,
           fs' !! (path, fid) = Some (Store.with_planSpec f p now)
           /\ Plan.version p = default (Plan.version p0) (Plan.u_version upd)
           /\ Plan.content p = default (Plan.content p0) (Plan.u_content upd)
           /\ (Plan.u_taskStateVersion upd = None ->
               Plan.taskStateVersion p
               = Some (Store.or0 (Plan.taskStateVersion p0)
                       + (if Plan.defined (Plan.u_tasks upd)
                             || Plan.defined (Plan.u_currentTaskId upd)
                             || Plan.defined (Plan.u_currentTaskIds upd)
                             || Plan.defined (Plan.u_tasksCompleted upd)
                             || Plan.defined (Plan.u_tasksTotal upd)
                          then 1 else 0))%Z)
     end.
Proof.
  cbv zeta. unfold Store.updateFeaturePlanSpec.
  destruct (fs !! (path, fid)) as [f|] eqn:Hf; [|done].
  split; [intros k Hk; by rewrite lookup_insert_ne|].
  eexists. split; [apply lookup_insert_eq|].
  set (p0 := default (Plan.initial None) (Store.planSpec f)).
  destruct (Plan.u_content upd) as [[c|]|] eqn:Ec.
  - assert (Hsame : bool_decide (Some c = Plan.content
              (Plan.assign match Plan.taskStateVersion p0 with
                           | Some _ => p0
                           | None => Plan.set_taskStateVersion p0 (Some 0%Z)
                           end upd)) = true).
    { apply bool_decide_eq_true. unfold Plan.assign. simpl. by rewrite Ec. }
    rewrite Hsame, andb_false_r.
    destruct (Plan.taskStateVersion p0) as [v|] eqn:Ev;
      destruct (Plan.defined (Plan.u_tasks upd) || _ || _ || _ || _);
      simpl; rewrite ?Ec, ?Ev; split_and!; try done;
      intros ->; simpl; rewrite ?Ev; simpl; f_equal; lia.
  - destruct (Plan.taskStateVersion p0) as [v|] eqn:Ev;
      destruct (Plan.defined (Plan.u_tasks upd) || _ || _ || _ || _);
      simpl; rewrite ?Ec, ?Ev; split_and!; try done;
      intros ->; simpl; rewrite ?Ev; simpl; f_equal; lia.
  - destruct (Plan.taskStateVersion p0) as [v|] eqn:Ev;
      destruct (Plan.defined (Plan.u_tasks upd) || _ || _ || _ || _);
      simpl; rewrite ?Ec, ?Ev; split_and!; try done;
      intros ->; simpl; rewrite ?Ev; simpl; f_equal; lia.
Qed.

(** X12. With no other writer, [updatePlanSpecWithRetry] returns null and
    leaves every file as it was when the feature file cannot be read or the
    callback throws, whatever the number of retries. *)
Theorem retry_helper_gives_up_without_writing
    (updater : Plan.PlanSpec -> option Plan.PlanSpec) (path fid now : string)
    (maxRetries : nat) (fs : Store.Files) :
  fs !! (path, fid) = None \/ (forall p, updater p = None) ->
  Store.updatePlanSpecWithRetry Store.quiet updater path fid now maxRetries fs
  = (None, fs).
Proof.
  intros H. unfold Store.updatePlanSpecWithRetry.
  assert (Hloop : forall left attempt,
            Store.retry_loop Store.quiet updater path fid now left attempt fs
            = (None, fs)); [|by rewrite Hloop].
  induction left as [|left IH]; intros attempt; simpl; [done|].
  unfold Store.attempt_body. simpl.
  destruct H as [H|H].
  - rewrite H. apply IH.
  - destruct (fs !! (path, fid)); [|apply IH]. rewrite H. apply IH.
Qed.

Lemma retry_helper_gives_up_witness :
  Store.updatePlanSpecWithRetry Store.quiet lowering "/p" "missing" "t" 5
    (Service.files plan_on_disk)
  = (None, Service.files plan_on_disk).
Proof.
  apply (retry_helper_gives_up_without_writing lowering "/p" "missing" "t" 5
           (Service.files plan_on_disk)).
  left. vm_compute. reflexivity.
Defined.

(** X13. The verifying read of [updatePlanSpecWithRetry] compares only the
    counter. When another writer stores a feature file whose plan spec carries
    the same counter value between the helper's write and its verifying read,
    the helper returns its own plan spec as written, although the file holds
    the other writer's data. *)
Theorem retry_helper_checks_only_the_counter
    (updater : Plan.PlanSpec -> option Plan.PlanSpec) (path fid now : string)
    (n : nat) (fs : Store.Files) (feature other : Store.Feature) (u : Plan.PlanSpec) :
  fs !! (path, fid) = Some feature ->
  updater (default (Plan.initial (Some 0%Z)) (Store.planSpec feature)) = Some u ->
  (p ← Store.planSpec other; Plan.taskStateVersion p)
  = Some (Store.stored_version fs path fid + 1)%Z ->
  let r := Store.updatePlanSpecWithRetry (overwriting path fid other) updater path fid
             now (S n) fs in
  fst r = Some (Plan.set_taskStateVersion u
                  (Some (Store.stored_version fs path fid + 1)%Z))
  /\ Store.loadFeature (snd r) path fid = Some other
  /\ (forall k, k <> (path, fid) -> snd r !! k = fs !! k).
Proof.
  intros Hf Hu Hother. cbv zeta.
  unfold Store.updatePlanSpecWithRetry. cbn [Store.retry_loop].
  unfold Store.attempt_body, overwriting. cbn [Store.before_read Store.before_write
    Store.before_verify Store.write_ok]. rewrite Hf, Hu.
  rewrite bool_decide_eq_true_2 by done. rewrite lookup_insert_eq.
  assert (Hv : Store.stored_version fs path fid
               = Store.or0 (Plan.taskStateVersion
                              (default (Plan.initial (Some 0%Z)) (Store.planSpec feature)))).
  { unfold Store.stored_version. rewrite Hf. simpl.
    by destruct (Store.planSpec feature). }
  rewrite <- Hv. rewrite decide_True by done. cbn [fst snd].
  split_and!; [done | apply lookup_insert_eq |].
  intros k Hk. by rewrite !lookup_insert_ne.
Qed.

Lemma retry_helper_counter_witness :
  let other := Store.with_planSpec feature_with_plan
                 (Plan.set_taskStateVersion generated_plan (Some 5%Z)) "other" in
  let r := Store.updatePlanSpecWithRetry (overwriting "/p" "f1" other) lowering
             "/p" "f1" "t" 5 (Service.files plan_on_disk) in
  fst r = Some (Plan.set_taskStateVersion generated_plan (Some 5%Z))
  /\ Store.loadFeature (snd r) "/p" "f1" = Some other.
Proof.
  intros other r.
  destruct (retry_helper_checks_only_the_counter lowering "/p" "f1" "t" 4
              (Service.files plan_on_disk) feature_with_plan other
              (Plan.set_taskStateVersion generated_plan (Some (-7)%Z)))
    as (H1 & H2 & _).
  - vm_compute. reflexivity.
  - vm_compute. reflexivity.
  - vm_compute. reflexivity.
  - split; [exact H1 | exact H2].
Defined.

Import Task Parser.

(** ** The plan parser on arbitrary text *)

Lemma drop_while_suffix f s : exists pre, s = pre ++ drop_while f s.
Proof.
  induction s as [|c s [pre IH]]; simpl; [by exists []|].
  destruct (f c); [|by exists []]. exists (c :: pre). simpl. by rewrite <- IH.
Qed.

Lemma drop_while_forallb (g f : ascii -> bool) s :
  forallb g s = true -> forallb g (drop_while f s) = true.
Proof.
  induction s as [|c s IH]; simpl; [done|].
  intros [Hc H]%andb_true_iff. destruct (f c); [by apply IH|].
  simpl. by rewrite Hc, H.
Qed.

Lemma drop_while_head_false f s c : head (drop_while f s) = Some c -> f c = false.
Proof.
  induction s as [|a s IH]; simpl; [done|].
  destruct (f a) eqn:E; [done|]. simpl. by intros [= <-].
Qed.

Lemma drop_while_nil f s : drop_while f s = [] -> forallb f s = true.
Proof.
  induction s as [|a s IH]; simpl; [done|].
  destruct (f a); [done|]. done.
Qed.

Lemma forallb_app_r (g : ascii -> bool) pre s :
  forallb g (pre ++ s) = true -> forallb g s = true.
Proof. rewrite forallb_app. by intros [_ H]%andb_true_iff. Qed.

Lemma trim_forallb (g : ascii -> bool) s :
  forallb g s = true -> forallb g (trim s) = true.
Proof.
  intros H. unfold trim. apply drop_while_forallb, forallb_rev_true,
    drop_while_forallb, forallb_rev_true, H.
Qed.

Lemma trim_head s c : head (trim s) = Some c -> is_space c = false.
Proof. apply drop_while_head_false. Qed.

Lemma trim_last s c : last (trim s) = Some c -> is_space c = false.
Proof.
  unfold trim. set (u := drop_while is_space (rev s)).
  intros H. destruct (drop_while_suffix is_space (rev u)) as [pre Hpre].
  assert (Hl : last (rev u) = Some c).
  { rewrite Hpre, last_app. by rewrite H. }
  rewrite <- head_rev_last, rev_involutive in Hl.
  by apply drop_while_head_false in Hl.
Qed.

Lemma trim_last_kept s c :
  last s = Some c -> is_space c = false -> trim s <> [].
Proof.
  intros Hl Hc. unfold trim.
  rewrite (drop_while_head is_space (rev s)).
  - rewrite rev_involutive. intros H%drop_while_nil.
    rewrite forallb_forall in H. rewrite (H c) in Hc; [done|].
    apply list_elem_of_In. by apply last_Some_elem_of.
  - intros c'. rewrite head_rev_last, Hl. by intros [= <-].
Qed.

Lemma split_on_forallb (g : ascii -> bool) sep s :
  forallb g s = true -> Forall (fun x => forallb g x = true) (split_on sep s).
Proof.
  induction s as [|c s IH]; simpl; [by repeat constructor|].
  intros [Hc H]%andb_true_iff. specialize (IH H).
  destruct (ascii_eqb c sep); [by constructor|].
  destruct (split_on sep s) as [|x xs]; [by repeat constructor; simpl; rewrite Hc|].
  inversion IH; subst. constructor; [|done]. simpl. by rewrite Hc.
Qed.

Lemma split_on_no_sep sep s :
  Forall (fun x => forallb (fun c => negb (ascii_eqb c sep)) x = true) (split_on sep s).
Proof.
  induction s as [|c s IH]; simpl; [by repeat constructor|].
  destruct (ascii_eqb c sep) eqn:E; [by constructor|].
  destruct (split_on sep s) as [|x xs]; [by repeat constructor; simpl; rewrite E|].
  inversion IH; subst. constructor; [|done]. simpl. by rewrite E.
Qed.

Lemma parts_clean remainder x :
  no_terminator remainder ->
  In x (List.filter nonempty (map trim (split_on "|" remainder))) ->
  clean_part x /\ no_terminator x.
Proof.
  intros Hr [Hin Hne]%filter_In. apply in_map_iff in Hin as (y & <- & Hy).
  pose proof (split_on_no_sep "|" remainder) as Hbar.
  pose proof (split_on_forallb _ "|" remainder Hr) as Hterm.
  rewrite List.Forall_forall in Hbar, Hterm.
  split; [split_and!|].
  - by destruct (trim y).
  - by apply trim_forallb, Hbar.
  - apply trim_head.
  - apply trim_last.
  - by apply trim_forallb, Hterm.
Qed.

Lemma ws_then_rest_spec s g :
  ws_then_rest s = Some g ->
  g <> [] /\ (exists pre, s = pre ++ g) /\ no_terminator g.
Proof.
  unfold ws_then_rest. destruct s as [|c s]; [done|].
  set (k := Nat.min _ _). set (s0 := c :: s).
  destruct (forallb _ (drop k s0)) eqn:E; [|done]. intros [= <-].
  split_and!; [|by exists (take k s0); rewrite take_drop|done].
  intros H%(f_equal length). rewrite length_drop in H.
  assert (k <= length s0 - 1) by apply Nat.le_min_r.
  simpl in *. lia.
Qed.

Lemma strip_prefix_ci_suffix p s rest :
  strip_prefix_ci p s = Some rest -> exists pre, s = pre ++ rest.
Proof.
  revert s. induction p as [|a p IH]; intros s; simpl.
  - intros [= ->]. by exists [].
  - destruct s as [|b s]; [done|]. destruct (ascii_eqb _ _); [|done].
    intros [pre ->]%IH. by exists (b :: pre).
Qed.

Lemma match_field_spec label part g :
  match_field label part = Some g -> g <> [] /\ exists pre, part = pre ++ g.
Proof.
  unfold match_field. destruct (strip_prefix_ci _ _) as [rest|] eqn:E; [|done].
  simpl. intros (Hne & [pre2 ->] & _)%ws_then_rest_spec.
  apply strip_prefix_ci_suffix in E as [pre1 ->].
  split; [done|]. exists (pre1 ++ pre2). by rewrite <- app_assoc.
Qed.

Lemma clean_suffix_trim pre g :
  clean_part (pre ++ g) -> no_terminator (pre ++ g) -> g <> [] ->
  clean_part (trim g) /\ no_terminator (trim g).
Proof.
  intros (_ & Hbar & _ & Hlast) Hterm Hne.
  apply forallb_app_r in Hbar. apply forallb_app_r in Hterm.
  split; [split_and!|].
  - destruct (last g) as [c|] eqn:E; [|by apply last_None in E].
    apply (trim_last_kept g c E). apply Hlast. rewrite last_app. by rewrite E.
  - by apply trim_forallb.
  - apply trim_head.
  - apply trim_last.
  - by apply trim_forallb.
Qed.

Lemma dep_tokens_spec s cur :
  forallb (fun c => negb (is_bracket c) && negb (ascii_eqb c "|")) s = true ->
  forallb id_char cur = true ->
  Forall id_token (dep_tokens s cur).
Proof.
  revert cur. induction s as [|c s IH]; intros cur; simpl.
  - intros _ Hcur. destruct cur as [|a cur]; constructor; [|constructor].
    split; [|by apply forallb_rev_true].
    intros H%(f_equal length). rewrite length_rev in H. done.
  - intros [Hc Hs]%andb_true_iff Hcur.
    destruct (is_dep_separator c) eqn:E.
    + destruct cur as [|a cur]; [by apply IH|]. constructor; [|by apply IH].
      split; [|by apply forallb_rev_true].
      intros H%(f_equal length). rewrite length_rev in H. done.
    + apply IH; [done|]. simpl. rewrite Hcur, andb_true_r.
      unfold id_char. rewrite E. simpl.
      apply andb_true_iff in Hc as [-> ->]. done.
Qed.

Lemma filter_forallb (f : ascii -> bool) l : forallb f (List.filter f l) = true.
Proof.
  induction l as [|c l IH]; simpl; [done|].
  destruct (f c) eqn:E; [|done]. simpl. by rewrite E.
Qed.

Lemma parse_deps_spec g ds :
  forallb (fun c => negb (ascii_eqb c "|")) g = true ->
  parse_deps g = Some ds -> parsed_deps ds.
Proof.
  intros Hbar. unfold parse_deps.
  set (raw := List.filter _ _).
  assert (Hraw : forallb (fun c => negb (is_bracket c) && negb (ascii_eqb c "|")) raw
                 = true).
  { unfold raw. apply forallb_forall. intros c [Hc Hb]%filter_In.
    rewrite Hb. simpl. apply (trim_forallb _ _) in Hbar.
    rewrite forallb_forall in Hbar. by apply Hbar. }
  pose proof (dep_tokens_spec raw [] Hraw eq_refl) as H.
  destruct (dep_tokens raw []) as [|x xs]; [done|]. intros [= <-].
  split; [done|]. change (Forall (fun d => id_token (lit d)) (map str (x :: xs))).
  rewrite List.Forall_map.
  eapply List.Forall_impl; [|exact H]. intros y Hy. by rewrite lit_str.
Qed.

Lemma read_part_fields acc part :
  clean_part part -> no_terminator part ->
  parsed_fields acc -> parsed_fields (read_part acc part).
Proof.
  intros Hclean Hterm [Hf Hd]. unfold read_part.
  destruct (match_field "File:" part) as [g|] eqn:E1.
  { apply match_field_spec in E1 as [Hne [pre ->]].
    split; [|done]. simpl. intros p [= <-]. unfold parsed_field.
    rewrite lit_str. by apply (clean_suffix_trim pre g). }
  destruct (match_field "DependsOn:" part) as [g|] eqn:E2.
  { apply match_field_spec in E2 as [Hne [pre ->]].
    split; [done|]. simpl. intros ds. apply parse_deps_spec.
    destruct Hclean as (_ & Hbar & _). by apply forallb_app_r in Hbar. }
  destruct (match_field "Complexity:" part) as [g|]; [|done].
  by destruct (parse_complexity g).
Qed.

Lemma fold_read_part_fields parts acc :
  (forall x, In x parts -> clean_part x /\ no_terminator x) ->
  parsed_fields acc -> parsed_fields (fold_left read_part parts acc).
Proof.
  revert acc. induction parts as [|x parts IH]; intros acc Hparts Hacc; simpl; [done|].
  apply IH; [intros y Hy; apply Hparts; by right|].
  destruct (Hparts x ltac:(by left)). by apply read_part_fields.
Qed.

Lemma task_head_id s tid rest : task_head s = Some (tid, rest) -> wf_id (str tid).
Proof.
  unfold task_head. destruct (strip_prefix _ s) as [r|]; [|done]. simpl.
  unfold task_id_colon.
  destruct r as [|t [|d1 [|d2 [|d3 [|colon r]]]]]; try done.
  destruct (ascii_eqb t "T" && is_digit d1 && is_digit d2 && is_digit d3
            && ascii_eqb colon ":") eqn:E; [|done].
  intros [= <- _].
  apply andb_true_iff in E as [E _]. apply andb_true_iff in E as [E H3].
  apply andb_true_iff in E as [E H2]. apply andb_true_iff in E as [Ht H1].
  apply Ascii.eqb_eq in Ht as ->. by exists d1, d2, d3.
Qed.

Lemma match_task_line_spec s tid g :
  match_task_line s = Some (tid, g) ->
  wf_id (str tid) /\ no_terminator g.
Proof.
  induction s as [|c s IH]; rewrite match_task_line_eq.
  - by simpl.
  - destruct (task_head (c :: s)) as [[tid' rest]|] eqn:E; simpl; [|apply IH].
    destruct (ws_then_rest rest) as [g'|] eqn:E2; simpl; [|apply IH].
    intros [= <- <-]. apply task_head_id in E.
    by apply ws_then_rest_spec in E2 as (_ & _ & ?).
Qed.

Lemma parseTaskLine_record line currentPhase t :
  parseTaskLine line currentPhase = Some t -> parsed_record t.
Proof.
  unfold parseTaskLine.
  destruct (match_task_line line) as [[tid remainder]|] eqn:E; [|done]. simpl.
  apply match_task_line_spec in E as [Hid Hterm].
  pose proof (parts_clean remainder) as Hparts.
  destruct (List.filter nonempty (map trim (split_on "|" remainder)))
    as [|first others]; [done|].
  intros [= <-].
  destruct (Hparts first Hterm ltac:(by left)) as [Hc Ht].
  assert (Hfirst : trim first = first).
  { destruct Hc as (? & _ & ? & ?). by apply trim_id. }
  destruct (fold_read_part_fields others
              {| f_filePath := None; f_dependsOn := None; f_complexity := None |})
    as [Hf Hd]; [intros x Hx; apply Hparts; [done|by right] | by split |].
  unfold parsed_record, parsed_field. simpl. rewrite lit_str, Hfirst.
  split_and!; try done.
Qed.

Lemma parse_lines_records lines currentPhase :
  Forall parsed_record (parse_lines lines currentPhase).
Proof.
  revert currentPhase. induction lines as [|line rest IH]; intros ph; simpl;
    [constructor|].
  destruct (match_phase_header _); [apply IH|].
  destruct (startsWith _ _); [|apply IH].
  destruct (parseTaskLine _ _) eqn:E; [|apply IH].
  constructor; [by apply parseTaskLine_record in E | apply IH].
Qed.

(** X14. Whatever text [parseTasksFromSpec] is given, every record it returns
    has status pending, an id of the form T and three digits, a description
    that is not empty, holds no bar or line terminator and has no white space
    at either end; a file path, when present, is of the same kind; and a
    dependency list, when present, is not empty and holds only non-empty ids
    without comma, white space, bracket or bar. *)
Theorem parser_returns_only_well_shaped_records (specContent : text) :
  Forall parsed_record (parseTasksFromSpec specContent).
Proof.
  unfold parseTasksFromSpec.
  destruct (match_tasks_block specContent); [apply parse_lines_records|].
  apply List.Forall_forall. intros t Ht. apply list_elem_of_In in Ht.
  apply list_elem_of_omap in Ht as (line & _ & Ht).
  by apply parseTaskLine_record in Ht.
Qed.

Import Task.

(** ** Plan complexity and task refinement *)

Lemma fold_weight_acc ts a :
  fold_left (fun sum task => sum + Planning.task_weight task) ts a
  = a + Planning.complexity_total ts.
Proof.
  unfold Planning.complexity_total. revert a.
  induction ts as [|t ts IH]; intros a; simpl; [lia|].
  rewrite IH, (IH (Planning.task_weight t)). lia.
Qed.

Lemma complexity_total_cons t ts :
  Planning.complexity_total (t :: ts)
  = Planning.task_weight t + Planning.complexity_total ts.
Proof.
  unfold Planning.complexity_total at 1. simpl. by rewrite fold_weight_acc.
Qed.

Lemma complexity_total_app ts more :
  Planning.complexity_total (ts ++ more)
  = Planning.complexity_total ts + Planning.complexity_total more.
Proof.
  induction ts as [|t ts IH]; [done|]. simpl.
  rewrite !complexity_total_cons, IH. lia.
Qed.

Lemma highCount_cons t ts :
  Planning.highCount (t :: ts)
  = (if bool_decide (complexity t = Some high) then 1 else 0) + Planning.highCount ts.
Proof.
  unfold Planning.highCount. simpl. by destruct (bool_decide _).
Qed.

Lemma highCount_app ts more :
  Planning.highCount (ts ++ more) = Planning.highCount ts + Planning.highCount more.
Proof.
  unfold Planning.highCount. by rewrite List.filter_app, length_app.
Qed.

Lemma task_weight_bounds t :
  1 <= Planning.task_weight t <= 3
  /\ (complexity t <> Some high -> Planning.task_weight t <= 2)
  /\ (complexity t <> Some low -> 2 <= Planning.task_weight t).
Proof.
  unfold Planning.task_weight. destruct (complexity t) as [[]|]; simpl;
    split_and!; try lia; try done.
Qed.

Lemma complexity_total_upper ts :
  Planning.complexity_total ts <= 2 * length ts + Planning.highCount ts.
Proof.
  induction ts as [|t ts IH]; [done|].
  rewrite complexity_total_cons, highCount_cons. simpl length.
  destruct (task_weight_bounds t) as (Hb & Hh & _).
  case_bool_decide; [lia|]. specialize (Hh ltac:(done)). lia.
Qed.

Lemma complexity_total_lower ts :
  Forall (fun t => complexity t <> Some low) ts ->
  2 * length ts <= Planning.complexity_total ts.
Proof.
  induction 1 as [|t ts Ht _ IH]; [done|].
  rewrite complexity_total_cons. simpl length.
  destruct (task_weight_bounds t) as (_ & _ & Hl). specialize (Hl Ht). lia.
Qed.

Lemma complexity_total_perm ts ts' :
  ts ≡ₚ ts' -> Planning.complexity_total ts = Planning.complexity_total ts'.
Proof.
  induction 1 as [|x l l' _ IH|x y l|l l' l'' _ IH1 _ IH2];
    rewrite ?complexity_total_cons; [done|lia|lia|congruence].
Qed.

Lemma highCount_perm ts ts' :
  ts ≡ₚ ts' -> Planning.highCount ts = Planning.highCount ts'.
Proof.
  induction 1 as [|x l l' _ IH|x y l|l l' l'' _ IH1 _ IH2];
    rewrite ?highCount_cons; [done|lia|lia|congruence].
Qed.

Lemma shouldRefineTasks_0 ts :
  Planning.shouldRefineTasks ts 0 = true
  <-> 8 <= length ts \/ 14 <= Planning.complexity_total ts \/ 2 <= Planning.highCount ts.
Proof.
  unfold Planning.shouldRefineTasks, Planning.MAX_SUBPLANNING_PASSES,
    Planning.TASK_REFINEMENT_COUNT_THRESHOLD, Planning.TASK_REFINEMENT_SCORE_THRESHOLD.
  change (Nat.leb 1 0) with false. cbv iota.
  rewrite !orb_true_iff, !Nat.leb_le. tauto.
Qed.

Lemma shouldRefineTasks_later ts pass :
  1 <= pass -> Planning.shouldRefineTasks ts pass = false.
Proof.
  intros H. unfold Planning.shouldRefineTasks, Planning.MAX_SUBPLANNING_PASSES.
  apply Nat.leb_le in H. by rewrite H.
Qed.

Lemma parseTasksFromSpec_shape specContent :
  Forall parsed_record (Parser.parseTasksFromSpec specContent).
Proof.
  unfold Parser.parseTasksFromSpec.
  destruct (Parser.match_tasks_block specContent); [apply parse_lines_records|].
  apply List.Forall_forall. intros t Ht. apply list_elem_of_In in Ht.
  apply list_elem_of_omap in Ht as (line & _ & Ht).
  by apply parseTaskLine_record in Ht.
Qed.

(** X15. The sub-planner is consulted at most once per plan. The refinement
    loop ends for every sub-planner; the task list it leaves is either the
    one it was given, with no file written, or the list parsed from the
    sub-planner's first response, and then that list is strictly longer than
    the given one, holds only well-shaped records, and was stored in the
    plan spec together with [tasksTotal], [tasksCompleted = 0] and an empty
    [currentTaskIds]. A throwing sub-planner leaves tasks and files as they
    were. *)
Theorem refinement_consults_sub_planner_at_most_once
    (subPlanner : nat -> list ParsedTask -> option Parser.text)
    (path fid : string) (now : nat -> string) (fuel : nat)
    (tasks : list ParsedTask) (fs : Store.Files) :
  exists e st,
    Planning.refineTasks subPlanner path fid now (S (S fuel)) tasks fs = Some (e, st)
    /\ length (Planning.announced st)
       = (if Planning.shouldRefineTasks tasks 0 then 1 else 0)
    /\ ((Planning.parsedTasks st = tasks /\ Planning.files st = fs
         /\ Planning.refinementPass st = 0)
        \/ (exists responseText,
              subPlanner 0 tasks = Some responseText
              /\ Planning.parsedTasks st = Parser.parseTasksFromSpec responseText
              /\ length tasks < length (Planning.parsedTasks st)
              /\ Forall parsed_record (Planning.parsedTasks st)
              /\ Planning.files st
                 = Store.updateFeaturePlanSpec fs path fid
                     (Planning.refinement_update (Planning.parsedTasks st)) (now 0)
              /\ Planning.refinementPass st = 1
              /\ e = Planning.Left)).
Proof.
  unfold Planning.refineTasks. cbn [Planning.refine_loop Planning.parsedTasks
    Planning.refinementPass Planning.files Planning.announced].
  destruct (Planning.shouldRefineTasks tasks 0) eqn:Hs.
  2:{ eexists _, _. split; [done|]. simpl. split; [done|]. by left. }
  destruct (subPlanner 0 tasks) as [responseText|] eqn:Hp.
  2:{ eexists _, _. split; [done|]. simpl. split; [done|]. by left. }
  unfold Planning.refineTasksWithSubPlanner.
  pose proof (parseTasksFromSpec_shape responseText) as Hshape.
  destruct (Parser.parseTasksFromSpec responseText) as [|t refined] eqn:Hr.
  { eexists _, _. split; [done|]. simpl. split; [done|]. by left. }
  destruct (Nat.leb (length (t :: refined)) (length tasks)) eqn:Hlen.
  { eexists _, _. split; [done|]. simpl. split; [done|]. by left. }
  rewrite shouldRefineTasks_later by (simpl; lia).
  eexists _, _. split; [done|]. cbn [Planning.parsedTasks Planning.files
    Planning.announced Planning.refinementPass]. split; [done|].
  right. exists responseText. apply Nat.leb_gt in Hlen.
  split_and!; try done.
Qed.

(** X16. [shouldRefineTasks] never asks for a refinement after the first
    pass. In the first pass its answer does not depend on the order of the
    tasks and cannot turn from yes to no when tasks are added; it is no for
    every plan of at most four tasks with at most one task of high
    complexity, and yes for every plan of at least seven tasks none of which
    is of low complexity (a task without complexity counting as medium). *)
Theorem should_refine_tasks_thresholds (tasks more : list ParsedTask) (pass : nat) :
  (1 <= pass -> Planning.shouldRefineTasks tasks pass = false)
  /\ (tasks ≡ₚ more ->
      Planning.shouldRefineTasks tasks pass = Planning.shouldRefineTasks more pass)
  /\ (Planning.shouldRefineTasks tasks 0 = true ->
      Planning.shouldRefineTasks (tasks ++ more) 0 = true)
  /\ (length tasks <= 4 -> Planning.highCount tasks <= 1 ->
      Planning.shouldRefineTasks tasks pass = false)
  /\ (7 <= length tasks -> Forall (fun t => complexity t <> Some low) tasks ->
      Planning.shouldRefineTasks tasks 0 = true).
Proof.
  split_and!.
  - apply shouldRefineTasks_later.
  - intros Hp. unfold Planning.shouldRefineTasks.
    by rewrite (Permutation_length Hp), (complexity_total_perm _ _ Hp),
      (highCount_perm _ _ Hp).
  - rewrite !shouldRefineTasks_0, length_app, complexity_total_app, highCount_app. lia.
  - intros Hlen Hhigh. destruct pass as [|pass]; [|apply shouldRefineTasks_later; lia].
    apply not_true_is_false. rewrite shouldRefineTasks_0.
    pose proof (complexity_total_upper tasks). lia.
  - intros Hlen Hlow. apply shouldRefineTasks_0.
    pose proof (complexity_total_lower tasks Hlow). lia.
Qed.

Lemma complexity_total_uniform ts c :
  Forall (fun t => default medium (complexity t) = c) ts ->
  Planning.complexity_total ts = length ts * Planning.weights c.
Proof.
  induction 1 as [|t ts Ht _ IH]; [done|].
  rewrite complexity_total_cons, IH. unfold Planning.task_weight. rewrite Ht.
  simpl. lia.
Qed.

Lemma complexity_total_mono ts ts' :
  Forall2 (fun t t' => Planning.task_weight t <= Planning.task_weight t') ts ts' ->
  length ts = length ts'
  /\ Planning.complexity_total ts <= Planning.complexity_total ts'.
Proof.
  induction 1 as [|t t' ts ts' Ht _ [IH1 IH2]]; [done|].
  rewrite !complexity_total_cons. simpl. lia.
Qed.

(** X17. For a feature whose plan spec holds tasks, [getFeatureComplexity]
    is undefined exactly when the list is empty; it does not depend on the
    order of the tasks; when every task has the same complexity (a task
    without one counting as medium) it is that complexity; and raising the
    complexity of tasks never lowers it. *)
Theorem feature_complexity_follows_its_tasks
    (feature feature' : Store.Feature) (ts ts' : list ParsedTask)
    (c : PlanTaskComplexity) :
  Planning.planTasks feature = Some ts ->
  Planning.planTasks feature' = Some ts' ->
  (Planning.getFeatureComplexity feature = None <-> ts = [])
  /\ (ts ≡ₚ ts' ->
      Planning.getFeatureComplexity feature = Planning.getFeatureComplexity feature')
  /\ (ts <> [] -> Forall (fun t => default medium (complexity t) = c) ts ->
      Planning.getFeatureComplexity feature = Some c)
  /\ (Forall2 (fun t t' => Planning.task_weight t <= Planning.task_weight t') ts ts' ->
      complexity_rank (Planning.getFeatureComplexity feature)
      <= complexity_rank (Planning.getFeatureComplexity feature')).
Proof.
  intros Hf Hf'. unfold Planning.getFeatureComplexity. rewrite Hf, Hf'.
  split_and!.
  - destruct ts as [|t ts]; [done|]. split; [|done].
    by repeat destruct (Nat.leb _ _).
  - intros Hp. rewrite <- (complexity_total_perm _ _ Hp).
    pose proof (Permutation_length Hp) as Hl.
    destruct ts as [|t ts], ts' as [|t' ts']; try done.
    by rewrite Hl.
  - intros Hne Hu. destruct ts as [|t ts]; [done|].
    rewrite (complexity_total_uniform _ c Hu).
    set (n := length (t :: ts)). assert (0 < n) by (unfold n; simpl; lia).
    destruct c; cbn [Planning.weights];
      repeat match goal with
             | |- context [Nat.leb ?a ?b] => destruct (Nat.leb_spec a b)
             end; try done; lia.
  - intros [Hl Ht]%complexity_total_mono.
    destruct ts as [|t ts], ts' as [|t' ts']; try done.
    rewrite Hl. set (n := length (t' :: ts')).
    repeat match goal with
           | |- context [Nat.leb ?a ?b] => destruct (Nat.leb_spec a b)
           end; simpl; lia.
Qed.

Lemma feature_complexity_witness :
  Planning.getFeatureComplexity
    (Examples.feature_with_tasks Examples.fan_out) = Some medium.
Proof.
  refine (proj1 (proj2 (proj2 (feature_complexity_follows_its_tasks
            (Examples.feature_with_tasks Examples.fan_out)
            (Examples.feature_with_tasks Examples.fan_out)
            Examples.fan_out Examples.fan_out medium _ _))) _ _).
  - reflexivity.
  - reflexivity.
  - done.
  - repeat constructor.
Defined.

(** ** Titles *)

Lemma split_on_first_no_sep sep s :
  forallb (fun c => negb (Parser.ascii_eqb c sep)) (hd [] (Parser.split_on sep s)) = true.
Proof.
  pose proof (split_on_no_sep sep s) as H.
  destruct (Parser.split_on sep s) as [|x xs]; [done|]. by inversion H.
Qed.

Lemma forallb_take (f : ascii -> bool) n l :
  forallb f l = true -> forallb f (take n l) = true.
Proof.
  revert n. induction l as [|c l IH]; intros [|n]; simpl; try done.
  intros [Hc H]%andb_true_iff. by rewrite Hc, IH.
Qed.

(** X18. The title [extractTitleFromDescription] gives is at most 60
    characters long and holds no line feed. It is 'Untitled Feature' for a
    blank description, and it is the empty string exactly when the
    description is not blank but its first line is. *)
Theorem extracted_title_is_short_and_single_line (description : Parser.text) :
  let title := Planning.extractTitleFromDescription description in
  length title <= 60
  /\ forallb (fun c => negb (Parser.ascii_eqb c Parser.LF)) title = true
  /\ (Parser.trim description = [] -> title = Parser.lit "Untitled Feature")
  /\ (title = []
      <-> Parser.trim description <> []
          /\ Parser.trim (hd [] (Parser.split_on Parser.LF description)) = []).
Proof.
  cbv zeta. unfold Planning.extractTitleFromDescription.
  set (firstLine := Parser.trim (hd [] (Parser.split_on Parser.LF description))).
  assert (Hline : forallb (fun c => negb (Parser.ascii_eqb c Parser.LF)) firstLine = true)
    by apply trim_forallb, split_on_first_no_sep.
  destruct (Parser.trim description) as [|c0 rest] eqn:Ht.
  { split_and!; [by apply Nat.leb_le | done | done |]. split; [done|]. by intros [? _]. }
  destruct (Nat.leb_spec (length firstLine) 60) as [Hle|Hgt].
  - split_and!; [done | done | done |]. split; [done|]. by intros [_ ?].
  - split_and!.
    + rewrite length_app, length_take.
      change (length (Parser.lit "...")) with 3. lia.
    + rewrite forallb_app, forallb_take by done. done.
    + done.
    + split.
      * intros H%(f_equal length). rewrite length_app in H.
        change (length (Parser.lit "...")) with 3 in H. simpl in H. lia.
      * intros [_ H]. rewrite H in Hgt. simpl in Hgt. lia.
Qed.

(** ** Verifying a feature by hand *)

(** X19. [verifyFeature] runs the quality gate once and returns whether it
    passed. It emits the gate's metrics event with attempt 0 and then
    [auto_mode_feature_complete]; when the gate failed, the message of that
    event names the first check whose command was rejected, never 'Unknown'.
    Nothing else changes: no feature file is written, so the stored status
    of the feature stays what it was, and the failure counter is untouched. *)
Theorem verify_feature_names_the_failing_check
    (env : Service.Env) (fid : string) (s : Service.State) :
  let sh := Service.shell env 0 in
  let out := QualityGate.runQualityChecks sh in
  let r := Service.verifyFeature env fid s in
  fst r = QualityGate.passed out
  /\ (exists message,
        Service.events (snd r)
        = Service.events s
          ++ [Service.auto_mode_quality_metrics fid (QualityGate.passed out) 0
                (QualityGate.results out);
              Service.auto_mode_feature_complete fid (QualityGate.passed out) message]
        /\ match first_failure sh QualityGate.verificationChecks with
           | None =>
               QualityGate.passed out = true
               /\ message = "All verification checks passed"
           | Some k =>
               QualityGate.passed out = false
               /\ exists c, QualityGate.verificationChecks !! k = Some c
                   /\ message = "Verification failed: " +:+ QualityGate.cname c
           end)
  /\ Service.files (snd r) = Service.files s
  /\ Service.runningFeatures (snd r) = Service.runningFeatures s
  /\ Service.pendingApprovals (snd r) = Service.pendingApprovals s
  /\ Service.consecutiveFailures (snd r) = Service.consecutiveFailures s
  /\ Service.pausedDueToFailures (snd r) = Service.pausedDueToFailures s
  /\ Service.autoLoopRunning (snd r) = Service.autoLoopRunning s.
Proof.
  intros sh out r. unfold r, Service.verifyFeature, Service.runQualityChecks.
  fold sh. fold out. cbn [fst snd Service.events Service.emit Service.files
    Service.runningFeatures Service.pendingApprovals Service.consecutiveFailures
    Service.pausedDueToFailures Service.autoLoopRunning].
  split_and!; try done.
  eexists. split; [by rewrite <- app_assoc|].
  unfold out, QualityGate.runQualityChecks, QualityGate.verificationChecks.
  cbn [QualityGate.check_loop first_failure QualityGate.cmd].
  destruct (sh "npm run lint") eqn:E1; cbn;
    [|split; [done|]; by eexists].
  destruct (sh "npm run typecheck") eqn:E2; cbn;
    [|split; [done|]; by eexists].
  destruct (sh "npm test") eqn:E3; cbn;
    [|split; [done|]; by eexists].
  destruct (sh "npm run build") eqn:E4; cbn;
    [|split; [done|]; by eexists].
  done.
Qed.

(** ** The output kept for a check *)

Lemma substring_all s : String.substring 0 (String.length s) s = s.
Proof. induction s as [|c s IH]; simpl; [done|]. by rewrite IH. Qed.

Lemma substring_tail s n :
  n <= String.length s ->
  exists pre, s = (pre ++ String.substring n (String.length s - n) s)%string
              /\ String.length pre = n.
Proof.
  revert s. induction n as [|n IH]; intros s Hn.
  - exists "". rewrite Nat.sub_0_r, substring_all. done.
  - destruct s as [|c s]; simpl in Hn; [lia|].
    destruct (IH s ltac:(lia)) as (pre & Hs & Hl).
    exists (String c pre). split; [|simpl; by rewrite Hl].
    change (String.length (String c s) - S n) with (String.length s - n).
    change (String.substring (S n) ?m (String c s)) with (String.substring n m s).
    change (String c s = String c (pre ++ String.substring n (String.length s - n) s)%string).
    f_equal. exact Hs.
Qed.

Lemma length_append (a b : string) :
  String.length (a ++ b)%string = String.length a + String.length b.
Proof. induction a as [|c a IH]; simpl; [done|]. by rewrite IH. Qed.

Lemma clampOutput_tail value :
  exists pre, value = (pre ++ QualityGate.clampOutput value)%string
    /\ String.length (QualityGate.clampOutput value)
       = Nat.min 4000 (String.length value).
Proof.
  unfold QualityGate.clampOutput, QualityGate.slice_last.
  destruct (Nat.ltb_spec 4000 (String.length value)) as [Hlt|Hle].
  - destruct (substring_tail value (String.length value - 4000) ltac:(lia))
      as (pre & Hs & Hl).
    replace (String.length value - (String.length value - 4000)) with 4000 in Hs by lia.
    exists pre. split; [done|].
    apply (f_equal String.length) in Hs. rewrite length_append in Hs. lia.
  - exists "". split; [done|]. lia.
Qed.

Lemma clampOutput_length value : String.length (QualityGate.clampOutput value) <= 4000.
Proof. destruct (clampOutput_tail value) as (_ & _ & H). lia. Qed.

Lemma check_loop_clamped execAsync checks acc ran :
  Forall clamped acc ->
  Forall clamped (QualityGate.results (QualityGate.check_loop execAsync checks acc ran)).
Proof.
  revert acc ran. induction checks as [|c rest IH]; intros acc ran Hacc; simpl; [done|].
  destruct (execAsync (QualityGate.cmd c)) as [so se|so se m].
  - apply IH. apply Forall_app. split; [done|]. constructor; [|constructor].
    unfold clamped, QualityGate.pass_result. simpl.
    destruct (truthy so); [split; [apply clampOutput_length|done]|].
    destruct (truthy se); [split; [apply clampOutput_length|done]|done].
  - simpl. apply Forall_app. split.
    + apply Forall_app. split; [done|]. constructor; [|constructor].
      unfold clamped. simpl. split; [apply clampOutput_length|done].
    + clear. induction rest as [|c' rest IH]; simpl; constructor; [done|apply IH].
Qed.

(** X20. Every result of the quality gate that carries an output carries at
    most 4000 characters of it; a failed check always carries an output and a
    skipped check never does. [clampOutput] keeps the end of the text: what
    it returns is the last 4000 characters, or the whole text when that is
    shorter. *)
Theorem quality_gate_outputs_are_clamped (execAsync : string -> QualityGate.ExecOutcome) :
  Forall clamped (QualityGate.results (QualityGate.runQualityChecks execAsync))
  /\ (forall value, exists pre,
        value = (pre ++ QualityGate.clampOutput value)%string
        /\ String.length (QualityGate.clampOutput value)
           = Nat.min 4000 (String.length value)).
Proof.
  split; [by apply check_loop_clamped | apply clampOutput_tail].
Qed.

(** ** The failure breaker once it has paused *)

Lemma observe_while_paused s r :
  Service.pausedDueToFailures s = true ->
  Service.pausedDueToFailures (Service.observe s r) = true
  /\ Service.events (Service.observe s r) = Service.events s
  /\ Service.autoLoopRunning (Service.observe s r) = Service.autoLoopRunning s
  /\ Service.autoLoopAbortController (Service.observe s r)
     = Service.autoLoopAbortController s.
Proof.
  intros Hp. destruct r as [|now ty msg]; simpl; [done|].
  unfold Service.reportFailure, Service.trackFailureAndCheckPause.
  repeat case_bool_decide; simpl; unfold Service.signalShouldPause; simpl;
    rewrite ?Hp; done.
Qed.

Lemma observe_pause_events s r :
  Service.pausedDueToFailures s = false ->
  let s' := Service.observe s r in
  (Service.pausedDueToFailures s' = false /\ Service.events s' = Service.events s)
  \/ (Service.pausedDueToFailures s' = true
      /\ List.filter Service.is_paused_event (Service.events s')
         = List.filter Service.is_paused_event (Service.events s)
           ++ [Service.auto_mode_paused_failures
                 (length (Service.consecutiveFailures s'))
                 match r with Service.Failure _ ty _ => ty | _ => "" end
                 match r with Service.Failure _ _ msg => msg | _ => "" end
                 (Service.cfg_projectPath <$> Service.config s)]).
Proof.
  intros Hp. destruct r as [|now ty msg]; simpl; [by left|].
  unfold Service.reportFailure, Service.trackFailureAndCheckPause.
  repeat case_bool_decide; simpl; unfold Service.signalShouldPause; simpl;
    rewrite ?Hp; simpl; try (by left); right;
    unfold Service.stopAutoLoop; simpl;
    destruct (Service.autoLoopAbortController s), (Service.autoLoopRunning s); simpl;
    (split; [done|]);
    rewrite ?List.filter_app; simpl; rewrite ?app_nil_r; done.
Qed.

Lemma observe_all_while_paused s rs :
  Service.pausedDueToFailures s = true ->
  Service.pausedDueToFailures (observe_all s rs) = true
  /\ Service.events (observe_all s rs) = Service.events s
  /\ Service.autoLoopRunning (observe_all s rs) = Service.autoLoopRunning s
  /\ Service.autoLoopAbortController (observe_all s rs)
     = Service.autoLoopAbortController s.
Proof.
  revert s. induction rs as [|r rs IH]; intros s Hp; [done|].
  destruct (observe_while_paused s r Hp) as (H1 & H2 & H3 & H4).
  destruct (IH _ H1) as (? & ? & ? & ?). unfold observe_all in *. simpl.
  split_and!; congruence.
Qed.

(** X21. Once the breaker has paused auto mode it stays paused and silent:
    whatever feature runs follow, successes and quota errors included, no
    further event is emitted and the auto-loop fields are not touched, until
    [resetFailureTracking] clears the flag. So any sequence of feature runs
    adds at most one paused-due-to-failures event, and as long as the flag is
    clear no event has been added at all. *)
Theorem breaker_pauses_at_most_once (s : Service.State) (rs : list Service.RunResult) :
  let s' := observe_all s rs in
  (Service.pausedDueToFailures s = true ->
   Service.pausedDueToFailures s' = true
   /\ Service.events s' = Service.events s
   /\ Service.autoLoopRunning s' = Service.autoLoopRunning s
   /\ Service.autoLoopAbortController s' = Service.autoLoopAbortController s)
  /\ length (List.filter Service.is_paused_event (Service.events s'))
     <= S (length (List.filter Service.is_paused_event (Service.events s)))
  /\ (Service.pausedDueToFailures s = false ->
      Service.pausedDueToFailures s' = false -> Service.events s' = Service.events s)
  /\ Service.pausedDueToFailures (Service.resetFailureTracking s') = false
  /\ Service.consecutiveFailures (Service.resetFailureTracking s') = [].
Proof.
  cbv zeta. split_and!; [apply observe_all_while_paused | | |done|done].
  - revert s. induction rs as [|r rs IH]; intros s; [simpl; lia|].
    destruct (Service.pausedDueToFailures s) eqn:Hp.
    { destruct (observe_all_while_paused s (r :: rs) Hp) as (_ & -> & _). lia. }
    change (observe_all s (r :: rs)) with (observe_all (Service.observe s r) rs).
    destruct (observe_pause_events s r Hp) as [[Hp1 He]|[Hp1 He]].
    + specialize (IH (Service.observe s r)). rewrite He in IH. exact IH.
    + destruct (observe_all_while_paused _ rs Hp1) as (_ & -> & _).
      rewrite He, length_app. simpl. lia.
  - revert s. induction rs as [|r rs IH]; intros s Hp Hp'; [done|].
    change (observe_all s (r :: rs)) with (observe_all (Service.observe s r) rs) in *.
    destruct (observe_pause_events s r Hp) as [[Hp1 He]|[Hp1 He]].
    + rewrite <- He. by apply IH.
    + destruct (observe_all_while_paused _ rs Hp1) as (Hp2 & _). congruence.
Qed.

(** ** The metrics store *)

Section MetricsStore.
Context {Run : Type} (runId : Run -> string).

Lemma slice_last_all (n : nat) (l : list Run) :
  length l <= n -> Metrics.slice_last n l = l.
Proof.
  intros H. unfold Metrics.slice_last.
  replace (length l - n) with 0 by lia. done.
Qed.

Lemma slice_last_length (n : nat) (l : list Run) :
  length (Metrics.slice_last n l) = Nat.min n (length l).
Proof. unfold Metrics.slice_last. rewrite length_drop. lia. Qed.

Lemma slice_last_app (n : nat) (x l : list Run) :
  Metrics.slice_last n (Metrics.slice_last n x ++ l) = Metrics.slice_last n (x ++ l).
Proof.
  destruct (decide (length x <= n)) as [Hle|Hgt];
    [by rewrite (slice_last_all n x)|].
  unfold Metrics.slice_last. rewrite !length_app, !drop_app, drop_drop, !length_drop.
  f_equal; f_equal; lia.
Qed.

Lemma stamp_and_trim_runs now (store : Metrics.AutoModeMetricsStore Run) :
  Metrics.runs (Metrics.stamp_and_trim now store)
  = Metrics.slice_last 200 (Metrics.runs store).
Proof.
  unfold Metrics.stamp_and_trim, Metrics.MAX_METRICS_HISTORY. simpl.
  destruct (Nat.ltb_spec 200 (length (Metrics.runs store))); [done|].
  by rewrite slice_last_all.
Qed.

Lemma last_drop (k : nat) (l : list Run) : k < length l -> last (drop k l) = last l.
Proof.
  intros H. rewrite <- (take_drop k l) at 2. rewrite last_app.
  destruct (last (drop k l)) eqn:E; [done|].
  apply last_None in E. apply (f_equal length) in E. rewrite length_drop in E.
  simpl in E. lia.
Qed.

Lemma known_runs_cached path (s : Metrics.State Run) store :
  Metrics.metricsByProject s !! path = Some store ->
  known_runs path s = Metrics.runs store.
Proof. intros H. unfold known_runs, Metrics.loadMetricsStore. by rewrite H. Qed.

Lemma loadMetricsStore_runs now path (s : Metrics.State Run) :
  Metrics.runs (fst (Metrics.loadMetricsStore now path s)) = known_runs path s.
Proof.
  unfold known_runs, Metrics.loadMetricsStore.
  destruct (Metrics.metricsByProject s !! path); [done|].
  by destruct (Metrics.disk s !! path).
Qed.

Lemma startMetricsRun_ok now path run (s : Metrics.State Run) :
  let r := Metrics.startMetricsRun runId now now true path run s in
  fst r = Some (runId run)
  /\ exists store,
       Metrics.metricsByProject (snd r) !! path = Some store
       /\ Metrics.runs store = Metrics.slice_last 200 (known_runs path s ++ [run])
       /\ Metrics.disk (snd r) !! path = Some (Metrics.written store).
Proof.
  unfold Metrics.startMetricsRun, Metrics.updateMetricsStore, Metrics.prepare.
  pose proof (loadMetricsStore_runs now path s) as Hk.
  destruct (Metrics.loadMetricsStore now path s) as [current s1]. simpl in Hk.
  simpl. split; [done|]. eexists. split; [apply lookup_insert_eq|].
  split; [by rewrite stamp_and_trim_runs; simpl; rewrite Hk|].
  apply lookup_insert_eq.
Qed.

Lemma start_runs_spec path r (rs : list (string * Run)) (s : Metrics.State Run) :
  exists store,
    Metrics.metricsByProject (start_runs runId path (r :: rs) s) !! path = Some store
    /\ Metrics.runs store
       = Metrics.slice_last 200 (known_runs path s ++ map snd (r :: rs))
    /\ Metrics.disk (start_runs runId path (r :: rs) s) !! path
       = Some (Metrics.written store).
Proof.
  revert r s. induction rs as [|r' rs IH]; intros [now run] s.
  - destruct (startMetricsRun_ok now path run s) as (_ & store & Hc & Hr & Hd).
    exists store. split_and!; done.
  - destruct (startMetricsRun_ok now path run s) as (_ & store1 & Hc & Hr & _).
    change (start_runs runId path ((now, run) :: r' :: rs) s)
      with (start_runs runId path (r' :: rs)
              (snd (Metrics.startMetricsRun runId now now true path run s))).
    destruct (IH r' (snd (Metrics.startMetricsRun runId now now true path run s)))
      as (store & Hc' & Hr' & Hd').
    exists store. split_and!; [done| |done].
    rewrite Hr', (known_runs_cached _ _ _ Hc), Hr, slice_last_app.
    by rewrite <- app_assoc.
Qed.

Lemma update_first_absent rid (updater : Run -> Run) (l : list Run) :
  rid ∉ map runId l -> Metrics.update_first runId rid updater l = l.
Proof.
  induction l as [|r l IH]; simpl; [done|].
  intros H. apply not_elem_of_cons in H as [Hr Hl].
  rewrite decide_False by done. by rewrite IH.
Qed.

(** X22. When runs are started one after the other and every write
    succeeds, the cached history of the project is the last 200 of the runs
    known before followed by the new ones, in order: it never holds more
    than 200 runs, its last run is the run started last, and the metrics
    file holds the same store. A run that has left the history cannot be
    updated any more: [updateMetricsRun] for its id succeeds and changes no
    run. *)
Theorem metrics_history_keeps_the_newest_runs
    (path : string) (rs : list (string * Run)) (s : Metrics.State Run) :
  rs <> [] ->
  let s' := start_runs runId path rs s in
  exists store,
    Metrics.metricsByProject s' !! path = Some store
    /\ Metrics.runs store = Metrics.slice_last 200 (known_runs path s ++ map snd rs)
    /\ length (Metrics.runs store) <= 200
    /\ last (Metrics.runs store) = last (map snd rs)
    /\ Metrics.disk s' !! path = Some (Metrics.written store)
    /\ (forall rid updater now,
          rid ∉ map runId (Metrics.runs store) ->
          let r := Metrics.updateMetricsRun runId now now true path rid updater s' in
          fst r = Some tt
          /\ (Metrics.runs <$> Metrics.metricsByProject (snd r) !! path)
             = Some (Metrics.runs store)).
Proof.
  intros Hne. cbv zeta. destruct rs as [|r rs]; [done|].
  destruct (start_runs_spec path r rs s) as (store & Hc & Hr & Hd).
  exists store. split_and!; try done.
  - rewrite Hr, slice_last_length. lia.
  - rewrite Hr. unfold Metrics.slice_last. rewrite last_drop.
    + rewrite last_app. simpl map. destruct (last (snd r :: map snd rs)) eqn:E; [done|].
      by apply last_None in E.
    + rewrite length_app. simpl. lia.
  - intros rid updater now Hrid.
    unfold Metrics.updateMetricsRun, Metrics.updateMetricsStore, Metrics.prepare,
      Metrics.loadMetricsStore.
    rewrite Hc. simpl. split; [done|]. rewrite lookup_insert_eq. simpl.
    rewrite update_first_absent by done.
    destruct (Nat.ltb_spec Metrics.MAX_METRICS_HISTORY (length (Metrics.runs store)));
      [|done].
    rewrite Hr, slice_last_length in H. unfold Metrics.MAX_METRICS_HISTORY in H. lia.
Qed.

(** X23. Two calls of [startMetricsRun] for one project that overlap, each
    having copied the cached store before the other has stored its result,
    both succeed and both announce their run as the latest one, but the
    cached store and the metrics file end up with the second call's list
    only: the run of the call that finished first is not in the history. *)
Theorem overlapping_metrics_updates_lose_a_run
    (path nowA nowB : string) (a b : Run) (s : Metrics.State Run)
    (cached : Metrics.AutoModeMetricsStore Run) :
  Metrics.metricsByProject s !! path = Some cached ->
  let pA := Metrics.prepare nowA nowA path (fun l => l ++ [a]) (fun l => l) s in
  let pB := Metrics.prepare nowB nowB path (fun l => l ++ [b]) (fun l => l) (snd pA) in
  let s3 := Metrics.finish path (fst pA) (Metrics.write path (fst pA) (snd pB)) in
  let s4 := Metrics.finish path (fst pB) (Metrics.write path (fst pB) s3) in
  exists store,
    Metrics.metricsByProject s4 !! path = Some store
    /\ Metrics.runs store = Metrics.slice_last 200 (Metrics.runs cached ++ [b])
    /\ Metrics.disk s4 !! path = Some (Metrics.written store)
    /\ Metrics.emitted s4 = Metrics.emitted s ++ [(path, Some a); (path, Some b)]
    /\ (a <> b -> a ∉ Metrics.runs cached -> a ∉ Metrics.runs store).
Proof.
  intros Hc. cbv zeta. unfold Metrics.prepare, Metrics.loadMetricsStore.
  rewrite Hc. cbn [fst snd Metrics.set_cache Metrics.metricsByProject].
  rewrite lookup_insert_eq. cbn [fst snd Metrics.finish Metrics.write
    Metrics.metricsByProject Metrics.disk Metrics.emitted Metrics.set_cache
    Metrics.runs Metrics.version Metrics.updatedAt].
  eexists. split; [apply lookup_insert_eq|].
  rewrite !stamp_and_trim_runs. cbn [Metrics.runs].
  assert (Hlast : forall x : Run,
            last (Metrics.slice_last 200 (Metrics.runs cached ++ [x])) = Some x).
  { intros x. unfold Metrics.slice_last. rewrite last_drop.
    - by rewrite last_snoc.
    - rewrite length_app. simpl. lia. }
  split_and!; [done | apply lookup_insert_eq | | ].
  - rewrite !Hlast, <- app_assoc. done.
  - intros Hab Ha Hin. unfold Metrics.slice_last in Hin.
    apply list_elem_of_lookup in Hin as [i Hi]. rewrite lookup_drop in Hi.
    apply list_elem_of_lookup_2 in Hi. apply elem_of_app in Hi as [?|Hi]; [done|].
    apply list_elem_of_singleton in Hi. done.
Qed.

End MetricsStore.

Lemma metrics_history_witness :
  exists store,
    Metrics.metricsByProject
      (start_runs (fun r => r) "/p" [("t1", "f2-r1"); ("t2", "f3-r2")] Examples.one_run)
      !! "/p" = Some store
    /\ Metrics.runs store = ["f1-r0"; "f2-r1"; "f3-r2"].
Proof.
  destruct (metrics_history_keeps_the_newest_runs (fun r : string => r) "/p"
              [("t1", "f2-r1"); ("t2", "f3-r2")] Examples.one_run ltac:(done))
    as (store & Hc & Hr & _).
  exists store. split; [exact Hc | exact Hr].
Defined.

Lemma overlapping_metrics_witness :
  exists store,
    Metrics.metricsByProject
      (Metrics.finish "/p"
         (fst (Metrics.prepare "tB" "tB" "/p" (fun l => l ++ ["f3-b"]) (fun l => l)
                 (snd (Metrics.prepare "tA" "tA" "/p" (fun l => l ++ ["f2-a"])
                         (fun l => l) Examples.one_run))))
         (Metrics.write "/p"
            (fst (Metrics.prepare "tB" "tB" "/p" (fun l => l ++ ["f3-b"]) (fun l => l)
                    (snd (Metrics.prepare "tA" "tA" "/p" (fun l => l ++ ["f2-a"])
                            (fun l => l) Examples.one_run))))
            (Metrics.finish "/p"
               (fst (Metrics.prepare "tA" "tA" "/p" (fun l => l ++ ["f2-a"])
                       (fun l => l) Examples.one_run))
               (Metrics.write "/p"
                  (fst (Metrics.prepare "tA" "tA" "/p" (fun l => l ++ ["f2-a"])
                          (fun l => l) Examples.one_run))
                  (snd (Metrics.prepare "tB" "tB" "/p" (fun l => l ++ ["f3-b"])
                          (fun l => l)
                          (snd (Metrics.prepare "tA" "tA" "/p" (fun l => l ++ ["f2-a"])
                                  (fun l => l) Examples.one_run))))))))
      !! "/p" = Some store
    /\ Metrics.runs store = ["f1-r0"; "f3-b"].
Proof.
  destruct (overlapping_metrics_updates_lose_a_run (Run := string) "/p" "tA" "tB"
              "f2-a" "f3-b" Examples.one_run
              {| Metrics.version := 1; Metrics.updatedAt := "t0";
                 Metrics.runs := ["f1-r0"] |})
    as (store & Hc & Hr & _).
  - vm_compute. reflexivity.
  - exists store. split; [exact Hc | exact Hr].
Defined.

(** ** The auto loop *)

Lemma size_running_le (m m' : gmap string Service.RunningFeature) :
  dom m' ⊆ dom m -> size m' <= size m.
Proof.
  intros H. rewrite <- !size_dom. by apply subseteq_size.
Qed.

Lemma launch_executeFeature_fresh s path fid wt auto prompt now :
  Service.runningFeatures s !! fid = None ->
  exists rf,
    Service.runningFeatures (Service.launch_executeFeature s path fid wt auto prompt now)
    = <[fid := rf]> (Service.runningFeatures s)
    /\ Service.featureId rf = fid /\ Service.isAutoMode rf = auto
    /\ Service.config (Service.launch_executeFeature s path fid wt auto prompt now)
       = Service.config s
    /\ Service.launches (Service.launch_executeFeature s path fid wt auto prompt now)
       = Service.launches s
         ++ [{| Service.l_projectPath := path; Service.l_featureId := fid;
                Service.l_useWorktrees := wt; Service.l_isAutoMode := auto;
                Service.l_continuationPrompt := prompt |}]
    /\ Service.events (Service.launch_executeFeature s path fid wt auto prompt now)
       = Service.events s
    /\ Service.autoLoopRunning
         (Service.launch_executeFeature s path fid wt auto prompt now)
       = Service.autoLoopRunning s.
Proof.
  intros Hf. unfold Service.launch_executeFeature, Service.executeFeature_enter.
  rewrite bool_decide_eq_false_2 by (rewrite Hf; by intros [? ?]).
  simpl. eexists. split_and!; done.
Qed.

Lemma find_not_running (m : gmap string Service.RunningFeature) pending next :
  List.find (fun f => negb (bool_decide (is_Some (m !! f)))) pending = Some next ->
  m !! next = None /\ In next pending.
Proof.
  intros H. apply find_some in H as [Hin H]. split; [|done].
  apply negb_true_iff, bool_decide_eq_false in H.
  destruct (m !! next); [|done]. destruct H. by eexists.
Qed.

Lemma capacity_config s s' :
  Service.config s' = Service.config s -> AutoLoop.capacity s' = AutoLoop.capacity s.
Proof. unfold AutoLoop.capacity. by intros ->. Qed.

Lemma loop_body_bound w s (M : Z) :
  calm_world w ->
  (Z.of_nat (size (Service.runningFeatures s)) <= M)%Z ->
  (AutoLoop.capacity s <= M)%Z ->
  let s' := snd (AutoLoop.loop_body w s) in
  (Z.of_nat (size (Service.runningFeatures s')) <= M)%Z
  /\ Service.config s' = Service.config s.
Proof.
  intros [Hload _] Hs Hcap. unfold AutoLoop.loop_body.
  case_bool_decide as Hfull; [done|].
  destruct (Service.config s) as [c|] eqn:Hc; [|done].
  destruct (Hload s) as [Hdom Hcfg]. rewrite Hc in Hcfg.
  pose proof (size_running_le _ _ Hdom) as Hsize.
  set (s1 := AutoLoop.during_load w s) in *.
  assert (Hkeep : (Z.of_nat (size (Service.runningFeatures s1)) <= M)%Z) by lia.
  destruct (AutoLoop.pendingFeatures w) as [|p ps]; [by rewrite Hcfg|].
  destruct (List.find _ (p :: ps)) as [next|] eqn:Hfind; [|done].
  rewrite Hcfg. apply find_not_running in Hfind as [Hnext _].
  destruct (launch_executeFeature_fresh s1 (Service.cfg_projectPath c) next
              (Service.useWorktrees c) true None (AutoLoop.now w) Hnext)
    as (rf & Hr & _ & _ & Hcfg' & _).
  cbn [snd]. rewrite Hr, Hcfg'. split; [|done].
  rewrite map_size_insert_None by done. lia.
Qed.


Lemma two_pending_calm : calm_world Examples.two_pending.
Proof. split; intros s; split; done. Qed.


(** X25. The loop looks at its stop flag only at the top of a pass. When
    [stopAutoLoop] is called while the loop is loading the pending features,
    the pass still launches the first pending feature that is not running:
    the feature is registered as an auto-mode run after [auto_mode_stopped]
    was emitted and with [autoLoopRunning] false. The loop then ends at its
    next check, so a stop is followed by at most one such launch. *)
Theorem stop_during_load_still_starts_a_feature
    (w : AutoLoop.World) (rest : list AutoLoop.World) (s : Service.State)
    (c : Service.AutoModeConfig) (next : string) :
  AutoLoop.keeps_running s = true ->
  Service.config s = Some c ->
  (Z.of_nat (size (Service.runningFeatures s)) < AutoLoop.capacity s)%Z ->
  (forall s0, AutoLoop.during_load w s0 = snd (Service.stopAutoLoop s0)) ->
  (forall s0, AutoLoop.keeps_running s0 = false ->
              AutoLoop.keeps_running (AutoLoop.during_sleep w s0) = false) ->
  List.find (fun f => negb (bool_decide (is_Some (Service.runningFeatures s !! f))))
    (AutoLoop.pendingFeatures w) = Some next ->
  let s1 := snd (AutoLoop.loop_body w s) in
  fst (AutoLoop.loop_body w s) = AutoLoop.Started next
  /\ Service.autoLoopRunning s1 = false
  /\ Service.runningFeatures s !! next = None
  /\ (exists rf, Service.runningFeatures s1 !! next = Some rf
                 /\ Service.isAutoMode rf = true)
  /\ Service.events s1
     = Service.events s ++ [Service.auto_mode_stopped (Some (Service.cfg_projectPath c))]
  /\ Service.launches s1
     = Service.launches s
       ++ [{| Service.l_projectPath := Service.cfg_projectPath c;
              Service.l_featureId := next;
              Service.l_useWorktrees := Service.useWorktrees c;
              Service.l_isAutoMode := true; Service.l_continuationPrompt := None |}]
  /\ fst (fst (AutoLoop.runAutoLoop (w :: rest) s)) = [AutoLoop.Started next]
  /\ snd (AutoLoop.runAutoLoop (w :: rest) s) = true.
Proof.
  intros Hrun Hc Hsize Hload Hsleep Hfind. cbv zeta.
  assert (Hstop : Service.runningFeatures (snd (Service.stopAutoLoop s))
                  = Service.runningFeatures s
                  /\ Service.config (snd (Service.stopAutoLoop s)) = Some c
                  /\ Service.autoLoopRunning (snd (Service.stopAutoLoop s)) = false
                  /\ Service.events (snd (Service.stopAutoLoop s))
                     = Service.events s
                       ++ [Service.auto_mode_stopped (Some (Service.cfg_projectPath c))]
                  /\ Service.launches (snd (Service.stopAutoLoop s)) = Service.launches s).
  { unfold AutoLoop.keeps_running in Hrun. apply andb_true_iff in Hrun as [Hr Hctl].
    unfold Service.stopAutoLoop. rewrite Hr, Hc.
    destruct (Service.autoLoopAbortController s); [|done]. simpl. by rewrite Hc. }
  destruct Hstop as (Hreg & Hcfg & Hoff & Hev & Hl).
  assert (Hbody : AutoLoop.loop_body w s
                  = (AutoLoop.Started next,
                     Service.launch_executeFeature (snd (Service.stopAutoLoop s))
                       (Service.cfg_projectPath c) next (Service.useWorktrees c)
                       true None (AutoLoop.now w))).
  { unfold AutoLoop.loop_body. rewrite bool_decide_eq_false_2 by lia.
    rewrite Hc, Hload, Hreg, Hfind, Hcfg.
    destruct (AutoLoop.pendingFeatures w); [done|]. done. }
  apply find_not_running in Hfind as [Hnext _].
  destruct (launch_executeFeature_fresh (snd (Service.stopAutoLoop s))
              (Service.cfg_projectPath c) next (Service.useWorktrees c) true None
              (AutoLoop.now w)) as (rf & Hr & _ & Hauto & _ & Hl' & Hev' & Hoff');
    [by rewrite Hreg|].
  assert (Hend : AutoLoop.keeps_running (snd (AutoLoop.loop_body w s)) = false).
  { rewrite Hbody. cbn [snd]. unfold AutoLoop.keeps_running. by rewrite Hoff', Hoff. }
  cbn [AutoLoop.runAutoLoop]. rewrite Hrun.
  rewrite Hbody in *. cbn [fst snd] in *.
  apply Hsleep in Hend.
  destruct rest as [|w' rest']; cbn [AutoLoop.runAutoLoop]; rewrite Hend; cbn [fst snd].
  all: split_and!; try done; try congruence.
  all: try (exists rf; split; [by rewrite Hr, lookup_insert_eq | done]).
Qed.

Lemma stop_during_load_witness :
  fst (AutoLoop.loop_body Examples.stopped_while_loading Examples.looping)
  = AutoLoop.Started "f1"
  /\ Service.autoLoopRunning
       (snd (AutoLoop.loop_body Examples.stopped_while_loading Examples.looping))
     = false.
Proof.
  destruct (stop_during_load_still_starts_a_feature Examples.stopped_while_loading []
              Examples.looping
              {| Service.maxConcurrency := 3; Service.useWorktrees := true;
                 Service.cfg_projectPath := "/p" |} "f1")
    as (H1 & H2 & _);
    [ vm_compute; reflexivity | reflexivity | vm_compute; reflexivity
    | done | done | vm_compute; reflexivity | exact (conj H1 H2) ].
Defined.
